(** * videoask-ai: the retrieval core

    A shallow embedding of the retrieval pipeline of the repository:
    - [src/lib/chunking.ts]   (chunkText, chunkTranscript),
    - [src/lib/embeddings.ts] (cosineSimilarity, findSimilarEmbeddings),
    - the in-memory vector store (storeChunks, getChunks, searchSimilar),
    - the search stage of the [/api/ask] route.

    JavaScript values are modelled as the language has them: a [number] that
    carries a score, a timestamp or an embedding component is an IEEE 754
    binary64 value (Rocq's primitive [float]); counters, lengths and indices,
    which the code only ever increments, are [nat] or [Z]; a string is its
    sequence of UTF-16 code units; [undefined] is [None]; a [throw] is the
    [Throw] constructor of [result]. *)

From Stdlib Require Import ZArith List Floats Lia Bool Sorted Permutation.
From Stdlib Require Import Ascii String DecimalString.
From stdpp Require Import base option list sorting gmap.
Import ListNotations.

Set Default Proof Using "Type".
Set Warnings "-inexact-float".

(* ================================================================= *)
(** ** Strings *)

Module JsString.

(** A JavaScript string: its UTF-16 code units. *)
Definition jsstring := list N.

(** An ASCII literal as a JavaScript string. *)
Definition js (s : string) : jsstring :=
  List.map (fun c => N.of_nat (nat_of_ascii c)) (list_ascii_of_string s).

(** The code units matched by [\s] and stripped by [trim]: WhiteSpace and
    LineTerminator of ECMAScript. *)
Definition isSpace (c : N) : bool :=
  ((9 <=? c) && (c <=? 13) || (c =? 32) || (c =? 160) || (c =? 5760)
   || (8192 <=? c) && (c <=? 8202) || (c =? 8232) || (c =? 8233)
   || (c =? 8239) || (c =? 8287) || (c =? 12288) || (c =? 65279))%N.

Fixpoint trimStart (s : jsstring) : jsstring :=
  match s with
  | c :: s' => if isSpace c then trimStart s' else s
  | [] => []
  end.

Definition trimEnd (s : jsstring) : jsstring := rev (trimStart (rev s)).

(** [s.trim()] *)
Definition trim (s : jsstring) : jsstring := trimEnd (trimStart s).

(** [s.split(/\s+/)]: the pieces between maximal runs of white space; a
    run at either end leaves an empty piece there, and the empty string
    splits into one empty piece. [cur] is the piece being read, [inRun]
    tells that the previous code unit was white space. *)
Fixpoint splitSpacesFrom (cur : jsstring) (inRun : bool) (s : jsstring)
  : list jsstring :=
  match s with
  | [] => [cur]
  | c :: s' =>
      if isSpace c then
        if inRun then splitSpacesFrom [] true s'
        else cur :: splitSpacesFrom [] true s'
      else splitSpacesFrom (cur ++ [c]) false s'
  end.

Definition splitSpaces (s : jsstring) : list jsstring :=
  splitSpacesFrom [] false s.

(** [s.split(/\s+/).filter(w => w.length > 0)] *)
Definition words (s : jsstring) : list jsstring :=
  List.filter (fun w => negb (Nat.eqb (List.length w) 0)) (splitSpaces s).

(** [l.join(sep)] *)
Fixpoint join (sep : jsstring) (l : list jsstring) : jsstring :=
  match l with
  | [] => []
  | [x] => x
  | x :: l' => x ++ sep ++ join sep l'
  end.

(** The class [[.!?]]. *)
Definition isTerminator (c : N) : bool :=
  ((c =? 46) || (c =? 33) || (c =? 63))%N.

(** [text.match(/[^.!?]+[.!?]+/g)], [[]] standing for [null]. A match is
    a maximal run of non-terminators followed by a maximal run of
    terminators; terminators before the first match are skipped, and text
    after the last terminator belongs to no match. *)
Inductive scan := Skipping | InBody | InEnd.

Fixpoint matchSentencesFrom (st : scan) (cur : jsstring) (s : jsstring)
  : list jsstring :=
  match s with
  | [] => match st with InEnd => [cur] | _ => [] end
  | c :: s' =>
      match st with
      | Skipping =>
          if isTerminator c then matchSentencesFrom Skipping [] s'
          else matchSentencesFrom InBody [c] s'
      | InBody =>
          if isTerminator c then matchSentencesFrom InEnd (cur ++ [c]) s'
          else matchSentencesFrom InBody (cur ++ [c]) s'
      | InEnd =>
          if isTerminator c then matchSentencesFrom InEnd (cur ++ [c]) s'
          else cur :: matchSentencesFrom InBody [c] s'
      end
  end.

Definition matchSentences (s : jsstring) : list jsstring :=
  matchSentencesFrom Skipping [] s.

(** [String(n)] for a non-negative integer. *)
Definition ofNat (n : nat) : jsstring :=
  js (NilZero.string_of_uint (Nat.to_uint n)).

End JsString.
Export JsString.

(* ================================================================= *)
(** ** Arrays and exceptions *)

Module JsArray.

(** [l.slice(start, end)] for integer arguments: a negative argument
    counts from the end of the array, and both are clamped to the array. *)
Definition sliceIndex (len i : Z) : Z :=
  if (i <? 0)%Z then Z.max (len + i) 0 else Z.min i len.

Definition slice {A} (l : list A) (start stop : Z) : list A :=
  let len := Z.of_nat (List.length l) in
  let k := sliceIndex len start in
  let final := sliceIndex len stop in
  firstn (Z.to_nat (final - k)) (skipn (Z.to_nat k) l).

End JsArray.
Export JsArray.

(** What the code throws. *)
Inductive error :=
| DimensionsDontMatch (a b : nat)   (* "Embedding dimensions don't match" *)
| ChunkCountMismatch (chunks embeddings : nat).

Inductive result (A : Type) :=
| Ok (a : A)
| Throw (e : error).
Arguments Ok {A} a.
Arguments Throw {A} e.

Definition bind {A B} (r : result A) (k : A -> result B) : result B :=
  match r with
  | Ok a => k a
  | Throw e => Throw e
  end.

(** [l.map((x, i) => f x i)] where [f] may throw: the first exception
    ends the loop. [i] is the index of the head of [l]. *)
Fixpoint mapiMFrom {A B} (f : A -> nat -> result B) (i : nat) (l : list A)
  : result (list B) :=
  match l with
  | [] => Ok []
  | x :: l' =>
      bind (f x i) (fun y => bind (mapiMFrom f (S i) l') (fun ys => Ok (y :: ys)))
  end.

Definition mapiM {A B} (f : A -> nat -> result B) (l : list A) : result (list B) :=
  mapiMFrom f 0 l.

(* ================================================================= *)
(** ** src/lib/chunking.ts *)

Module Chunking.

(** [interface Chunk], with the two optional timestamps that
    [chunkTranscript] adds ([None] is [undefined]). *)
Record Chunk := {
  text : jsstring;
  index : nat;
  startOffset : nat;
  endOffset : nat;
  wordCount : nat;
  timestamp : option float;
  endTimestamp : option float;
}.

(** A transcript item [{ text; offset; duration? }]. *)
Record Segment := {
  seg_text : jsstring;
  offset : float;
  duration : option float;
}.

(** The local variables of the loop of [chunkText]. *)
Record TextState := {
  chunks : list Chunk;
  currentChunk : list jsstring;
  currentWordCount : nat;
  chunkIndex : nat;
  startOffsetVar : nat;
}.

(** The block that saves the current chunk: push it, with the next index,
    and move the start offset behind it. *)
Definition pushCurrent (st : TextState) : TextState :=
  let chunkText := join (js " ") (currentChunk st) in
  {| chunks := chunks st ++
       [{| text := chunkText;
           index := chunkIndex st;
           startOffset := startOffsetVar st;
           endOffset := startOffsetVar st + List.length chunkText;
           wordCount := currentWordCount st;
           timestamp := None; endTimestamp := None |}];
     currentChunk := currentChunk st;
     currentWordCount := currentWordCount st;
     chunkIndex := S (chunkIndex st);
     startOffsetVar := startOffsetVar st + List.length chunkText + 1 |}.

Definition hasContent (st : TextState) : bool :=
  negb (Nat.eqb (List.length (currentChunk st)) 0).

Definition setCurrent (st : TextState) (cur : list jsstring) (n : nat) : TextState :=
  {| chunks := chunks st; currentChunk := cur; currentWordCount := n;
     chunkIndex := chunkIndex st; startOffsetVar := startOffsetVar st |}.

(** One iteration of [for (const sentence of sentences)]. *)
Definition sentenceStep (targetWords : Z) (st : TextState) (sentence : jsstring)
  : TextState :=
  let sentenceWordCount := List.length (words (trim sentence)) in
  if (targetWords <? Z.of_nat sentenceWordCount)%Z then
    (* a single sentence above the target is a chunk of its own *)
    let st1 := if hasContent st then setCurrent (pushCurrent st) [] 0 else st in
    {| chunks := chunks st1 ++
         [{| text := trim sentence;
             index := chunkIndex st1;
             startOffset := startOffsetVar st1;
             endOffset := startOffsetVar st1 + List.length sentence;
             wordCount := sentenceWordCount;
             timestamp := None; endTimestamp := None |}];
       currentChunk := currentChunk st1;
       currentWordCount := currentWordCount st1;
       chunkIndex := S (chunkIndex st1);
       startOffsetVar := startOffsetVar st1 + List.length sentence + 1 |}
  else if (Z.of_nat (currentWordCount st + sentenceWordCount) <=? targetWords)%Z then
    setCurrent st (currentChunk st ++ [trim sentence])
               (currentWordCount st + sentenceWordCount)
  else
    let st1 := if hasContent st then pushCurrent st else st in
    setCurrent st1 [trim sentence] sentenceWordCount.

Definition initialState : TextState :=
  {| chunks := []; currentChunk := []; currentWordCount := 0;
     chunkIndex := 0; startOffsetVar := 0 |}.

(** [chunkText(text, targetWords)] *)
Definition chunkText (text : jsstring) (targetWords : Z) : list Chunk :=
  let wordCount0 := List.length (words (trim text)) in
  if Nat.eqb (List.length (trim text)) 0 || Nat.eqb wordCount0 0 then []
  else
    let sentences :=
      match matchSentences text with [] => [text] | ms => ms end in
    let st := fold_left (sentenceStep targetWords) sentences initialState in
    let st' := if hasContent st then pushCurrent st else st in
    if Nat.eqb (List.length (chunks st')) 0
       || forallb (fun c => Nat.eqb (wordCount c) 0) (chunks st')
    then []
    else chunks st'.

(** [combineTranscript] *)
Definition combineTranscript (transcript : list Segment) : jsstring :=
  join (js " ") (List.map seg_text transcript).

(** [x || 0] for an optional number: [undefined], [0], [-0] and [NaN] are
    falsy. *)
Definition orZero (d : option float) : float :=
  match d with
  | None => 0%float
  | Some v => if (v =? 0)%float || is_nan v then 0%float else v
  end.

(** The two [for] loops of [chunkTranscriptSimple] that look for the
    transcript item containing a character position: [textPos] starts at 0
    and moves behind each item and the space that follows it. *)
Fixpoint findItem {A} (pos textPos : nat) (f : Segment -> A)
  (transcript : list Segment) : option A :=
  match transcript with
  | [] => None
  | item :: rest =>
      let itemLength := List.length (seg_text item) in
      if Nat.leb textPos pos && Nat.ltb pos (textPos + itemLength)
      then Some (f item)
      else findItem pos (textPos + itemLength + 1) f rest
  end.

(** [chunkTranscriptSimple] *)
Definition chunkTranscriptSimple (transcript : list Segment) (targetWords : Z)
  : list Chunk :=
  let fullText := combineTranscript transcript in
  let textChunks := chunkText fullText targetWords in
  List.map (fun chunk =>
    {| text := text chunk; index := index chunk;
       startOffset := startOffset chunk; endOffset := endOffset chunk;
       wordCount := wordCount chunk;
       timestamp :=
         findItem (startOffset chunk) 0
           (fun item => (offset item / 1000)%float) transcript;
       endTimestamp :=
         findItem (endOffset chunk) 0
           (fun item => ((offset item + orZero (duration item)) / 1000)%float)
           transcript |})
    textChunks.

Definition SEGMENTS_PER_CHUNK : Z := 5.

(** The body of the window loop at position [i]: the chunks after it. *)
Definition windowBody (transcript : list Segment) (i : Z) (chunks : list Chunk)
  : list Chunk :=
  let chunkSegments := slice transcript i (i + SEGMENTS_PER_CHUNK) in
  match chunkSegments with
  | [] => chunks                                   (* continue *)
  | startSegment :: _ =>
      let text := trim (join (js " ") (List.map seg_text chunkSegments)) in
      if Nat.ltb (List.length text) 10 then chunks  (* continue *)
      else
        let wordCount := List.length (words text) in
        let endSegment := List.last chunkSegments startSegment in
        chunks ++
          [{| text := text;
              index := List.length chunks;
              startOffset := 0; endOffset := 0;
              wordCount := wordCount;
              timestamp := Some (offset startSegment / 1000)%float;
              endTimestamp :=
                Some ((offset endSegment + orZero (duration endSegment)) / 1000)%float |}]
  end.

(** [for (let i = 0; i < transcript.length; i += SEGMENTS_PER_CHUNK - OVERLAP)].
    The loop need not end, so it runs on [fuel]: [None] says that the loop
    was still running when the fuel ran out. *)
Fixpoint windowLoop (fuel : nat) (transcript : list Segment) (OVERLAP : Z)
  (i : Z) (chunks : list Chunk) : option (list Chunk) :=
  match fuel with
  | O => None
  | S fuel' =>
      if (i <? Z.of_nat (List.length transcript))%Z then
        windowLoop fuel' transcript OVERLAP (i + (SEGMENTS_PER_CHUNK - OVERLAP))
          (windowBody transcript i chunks)
      else Some chunks
  end.

(** [chunkTranscript(transcript, targetWords, overlapSegments)] *)
Definition chunkTranscript (fuel : nat) (transcript : list Segment)
  (targetWords : Z) (overlapSegments : Z) : option (list Chunk) :=
  if (overlapSegments <=? 0)%Z || Nat.ltb (List.length transcript) 10 then
    Some (chunkTranscriptSimple transcript targetWords)
  else windowLoop fuel transcript overlapSegments 0 [].

End Chunking.

(* ================================================================= *)
(** ** src/lib/embeddings.ts *)

Module Embeddings.

(** [a.reduce((sum, val, i) => sum + val * b[i], 0)], called on arrays of
    one length, so that [b[i]] is the component paired with [val]. *)
Definition dotProduct (a b : list float) : float :=
  fold_left (fun sum (vb : float * float) => (sum + vb.1 * vb.2)%float)
            (combine a b) 0%float.

(** [Math.sqrt(a.reduce((sum, val) => sum + val * val, 0))] *)
Definition magnitude (a : list float) : float :=
  sqrt (fold_left (fun sum val => (sum + val * val)%float) a 0%float).

(** [cosineSimilarity(a, b)] *)
Definition cosineSimilarity (a b : list float) : result float :=
  if negb (Nat.eqb (List.length a) (List.length b)) then
    Throw (DimensionsDontMatch (List.length a) (List.length b))
  else
    let dotProduct := dotProduct a b in
    let magnitudeA := magnitude a in
    let magnitudeB := magnitude b in
    if (magnitudeA =? 0)%float || (magnitudeB =? 0)%float then Ok 0%float
    else Ok (dotProduct / (magnitudeA * magnitudeB))%float.

(** An element of the array that [findSimilarEmbeddings] returns. *)
Record Match := {
  m_index : nat;
  similarity : float;
}.

(** The comparator [(a, b) => b.similarity - a.similarity]. *)
Definition bySimilarity (a b : Match) : float :=
  (similarity b - similarity a)%float.

(** [Array.prototype.sort(comparefn)]. The language fixes the result for a
    consistent comparator: the elements in comparator order, elements that
    compare equal in their original order (the sort is stable), [NaN] from
    the comparator read as [+0]. That result is computed here by insertion
    from the right: an element moves behind exactly those sorted elements
    [y] with [comparefn(x, y) > 0]. *)
Fixpoint sortInsert {A} (comparefn : A -> A -> float) (x : A) (sorted : list A)
  : list A :=
  match sorted with
  | [] => [x]
  | y :: rest =>
      if (0 <? comparefn x y)%float then y :: sortInsert comparefn x rest
      else x :: sorted
  end.

Definition sort {A} (comparefn : A -> A -> float) (l : list A) : list A :=
  fold_right (sortInsert comparefn) [] l.

(** The callback
    [(embedding, index) => ({ index, similarity: cosineSimilarity(queryEmbedding, embedding) })]. *)
Definition scoreEntry (queryEmbedding embedding : list float) (index : nat)
  : result Match :=
  bind (cosineSimilarity queryEmbedding embedding)
       (fun s => Ok {| m_index := index; similarity := s |}).

(** [findSimilarEmbeddings(queryEmbedding, candidateEmbeddings, topK)] *)
Definition findSimilarEmbeddings (queryEmbedding : list float)
  (candidateEmbeddings : list (list float)) (topK : Z) : result (list Match) :=
  bind (mapiM (scoreEntry queryEmbedding) candidateEmbeddings)
       (fun similarities => Ok (slice (sort bySimilarity similarities) 0 topK)).

End Embeddings.

(* ================================================================= *)
(** ** The in-memory vector store *)

Module VectorStore.
Import Chunking Embeddings.

(** [VectorChunk.metadata]. The fields that [storeChunks] spreads from its
    optional [metadata] argument are kept apart in [extra]; its callers pass
    keys of their own ([method], [frameCount], [type]), none of them a key
    of the named fields. *)
Record Metadata := {
  videoId : jsstring;
  md_chunkIndex : nat;
  md_timestamp : option float;
  md_endTimestamp : option float;
  md_wordCount : nat;
  framePath : option jsstring;
  thumbnailPath : option jsstring;
  extra : list (jsstring * jsstring);
}.

(** [interface VectorChunk] *)
Record VectorChunk := {
  id : jsstring;
  vc_text : jsstring;
  embedding : list float;
  metadata : Metadata;
}.

(** An element of the [chunks] argument of [storeChunks]. *)
Record ChunkInput := {
  in_chunk : Chunk;
  in_framePath : option jsstring;
  in_thumbnailPath : option jsstring;
}.

(** [const vectorStore = new Map<string, VectorChunk[]>()] *)
Abbreviation Store := (gmap jsstring (list VectorChunk)).

(** The array built by [chunks.map((chunk, index) => ...)]; [embeddings[index]]
    is read from an array as long as [chunks]. *)
Definition buildVectorChunks (vid : jsstring) (chunks : list ChunkInput)
  (embeddings : list (list float)) (md : list (jsstring * jsstring))
  : list VectorChunk :=
  List.map (fun ce : ChunkInput * list float =>
    let chunk := in_chunk ce.1 in
    {| id := vid ++ js "-" ++ ofNat (index chunk);
       vc_text := text chunk;
       embedding := ce.2;
       metadata :=
         {| videoId := vid;
            md_chunkIndex := index chunk;
            md_timestamp := timestamp chunk;
            md_endTimestamp := endTimestamp chunk;
            md_wordCount := wordCount chunk;
            framePath := in_framePath ce.1;
            thumbnailPath := in_thumbnailPath ce.1;
            extra := md |} |})
    (combine chunks embeddings).

(** [storeChunks(videoId, chunks, embeddings, metadata)]: the store after
    the call, or the exception. *)
Definition storeChunks (vectorStore : Store) (vid : jsstring)
  (chunks : list ChunkInput) (embeddings : list (list float))
  (md : list (jsstring * jsstring)) : result Store :=
  if negb (Nat.eqb (List.length chunks) (List.length embeddings)) then
    Throw (ChunkCountMismatch (List.length chunks) (List.length embeddings))
  else
    Ok (<[vid := buildVectorChunks vid chunks embeddings md]> vectorStore).

(** [getChunks(videoId)]: [vectorStore.get(videoId) || []] *)
Definition getChunks (vectorStore : Store) (vid : jsstring) : list VectorChunk :=
  match vectorStore !! vid with
  | Some chunks => chunks
  | None => []
  end.

(** An element of the result of [searchSimilar]:
    [{ ...chunks[match.index], similarity }]. *)
Record Found := {
  found_chunk : VectorChunk;
  found_similarity : float;
}.

(** The callback [(match) => ({ ...chunks[match.index], similarity: match.similarity })];
    [match.index] is a position of [chunks] (lemma [withSimilarity_defined]). *)
Definition withSimilarity (chunks : list VectorChunk) (m : Match) : option Found :=
  match chunks !! m_index m with
  | Some c => Some {| found_chunk := c; found_similarity := similarity m |}
  | None => None
  end.

(** The part of [searchSimilar] that follows [const chunks = getChunks(videoId)]. *)
Definition searchChunks (chunks : list VectorChunk) (queryEmbedding : list float)
  (topK : Z) : result (list Found) :=
  if Nat.eqb (List.length chunks) 0 then Ok []
  else
    let candidateEmbeddings := List.map embedding chunks in
    bind (findSimilarEmbeddings queryEmbedding candidateEmbeddings topK)
         (fun matches => Ok (omap (withSimilarity chunks) matches)).

(** [searchSimilar(videoId, queryEmbedding, topK)] *)
Definition searchSimilar (vectorStore : Store) (vid : jsstring)
  (queryEmbedding : list float) (topK : Z) : result (list Found) :=
  searchChunks (getChunks vectorStore vid) queryEmbedding topK.

(** [hasVideo(videoId)] *)
Definition hasVideo (vectorStore : Store) (vid : jsstring) : bool :=
  match vectorStore !! vid with
  | Some chunks => negb (Nat.eqb (List.length chunks) 0)
  | None => false
  end.

(** [clearStore()] *)
Definition clearStore (vectorStore : Store) : Store := ∅.

End VectorStore.

(* ================================================================= *)
(** ** The search stage of POST /api/ask *)

Module Ask.
Import Chunking Embeddings VectorStore.

(** ASCII upper case: with the [i] flag and no [u] flag a code unit of
    the question matches an ASCII pattern character exactly when both have
    the same ASCII upper case (a code unit above 127 never
    canonicalises to an ASCII one). *)
Definition upper (c : N) : N :=
  if ((97 <=? c) && (c <=? 122))%N then (c - 32)%N else c.

Fixpoint startsWithIgnoreCase (pattern s : jsstring) : bool :=
  match pattern, s with
  | [], _ => true
  | p :: pattern', c :: s' =>
      (upper p =? upper c)%N && startsWithIgnoreCase pattern' s'
  | _ :: _, [] => false
  end.

(** [/^(hi|hello|hey|greetings|what's up|how are you|how's it going)/i.test(question.trim())] *)
Definition isGreeting (question : jsstring) : bool :=
  existsb (fun p => startsWithIgnoreCase (js p) (trim question))
    ["hi"; "hello"; "hey"; "greetings"; "what's up"; "how are you";
     "how's it going"]%string.

(** The threshold literal [0.3], the binary64 value nearest to 3/10. *)
Definition SIMILARITY_THRESHOLD : float := 0x1.3333333333333p-2%float.

(** An element of [similarChunks]. *)
Record SimilarChunk := {
  sc_text : jsstring;
  sc_similarity : float;
  sc_timestamp : option float;
  sc_embedding : list float;
}.

(** The events of step 2 written to the response stream, and the event of
    the [catch] block. *)
Inductive Event :=
| SearchProcessing (message : jsstring)
| SearchComplete (message : jsstring) (chunkCount : nat) (similarities : list float)
| SearchSkipped (message : jsstring) (chunkCount : nat)
| ErrorEvent (e : error).

(** The test [c => c.similarity > 0.3]. *)
Definition aboveThreshold (c : Found) : bool :=
  (SIMILARITY_THRESHOLD <? found_similarity c)%float.

(** The projection
    [c => ({ text: c.text, similarity: c.similarity, timestamp: c.metadata?.timestamp, embedding: c.embedding })]. *)
Definition asContext (c : Found) : SimilarChunk :=
  {| sc_text := vc_text (found_chunk c);
     sc_similarity := found_similarity c;
     sc_timestamp := md_timestamp (metadata (found_chunk c));
     sc_embedding := embedding (found_chunk c) |}.

(** [foundChunks.filter(c => c.similarity > 0.3).map(...)] *)
Definition selectSimilar (foundChunks : list Found) : list SimilarChunk :=
  List.map asContext (List.filter aboveThreshold foundChunks).

(** What step 2 leaves behind: the events it wrote, and, unless an
    exception ended the request, the context handed to the generation step
    and the raw match count. *)
Record SearchStage := {
  events : list Event;
  similarChunks : option (list SimilarChunk);
  totalChunkCount : nat;
}.

Definition completeMessage (similarChunks : list SimilarChunk) : jsstring :=
  if Nat.ltb 0 (List.length similarChunks) then
    js "Found " ++ ofNat (List.length similarChunks) ++ js " relevant segments via MemVid!"
  else js "No specific matches found - responding conversationally".

(** Step 2 of the handler, from the greeting test to the event that ends
    the step. *)
Definition searchStage (vectorStore : Store) (vid question : jsstring)
  (questionEmbedding : list float) : SearchStage :=
  if isGreeting question then
    {| events := [SearchSkipped (js "Greeting detected - responding conversationally") 0];
       similarChunks := Some [];
       totalChunkCount := 0 |}
  else
    let before :=
      [SearchProcessing (js "Scanning MemVid Vector Space...");
       SearchProcessing (js "Calculating Cosine Similarity...")] in
    match searchSimilar vectorStore vid questionEmbedding 3 with
    | Throw e =>
        {| events := before ++ [ErrorEvent e];
           similarChunks := None;
           totalChunkCount := 0 |}
    | Ok foundChunks =>
        let totalChunkCount := List.length foundChunks in
        let similarChunks := selectSimilar foundChunks in
        {| events := before ++
             [SearchComplete (completeMessage similarChunks) totalChunkCount
                (List.map sc_similarity similarChunks)];
           similarChunks := Some similarChunks;
           totalChunkCount := totalChunkCount |}
    end.

End Ask.

(* ================================================================= *)
(** ** A writer and a reader of the store, statement by statement *)

Module Interleaving.
Import Chunking Embeddings VectorStore.

(** JavaScript runs a synchronous call to its end before anything else;
    the model below is finer than that. It lets a call of [storeChunks] and
    a call of [searchSimilar] on one store advance statement by statement in
    any order, and so does not rest on run-to-completion. No function of the
    store changes an array that the map holds ([storeChunks] builds a new
    array and replaces the reference, [clearStore] empties the map), so the
    array that a reader holds is the list it read. *)

(** Where a call [storeChunks(vid, chunks, embeddings, md)] stands. *)
Inductive Writer :=
| WStart
| WBuilt (vectorChunks : list VectorChunk)   (* the local array is built *)
| WDone                                      (* [vectorStore.set] has run *)
| WThrown (e : error).

(** Where a call [searchSimilar(vid, queryEmbedding, topK)] stands. *)
Inductive Reader :=
| RStart
| RHolds (chunks : list VectorChunk)         (* [const chunks = getChunks(vid)] *)
| RDone (r : result (list Found)).

Record Config := {
  c_store : Store;
  c_writer : Writer;
  c_reader : Reader;
}.

Section Calls.
Variables (vid : jsstring) (chunks : list ChunkInput)
  (embeddings : list (list float)) (md : list (jsstring * jsstring))
  (queryEmbedding : list float) (topK : Z).

Inductive step : Config -> Config -> Prop :=
| step_check_throw s r :
    List.length chunks <> List.length embeddings ->
    step {| c_store := s; c_writer := WStart; c_reader := r |}
         {| c_store := s;
            c_writer := WThrown (ChunkCountMismatch (List.length chunks)
                                                   (List.length embeddings));
            c_reader := r |}
| step_build s r :
    List.length chunks = List.length embeddings ->
    step {| c_store := s; c_writer := WStart; c_reader := r |}
         {| c_store := s;
            c_writer := WBuilt (buildVectorChunks vid chunks embeddings md);
            c_reader := r |}
| step_set s vc r :
    step {| c_store := s; c_writer := WBuilt vc; c_reader := r |}
         {| c_store := <[vid := vc]> s; c_writer := WDone; c_reader := r |}
| step_get s w :
    step {| c_store := s; c_writer := w; c_reader := RStart |}
         {| c_store := s; c_writer := w; c_reader := RHolds (getChunks s vid) |}
| step_search s w held :
    step {| c_store := s; c_writer := w; c_reader := RHolds held |}
         {| c_store := s; c_writer := w;
            c_reader := RDone (searchChunks held queryEmbedding topK) |}.

Inductive steps : Config -> Config -> Prop :=
| steps_refl c : steps c c
| steps_more c1 c2 c3 : steps c1 c2 -> step c2 c3 -> steps c1 c3.

(** What holds of every configuration that the two calls reach from the
    store [vectorStore]: the store holds the old collection until the one
    [set], the built array is the new collection, and the reader holds, or
    has searched, one of the two. *)
Variable vectorStore : Store.

Definition consistent (c : Config) : Prop :=
  let old := getChunks vectorStore vid in
  let new := buildVectorChunks vid chunks embeddings md in
  match c_writer c with
  | WStart | WThrown _ => c_store c = vectorStore
  | WBuilt vc => c_store c = vectorStore /\ vc = new
  | WDone => c_store c = <[vid := new]> vectorStore
  end
  /\ match c_reader c with
     | RStart => True
     | RHolds held => held = old \/ held = new
     | RDone r =>
         r = searchChunks old queryEmbedding topK
         \/ r = searchChunks new queryEmbedding topK
     end.

End Calls.

End Interleaving.

(* ================================================================= *)
(** ** The order of binary64 values *)

Module FloatKey.
Local Open Scope Z_scope.

(** The sign test of the sort, on the specification of binary64. *)
Definition sf_pos (F : spec_float) : bool := SFltb (S754_zero false) F.

(** A value that is finite and not zero, or infinite, with sign [s]. *)
Definition signed_nonzero (s : bool) (F : spec_float) : Prop :=
  (exists m e, F = S754_finite s m e) \/ F = S754_infinity s.

(** A monotone key: comparison of non-NaN values is the lexicographic
    comparison of (class and sign, signed exponent, signed mantissa). *)
Definition sf_key (F : spec_float) : Z * Z * Z :=
  match F with
  | S754_zero _ | S754_nan => (0, 0, 0)
  | S754_infinity false => (2, 0, 0)
  | S754_infinity true => (-2, 0, 0)
  | S754_finite false m e => (1, e, Z.pos m)
  | S754_finite true m e => (-1, - e, Z.neg m)
  end.

Definition lex_lt (a b : Z * Z * Z) : Prop :=
  a.1.1 < b.1.1 \/ (a.1.1 = b.1.1 /\ (a.1.2 < b.1.2 \/ (a.1.2 = b.1.2 /\ a.2 < b.2))).

Definition lex_eq (a b : Z * Z * Z) : Prop :=
  a.1.1 = b.1.1 /\ a.1.2 = b.1.2 /\ a.2 = b.2.

Definition fkey (x : float) : Z * Z * Z := sf_key (Prim2SF x).

End FloatKey.

(** The properties that the specification states of the code. *)
Module Spec.
Import Chunking Embeddings VectorStore.

(** A computed norm that is zero: the test [magnitude === 0] of the code. *)
Definition zeroNorm (a : list float) : Prop := (magnitude a =? 0)%float = true.

(** A component that is [+0] or [-0]. *)
Definition isZero (v : float) : Prop := v = 0%float \/ v = (-0)%float.

(** Scores in non-increasing order: every score is at least each later
    one. *)
Definition nonIncreasing (found : list Found) : Prop :=
  StronglySorted
    (fun f g => (found_similarity g <=? found_similarity f)%float = true) found.

(** Two matches with equal scores stand in the order of their chunk
    indices. *)
Definition tiesByChunkIndex (found : list Found) : Prop :=
  forall (i j : nat) (f g : Found),
    (i < j)%nat -> found !! i = Some f -> found !! j = Some g ->
    (found_similarity f =? found_similarity g)%float = true ->
    (md_chunkIndex (metadata (found_chunk f))
     < md_chunkIndex (metadata (found_chunk g)))%nat.

(** Two matches with equal scores stand in the order in which their
    records are stored: [positions] gives, for each match, the place of
    its record in the stored array. *)
Definition tiesInStoredOrder (chunks : list VectorChunk) (found : list Found)
  : Prop :=
  exists positions : list nat,
    Forall2 (fun f p => chunks !! p = Some (found_chunk f)) found positions
    /\ forall (i j p q : nat) (f g : Found),
         (i < j)%nat -> found !! i = Some f -> found !! j = Some g ->
         positions !! i = Some p -> positions !! j = Some q ->
         (found_similarity f =? found_similarity g)%float = true ->
         (p < q)%nat.

(** The order that the sort establishes on the array of matches: higher
    score first, and among equal scores the lower array position first. *)
Definition precedes (a b : Match) : Prop :=
  (similarity b <? similarity a)%float = true
  \/ ((similarity a =? similarity b)%float = true /\ (m_index a < m_index b)%nat).

Definition scoreNotNaN (m : Match) : Prop := is_nan (similarity m) = false.

(** A collection stored in the order of its chunk indices. *)
Definition storedInIndexOrder (chunks : list VectorChunk) : Prop :=
  forall (p q : nat) (c d : VectorChunk),
    (p < q)%nat -> chunks !! p = Some c -> chunks !! q = Some d ->
    (md_chunkIndex (metadata c) < md_chunkIndex (metadata d))%nat.

(** No score that the search computes on the collection is [NaN]. *)
Definition scoresNotNaN (chunks : list VectorChunk) (queryEmbedding : list float)
  : Prop :=
  forall (c : VectorChunk) (s : float),
    In c chunks -> cosineSimilarity queryEmbedding (embedding c) = Ok s ->
    is_nan s = false.

(** All stored embeddings have the length of the query. *)
Definition sameDimension (chunks : list VectorChunk) (queryEmbedding : list float)
  : Prop :=
  Forall (fun c => List.length (embedding c) = List.length queryEmbedding) chunks.

(** Indices [0 .. N-1] in output order. *)
Definition contiguousIndices (chunks : list Chunk) : Prop :=
  List.map index chunks = seq 0 (List.length chunks).

(** The loop of [chunkText] keeps the next index equal to the number of
    chunks pushed, and the indices pushed so far contiguous. *)
Definition indexed (st : TextState) : Prop :=
  chunkIndex st = List.length (chunks st) /\ contiguousIndices (chunks st).

End Spec.

(* ================================================================= *)
(** ** Concrete inputs *)

Module Examples.
Import Chunking Embeddings VectorStore Ask.

Definition seg (s : string) (offset duration : float) : Segment :=
  {| seg_text := js s; offset := offset; duration := Some duration |}.

(** A chunk with index [i], as [storeChunks] receives it. *)
Definition chunkAt (i : nat) (s : string) : ChunkInput :=
  {| in_chunk := {| text := js s; index := i; startOffset := 0; endOffset := 0;
                    wordCount := 1; timestamp := None; endTimestamp := None |};
     in_framePath := None; in_thumbnailPath := None |}.

(** The store after a call of [storeChunks] on the empty store. *)
Definition stored (vid : string) (chunks : list ChunkInput)
  (embeddings : list (list float)) : Store :=
  match storeChunks ∅ (js vid) chunks embeddings [] with
  | Ok s => s
  | Throw _ => ∅
  end.

(** The scenario of the specification: three chunks with 2-D embeddings. *)
Definition toyStore : Store :=
  stored "toy" [chunkAt 0 "zero"; chunkAt 1 "one"; chunkAt 2 "two"]
         [[1; 0]; [0; 1]; [0.707; 0.707]]%float.

(** What the search for [[1; 0]] finds there with [topK = 3]. *)
Definition toyFound : list Found :=
  match searchSimilar toyStore (js "toy") [1; 0]%float 3 with
  | Ok found => found
  | Throw _ => []
  end.

(** Two records with one embedding, stored with the higher chunk index
    first. *)
Definition tieStore : Store :=
  stored "tie" [chunkAt 1 "second"; chunkAt 0 "first"] [[1]; [1]]%float.

(** [2 ** 600], a finite number whose square overflows. *)
Definition huge : float := 0x1p+600%float.

Definition hugeStore : Store :=
  stored "huge" [chunkAt 0 "zero"; chunkAt 1 "one"] [[huge]; [1]]%float.

(** Embeddings of two lengths in one call. *)
Definition mixedChunks : list ChunkInput := [chunkAt 0 "zero"; chunkAt 1 "one"].
Definition mixedEmbeddings : list (list float) := [[1]; [1; 2]]%float.

(** A record at cosine similarity [3 / 10] from the query [[1; 0; 0; 0]]:
    its embedding has norm 10 and first component 3. *)
Definition thresholdStore : Store :=
  stored "edge" [chunkAt 0 "zero"] [[3; 9; 3; 1]]%float.

(** The first scenario of the specification. *)
Definition helloTranscript : list Segment :=
  [seg "Hello world." 0 1000; seg "This is a test." 1000 1000]%float.

(** Ten segments of ten characters. *)
Definition tenSegments : list Segment :=
  List.map (fun i => seg "0123456789" 0 1000)%float (seq 0 10).

End Examples.

(* ================================================================= *)
(** ** Further properties of the chunker *)

Module ChunkingSpec.
Import Chunking.

(** The array [sentences] of [chunkText]. *)
Definition sentencesOf (text : jsstring) : list jsstring :=
  match matchSentences text with [] => [text] | ms => ms end.

(** A string with a code unit that is not white space. *)
Definition nonBlank (s : jsstring) : Prop := Exists (fun c => isSpace c = false) s.

(** A string of white space only (the empty string is one). *)
Definition blank (s : jsstring) : Prop := Forall (fun c => isSpace c = true) s.

(** The words of a group of sentences, counted as the loop counts them. *)
Definition sumWords (group : list jsstring) : nat :=
  list_sum (List.map (fun s => List.length (words s)) group).

(** A chunk made of the group [g] of trimmed sentences under the target
    [targetWords]: its text is the sentences joined by single spaces, its
    word count is the sum of theirs, and it stays within the target unless
    it is one sentence alone. *)
Definition packs (targetWords : Z) (c : Chunk) (g : list jsstring) : Prop :=
  g <> []
  /\ text c = join (js " ") g
  /\ wordCount c = sumWords g
  /\ ((Z.of_nat (wordCount c) <= targetWords)%Z \/ exists s, g = [s]).

(** What the loop of [chunkText] keeps, [done] being the trimmed sentences
    read so far: the chunks pushed and the chunk being filled hold them all,
    in order. *)
Definition packed (targetWords : Z) (done : list jsstring) (st : TextState)
  : Prop :=
  exists groups : list (list jsstring),
    Forall2 (packs targetWords) (chunks st) groups
    /\ concat groups ++ currentChunk st = done
    /\ currentWordCount st = sumWords (currentChunk st)
    /\ (currentChunk st = [] \/ (Z.of_nat (currentWordCount st) <= targetWords)%Z).

(** A chunk that has a word and a text. *)
Definition hasWords (c : Chunk) : Prop :=
  (1 <= wordCount c)%nat /\ text c <> [].


(** Simple mode: overlap disabled, or fewer than ten items. *)
Definition simpleMode (transcript : list Segment) (overlapSegments : Z) : Prop :=
  (overlapSegments <= 0)%Z \/ (List.length transcript < 10)%nat.

(** Character spans that follow one another: the first starts at 0, and
    each next one starts one position behind the end of the one before. *)
Fixpoint spansFrom (start : nat) (chunks : list Chunk) : Prop :=
  match chunks with
  | [] => True
  | c :: rest =>
      startOffset c = start /\ (start <= endOffset c)%nat
      /\ spansFrom (S (endOffset c)) rest
  end.

(** The start of the span behind [chunks]. *)
Fixpoint spanEnd (start : nat) (chunks : list Chunk) : nat :=
  match chunks with
  | [] => start
  | c :: rest => spanEnd (S (endOffset c)) rest
  end.

(** The state of [chunkText] keeps the spans in a chain that ends at its
    [startOffset] variable. *)
Definition chained (st : TextState) : Prop :=
  spansFrom 0 (chunks st) /\ spanEnd 0 (chunks st) = startOffsetVar st.

(** Windowed mode: overlap enabled on at least ten items. *)
Definition windowedMode (transcript : list Segment) (overlapSegments : Z) : Prop :=
  (0 < overlapSegments)%Z /\ (10 <= List.length transcript)%nat.

(** The chunk [c] is the window of items that starts at position [i]: its
    text is the trimmed texts of up to five items from [i] on, it starts
    with the first of them and ends with the last, and it carries no
    character offsets. *)
Definition windowAt (transcript : list Segment) (i : Z) (c : Chunk) : Prop :=
  exists (first : Segment) (rest : list Segment),
    slice transcript i (i + SEGMENTS_PER_CHUNK) = first :: rest
    /\ text c = trim (join (js " ") (List.map seg_text (first :: rest)))
    /\ (10 <= List.length (text c))%nat
    /\ wordCount c = List.length (words (text c))
    /\ timestamp c = Some (offset first / 1000)%float
    /\ endTimestamp c
       = Some ((offset (List.last (first :: rest) first)
                + orZero (duration (List.last (first :: rest) first))) / 1000)%float
    /\ startOffset c = 0%nat /\ endOffset c = 0%nat.

(** A position that the window loop visits: a multiple of the stride
    inside the transcript. *)
Definition windowStart (transcript : list Segment) (overlapSegments : Z) (i : Z)
  : Prop :=
  (0 <= i < Z.of_nat (List.length transcript))%Z
  /\ exists k : Z, i = (k * (SEGMENTS_PER_CHUNK - overlapSegments))%Z.

End ChunkingSpec.

From Stdlib Require DecimalNat DecimalFacts.

(* ================================================================= *)
(** ** Further properties of the search *)

Module SearchSpec.
Import Embeddings VectorStore.

(** The match [f] is the record stored at position [p], with the score
    that [cosineSimilarity] gives the query and the record's embedding. *)
Definition scoredAt (chunks : list VectorChunk) (queryEmbedding : list float)
  (f : Found) (p : nat) : Prop :=
  chunks !! p = Some (found_chunk f)
  /\ cosineSimilarity queryEmbedding (embedding (found_chunk f))
     = Ok (found_similarity f).

(** The stored record behind a chunk of the context that the search stage
    of the ask route hands on. *)
Definition fromStore (chunks : list VectorChunk) (q : list float)
  (c : Ask.SimilarChunk) : Prop :=
  exists r : VectorChunk,
    r ∈ chunks
    /\ Ask.sc_text c = vc_text r
    /\ Ask.sc_timestamp c = md_timestamp (metadata r)
    /\ Ask.sc_embedding c = embedding r
    /\ cosineSimilarity q (embedding r) = Ok (Ask.sc_similarity c).

End SearchSpec.

(* ================================================================= *)
(** ** src/lib/embeddings.ts: generateEmbeddings, and the route
       POST /api/process-transcript that calls it *)

Module Process.
Import Chunking Embeddings VectorStore.

Section Embedder.

(** [generateEmbedding(text)]: the call of the embedding model, which is
    outside the program. [None] stands for a call that throws. *)
Variable generateEmbedding : jsstring -> option (list float).

(** The loop of [generateEmbeddings] from index [i] on: the calls
    [onProgress(i + 1, texts.length)] that it makes, and the embeddings
    that it pushes, unless a call of the model throws. *)
Fixpoint embedFrom (total i : nat) (texts : list jsstring)
  : list (nat * nat) * option (list (list float)) :=
  match texts with
  | [] => ([], Some [])
  | t :: rest =>
      match generateEmbedding t with
      | None => ([], None)
      | Some embedding =>
          let r := embedFrom total (S i) rest in
          ((S i, total) :: r.1, option_map (cons embedding) r.2)
      end
  end.

(** [generateEmbeddings(texts, onProgress)] *)
Definition generateEmbeddings (texts : list jsstring)
  : list (nat * nat) * option (list (list float)) :=
  embedFrom (List.length texts) 0 texts.

(** How a run of the route ends. *)
Inductive Outcome :=
| AlreadyProcessed                 (* [hasVideo(personaId)]: the cached path *)
| Processed (chunkCount : nat)     (* step 6 complete *)
| Failed.                          (* the [catch] block *)

(** A run of the route: the store after it, the progress events of step 5
    that it wrote, each with [embeddingCount] and [chunkCount], and its
    outcome. *)
Record Run := {
  storeAfter : Store;
  progressEvents : list (nat * nat);
  outcome : Outcome;
}.

(** The test [current % 5 === 0 || current === total] of the progress
    callback. *)
Definition reportsProgress (call : nat * nat) : bool :=
  Nat.eqb (call.1 mod 5) 0 || Nat.eqb call.1 call.2.

(** A chunk of the chunker as [storeChunks] receives it from this route:
    without frame paths. *)
Definition asInput (c : Chunk) : ChunkInput :=
  {| in_chunk := c; in_framePath := None; in_thumbnailPath := None |}.

(** [{ type: 'persona', method: 'transcript' }] *)
Definition personaMetadata : list (jsstring * jsstring) :=
  [(js "type", js "persona"); (js "method", js "transcript")].

(** The route from the parsed segments on: the test of step 1, and steps
    4 to 6. [None] says that the window loop of [chunkTranscript] was still
    running when the fuel ran out. *)
Definition processSegments (fuel : nat) (vectorStore : Store)
  (personaId : jsstring) (transcriptSegments : list Segment) : option Run :=
  if hasVideo vectorStore personaId then
    Some {| storeAfter := vectorStore; progressEvents := [];
            outcome := AlreadyProcessed |}
  else
    match chunkTranscript fuel transcriptSegments 500 1 with
    | None => None
    | Some chunks =>
        let texts := List.map text chunks in
        let r := generateEmbeddings texts in
        let written := List.filter reportsProgress r.1 in
        match r.2 with
        | None =>
            Some {| storeAfter := vectorStore; progressEvents := written;
                    outcome := Failed |}
        | Some embeddings =>
            match storeChunks vectorStore personaId (List.map asInput chunks)
                              embeddings personaMetadata with
            | Ok vectorStore' =>
                Some {| storeAfter := vectorStore'; progressEvents := written;
                        outcome := Processed (List.length chunks) |}
            | Throw _ =>
                Some {| storeAfter := vectorStore; progressEvents := written;
                        outcome := Failed |}
            end
        end
    end.

End Embedder.

(** The calls of [onProgress] of a loop over [n] texts from index [i] on. *)
Definition progressCalls (total i n : nat) : list (nat * nat) :=
  List.map (fun k => (S k, total)) (seq i n).

(** A model that embeds every text but the empty one, for the examples. *)
Definition toyEmbedding (t : jsstring) : option (list float) :=
  match t with
  | [] => None
  | _ => Some [1; 0]%float
  end.

End Process.

(* ================================================================= *)
(** ** src/lib/keywordExtraction.ts *)

Module KeywordExtraction.

(** [Array.prototype.sort(comparefn)] as in [Embeddings.sort], for a
    comparator given by its test [comparefn(x, y) > 0]. *)
Fixpoint sortInsertWith {A} (behind : A -> A -> bool) (x : A) (sorted : list A)
  : list A :=
  match sorted with
  | [] => [x]
  | y :: rest =>
      if behind x y then y :: sortInsertWith behind x rest else x :: sorted
  end.

Definition sortWith {A} (behind : A -> A -> bool) (l : list A) : list A :=
  fold_right (sortInsertWith behind) [] l.

(** The class [\w]: [[A-Za-z0-9_]]. *)
Definition isWordChar (c : N) : bool :=
  ((48 <=? c) && (c <=? 57) || (65 <=? c) && (c <=? 90) || (c =? 95)
   || (97 <=? c) && (c <=? 122))%N.

(** [s.replace(/[^\w\s]/g, ' ')] *)
Definition replacePunctuation (s : jsstring) : jsstring :=
  List.map (fun c => if isWordChar c || isSpace c then c else 32%N) s.

Definition stopWords : list jsstring :=
  List.map js
    ["the"; "a"; "an"; "and"; "or"; "but"; "in"; "on"; "at"; "to"; "for";
     "of"; "with"; "by"; "from"; "as"; "is"; "was"; "are"; "were"; "be";
     "been"; "being"; "have"; "has"; "had"; "do"; "does"; "did"; "will";
     "would"; "could"; "should"; "may"; "might"; "must"; "can"; "this";
     "that"; "these"; "those"; "what"; "which"; "who"; "whom"; "whose";
     "where"; "when"; "why"; "how"; "about"; "into"; "onto"; "upon"]%string.

(** [stopWords.has(word)] *)
Definition isStopWord (word : jsstring) : bool :=
  existsb (fun s => bool_decide (s = word)) stopWords.

(** [Array.from(new Set(words))]: the first occurrence of each word, in
    the order of the first occurrences. *)
Fixpoint dedupe (words : list jsstring) : list jsstring :=
  match words with
  | [] => []
  | w :: rest =>
      w :: List.filter (fun v => negb (bool_decide (v = w))) (dedupe rest)
  end.

(** The 2-word phrases of the loop
    [for (let i = 0; i < keywords.length - 1; i++)]. *)
Fixpoint adjacentPairs (keywords : list jsstring) : list jsstring :=
  match keywords with
  | a :: (b :: _) as rest => (a ++ js " " ++ b) :: adjacentPairs rest
  | _ => []
  end.

Section LowerCase.

(** [String.prototype.toLowerCase], the case mapping of Unicode; the
    properties below hold whatever it returns. *)
Variable toLowerCase : jsstring -> jsstring.

(** [extractKeywords(question)] *)
Definition extractKeywords (question : jsstring) : list jsstring :=
  let words :=
    List.filter (fun word => negb (isStopWord word))
      (List.filter (fun word => Nat.ltb 2 (List.length word))
         (splitSpaces (replacePunctuation (toLowerCase question)))) in
  dedupe words.

(** [extractPhrases(question)] *)
Definition extractPhrases (question : jsstring) : list jsstring :=
  let keywords := extractKeywords question in
  slice (adjacentPairs keywords) 0 5.

(** [getImportantTerms(question)]; the comparator
    [(a, b) => b.length - a.length] is positive when [b] is longer. *)
Definition getImportantTerms (question : jsstring) : list jsstring :=
  let keywords := extractKeywords question in
  let phrases := extractPhrases question in
  let allTerms := phrases ++ keywords in
  slice (sortWith (fun a b => (0 <? Z.of_nat (List.length b) - Z.of_nat (List.length a))%Z)
                  allTerms)
        0 8.

End LowerCase.

(** Lower case of the ASCII letters, which is [toLowerCase] on ASCII
    text; for the examples. *)
Definition asciiLower (s : jsstring) : jsstring :=
  List.map (fun c => if ((65 <=? c) && (c <=? 90))%N then (c + 32)%N else c) s.

(** A keyword as [extractKeywords] lets it through. *)
Definition isKeyword (w : jsstring) : Prop :=
  (3 <= List.length w)%nat /\ isStopWord w = false
  /\ Forall (fun c => isWordChar c = true) w.

End KeywordExtraction.

(* ================================================================= *)
(** ** src/lib/groq.ts: the messages of generateAnswer *)

Module Groq.

Inductive Role := System | User | Assistant.

Record Message := {
  role : Role;
  content : jsstring;
}.

(** The messages that [generateAnswer] sends, built from the system
    prompt that it has put together, the conversation history and the
    question. *)
Definition buildMessages (systemPrompt : jsstring)
  (conversationHistory : list Message) (question : jsstring) : list Message :=
  let messages := [{| role := System; content := systemPrompt |}] in
  let recentHistory :=
    slice conversationHistory (-5) (Z.of_nat (List.length conversationHistory)) in
  let messages :=
    messages ++ List.map (fun msg => {| role := role msg; content := content msg |})
                         recentHistory in
  messages ++ [{| role := User; content := question |}].

End Groq.

(* ================================================================= *)
(** ** src/lib/youtube.ts: extractVideoId *)

Module YouTube.
Import KeywordExtraction.

(** A literal of a pattern at the head of [s]: what follows it. *)
Fixpoint stripPrefix (literal s : jsstring) : option jsstring :=
  match literal, s with
  | [], _ => Some s
  | p :: literal', c :: s' =>
      if (p =? c)%N then stripPrefix literal' s' else None
  | _ :: _, [] => None
  end.

(** The class [[^&\n?#]]. *)
Definition isIdChar (c : N) : bool :=
  negb ((c =? 38) || (c =? 10) || (c =? 63) || (c =? 35))%N.

Fixpoint takeWhile (p : N -> bool) (s : jsstring) : jsstring :=
  match s with
  | c :: s' => if p c then c :: takeWhile p s' else []
  | [] => []
  end.

(** The alternation [youtube\.com\/watch\?v=|youtu\.be\/|youtube\.com\/embed\/]. *)
Definition urlPrefixes : list jsstring :=
  [js "youtube.com/watch?v="; js "youtu.be/"; js "youtube.com/embed/"].

(** A match of the first pattern that starts at the head of [s]: the
    first alternative that is followed by at least one code unit of the
    class; the group [([^&\n?#]+)] is greedy and the pattern ends with
    it, so it is the longest run. *)
Fixpoint matchPrefixes (prefixes : list jsstring) (s : jsstring)
  : option jsstring :=
  match prefixes with
  | [] => None
  | literal :: rest =>
      match stripPrefix literal s with
      | Some tail =>
          match takeWhile isIdChar tail with
          | [] => matchPrefixes rest s
          | group => Some group
          end
      | None => matchPrefixes rest s
      end
  end.

(** [url.match(/(?:...)([^&\n?#]+)/)]: the match that starts leftmost;
    its group 1. *)
Fixpoint matchUrl (s : jsstring) : option jsstring :=
  match matchPrefixes urlPrefixes s with
  | Some group => Some group
  | None =>
      match s with
      | [] => None
      | _ :: s' => matchUrl s'
      end
  end.

(** The class [[a-zA-Z0-9_-]]. *)
Definition isBareIdChar (c : N) : bool := isWordChar c || (c =? 45)%N.

(** [url.match(/^([a-zA-Z0-9_-]{11})$/)] *)
Definition matchBareId (s : jsstring) : option jsstring :=
  if Nat.eqb (List.length s) 11 && forallb isBareIdChar s then Some s else None.

(** [extractVideoId(url)], [None] for [null]. *)
Definition extractVideoId (url : jsstring) : option jsstring :=
  match matchUrl url with
  | Some group => Some group
  | None => matchBareId url
  end.

(** [isValidYouTubeUrl(url)] *)
Definition isValidYouTubeUrl (url : jsstring) : bool :=
  match extractVideoId url with Some _ => true | None => false end.

(** The three URL forms that the function documents. *)
Definition watchUrl : jsstring := js "https://www.youtube.com/watch?v=".
Definition shortUrl : jsstring := js "https://youtu.be/".
Definition embedUrl : jsstring := js "https://www.youtube.com/embed/".

(** What may follow an id in a URL: nothing, or a code unit that ends
    the group. *)
Definition endsId (rest : jsstring) : Prop :=
  match rest with
  | [] => True
  | c :: _ => isIdChar c = false
  end.

End YouTube.

(* ================================================================= *)
(** ** The token estimates of POST /api/ask *)

Module AskTokens.

(** [Math.ceil(length / 4)] for the length of a string. *)
Definition estimateTokens (length : nat) : nat := (length + 3) / 4.

(** The loop [for await (const chunk of answerStream)]: the answer text
    and the output token count after it. *)
Definition streamed (answerStream : list jsstring) : jsstring * nat :=
  fold_left (fun (st : jsstring * nat) chunk =>
               (st.1 ++ chunk, (st.2 + estimateTokens (List.length chunk))%nat))
            answerStream ([], 0%nat).

(** The branch [typeof answerStream === 'string']. *)
Definition whole (answerStream : jsstring) : jsstring * nat :=
  (answerStream, estimateTokens (List.length answerStream)).

End AskTokens.


(* ================================================================= *)
(** * Proofs *)

(** ** Rounding keeps the sign of a difference

    The comparator of the sort subtracts two scores and the sort looks at
    the sign of the result. On the specification of binary64 arithmetic
    ([SpecFloat]) the rounded difference of two values that are not [NaN] is
    positive exactly when the exact difference is: rounding shifts out fewer
    bits than the mantissa has, so what is not zero stays not zero. *)

Section Rounding.
Import FloatKey.
Local Open Scope Z_scope.

Local Abbreviation emin64 := (SpecFloat.emin prec emax).
Local Abbreviation fexp64 := (SpecFloat.fexp prec emax).

(** A positive number of [d] binary digits lies in [[2^(d-1), 2^d)]. *)
Lemma digits2_pos_bounds (p : positive) :
  2 ^ (Z.pos (digits2_pos p) - 1) <= Z.pos p < 2 ^ Z.pos (digits2_pos p).
Proof.
  induction p as [p IH|p IH|]; cbn [digits2_pos].
  - rewrite Pos2Z.inj_succ.
    replace (Z.succ (Z.pos (digits2_pos p)) - 1) with (Z.succ (Z.pos (digits2_pos p) - 1)) by lia.
    rewrite !Z.pow_succ_r by lia. lia.
  - rewrite Pos2Z.inj_succ.
    replace (Z.succ (Z.pos (digits2_pos p)) - 1) with (Z.succ (Z.pos (digits2_pos p) - 1)) by lia.
    rewrite !Z.pow_succ_r by lia. lia.
  - cbn. lia.
Qed.

Lemma shr_m_shr_1 (mrs : shr_record) :
  0 <= shr_m mrs -> shr_m (shr_1 mrs) = Z.div2 (shr_m mrs).
Proof.
  destruct mrs as [m r s]; cbn [shr_m].
  destruct m as [|p|p]; [reflexivity| |lia].
  intros _. destruct p; reflexivity.
Qed.

(** [n] right shifts of a shift record divide its mantissa by [2^n]. *)
Lemma shr_m_iter_pos (n : positive) : forall mrs : shr_record,
  0 <= shr_m mrs ->
  shr_m (SpecFloat.iter_pos shr_1 n mrs) = Z.shiftr (shr_m mrs) (Z.pos n).
Proof.
  assert (Hone : forall mrs, 0 <= shr_m mrs ->
            shr_m (shr_1 mrs) = Z.shiftr (shr_m mrs) 1 /\ 0 <= shr_m (shr_1 mrs)).
  { intros mrs H. rewrite shr_m_shr_1 by exact H. rewrite Z.div2_spec. split; [reflexivity|].
    apply Z.shiftr_nonneg. exact H. }
  induction n as [n IH|n IH|]; intros mrs H; cbn [SpecFloat.iter_pos].
  - destruct (Hone mrs H) as [E1 P1].
    rewrite IH. 2:{ rewrite IH by exact P1. apply Z.shiftr_nonneg. exact P1. }
    rewrite IH by exact P1. rewrite E1.
    rewrite !Z.shiftr_shiftr by lia. f_equal. lia.
  - rewrite IH. 2:{ rewrite IH by exact H. apply Z.shiftr_nonneg. exact H. }
    rewrite IH by exact H.
    rewrite !Z.shiftr_shiftr by lia. f_equal. lia.
  - apply Hone. exact H.
Qed.

Lemma shr_m_of_loc (m : Z) (l : location) : shr_m (shr_record_of_loc m l) = m.
Proof. destruct l as [|[]]; reflexivity. Qed.

(** Shifting out fewer bits than the mantissa has leaves it positive. *)
Lemma shr_keeps_pos (p : positive) (l : location) (e n : Z) :
  n < Z.pos (digits2_pos p) ->
  exists q, shr_m (fst (shr (shr_record_of_loc (Z.pos p) l) e n)) = Z.pos q.
Proof.
  intros Hn. destruct n as [|k|k]; cbn [shr fst].
  - exists p. apply shr_m_of_loc.
  - rewrite shr_m_iter_pos by (rewrite shr_m_of_loc; lia).
    rewrite shr_m_of_loc.
    assert (0 < Z.shiftr (Z.pos p) (Z.pos k)).
    { rewrite Z.shiftr_div_pow2 by lia.
      apply Z.div_str_pos. split; [lia|].
      pose proof (digits2_pos_bounds p) as [Hlo _].
      assert (2 ^ Z.pos k <= 2 ^ (Z.pos (digits2_pos p) - 1)).
      { apply Z.pow_le_mono_r; lia. }
      lia. }
    destruct (Z.shiftr (Z.pos p) (Z.pos k)) as [|q|q]; [lia|exists q; reflexivity|lia].
  - exists p. apply shr_m_of_loc.
Qed.

Lemma shr_exponent (mrs : shr_record) (e n : Z) : e <= snd (shr mrs e n).
Proof. destruct n; cbn; lia. Qed.

Lemma fexp64_ge_emin (z : Z) : emin64 <= fexp64 z.
Proof. unfold SpecFloat.fexp. lia. Qed.

Lemma shr_fexp_keeps_pos (p : positive) (e : Z) (l : location) :
  emin64 <= e ->
  exists q, shr_m (fst (shr_fexp prec emax (Z.pos p) e l)) = Z.pos q
            /\ emin64 <= snd (shr_fexp prec emax (Z.pos p) e l).
Proof.
  intros He. unfold shr_fexp.
  destruct (shr_keeps_pos p l e
              (fexp64 (Zdigits2 (Z.pos p) + e) - e)) as [q Hq].
  { cbn [Zdigits2]. unfold SpecFloat.fexp, SpecFloat.emin, prec, emax in *. lia. }
  exists q. split; [exact Hq|].
  etransitivity; [exact He|apply shr_exponent].
Qed.

Lemma round_nearest_even_pos (p : positive) (l : location) :
  exists q, round_nearest_even (Z.pos p) l = Z.pos q.
Proof.
  destruct l as [|[]]; cbn [round_nearest_even];
    try destruct (Z.even (Z.pos p)); eauto.
Qed.


(** Rounding a positive mantissa at an exponent of at least [emin] gives a
    value that is not zero and has the sign asked for. *)
Lemma binary_round_aux_nonzero (s : bool) (p : positive) (e : Z) (l : location) :
  emin64 <= e -> signed_nonzero s (binary_round_aux prec emax s (Z.pos p) e l).
Proof.
  intros He. unfold binary_round_aux.
  destruct (shr_fexp_keeps_pos p e l He) as (q & Hq & He').
  destruct (shr_fexp prec emax (Z.pos p) e l) as [mrs' e'] eqn:E1.
  cbn [fst snd] in Hq, He'. rewrite Hq.
  destruct (round_nearest_even_pos q (loc_of_shr_record mrs')) as [q' ->].
  destruct (shr_fexp_keeps_pos q' e' loc_Exact He') as (q'' & Hq'' & _).
  destruct (shr_fexp prec emax (Z.pos q') e' loc_Exact) as [mrs'' e''] eqn:E2.
  cbn [fst] in Hq''. rewrite Hq''.
  destruct (e'' <=? emax - prec)%Z; [left; eauto|right; reflexivity].
Qed.

Lemma binary_round_nonzero (s : bool) (p : positive) (e : Z) :
  emin64 <= e -> signed_nonzero s (binary_round prec emax s p e).
Proof.
  intros He. unfold binary_round.
  destruct (shl_align p e (fexp64 (Z.pos (digits2_pos p) + e))) as [mz ez] eqn:E.
  apply binary_round_aux_nonzero.
  unfold shl_align in E.
  destruct (fexp64 (Z.pos (digits2_pos p) + e) - e) eqn:D; inversion E; subst;
    try exact He. apply fexp64_ge_emin.
Qed.



Lemma sf_pos_signed_nonzero (s : bool) (F : spec_float) :
  signed_nonzero s F -> sf_pos F = negb s.
Proof. intros [(m & e & ->)| ->]; destruct s; reflexivity. Qed.

(** The normalized value of [d * 2^e] is positive exactly when [d] is. *)
Lemma binary_normalize_pos (d e : Z) :
  emin64 <= e -> sf_pos (binary_normalize prec emax d e false) = (0 <? d).
Proof.
  intros He. destruct d as [|p|p]; cbn [binary_normalize].
  - reflexivity.
  - rewrite (sf_pos_signed_nonzero false) by (apply binary_round_nonzero; exact He).
    reflexivity.
  - rewrite (sf_pos_signed_nonzero true) by (apply binary_round_nonzero; exact He).
    reflexivity.
Qed.

Lemma shl_align_value (m : positive) (e ez : Z) :
  ez <= e -> Z.pos (fst (shl_align m e ez)) = Z.pos m * 2 ^ (e - ez).
Proof.
  intros H. unfold shl_align.
  destruct (ez - e) as [|d|d] eqn:D; cbn [fst].
  - replace (e - ez) with 0 by lia. lia.
  - lia.
  - replace (e - ez) with (Z.pos d) by lia.
    change (Pos.iter xO m d) with (shift_pos d m).
    rewrite shift_pos_correct. change (Zpower_pos 2 d) with (2 ^ Z.pos d). lia.
Qed.

(** A valid finite value has an exponent of at least [emin] and at most
    [prec] digits, exactly [prec] above [emin]. *)
Lemma bounded_canonical (m : positive) (e : Z) :
  bounded prec emax m e = true ->
  emin64 <= e /\ Z.pos (digits2_pos m) <= prec
  /\ (emin64 < e -> Z.pos (digits2_pos m) = prec).
Proof.
  unfold bounded, canonical_mantissa, SpecFloat.fexp.
  intros H. apply andb_prop in H as [H _]. apply Z.eqb_eq in H.
  unfold SpecFloat.emin, prec, emax in *. lia.
Qed.

(** Of two valid finite values the one with the lower exponent has the
    lower magnitude. *)
Lemma aligned_lt (mx my : positive) (ex ey : Z) :
  bounded prec emax mx ex = true -> bounded prec emax my ey = true ->
  ex < ey -> Z.pos mx < Z.pos my * 2 ^ (ey - ex).
Proof.
  intros Bx By Hlt.
  destruct (bounded_canonical _ _ Bx) as (Ex & Dx & _).
  destruct (bounded_canonical _ _ By) as (_ & _ & Dy).
  specialize (Dy ltac:(lia)).
  pose proof (digits2_pos_bounds mx) as [_ Ux].
  pose proof (digits2_pos_bounds my) as [Ly _].
  rewrite Dy in Ly.
  assert (Z.pos mx < 2 ^ prec).
  { eapply Z.lt_le_trans; [exact Ux|]. apply Z.pow_le_mono_r; lia. }
  assert (2 ^ 1 <= 2 ^ (ey - ex)) by (apply Z.pow_le_mono_r; lia).
  assert (2 ^ prec = 2 ^ (prec - 1) * 2 ^ 1).
  { reflexivity. }
  nia.
Qed.


Lemma SFsub_finite_pos (sx sy : bool) (mx my : positive) (ex ey : Z) :
  bounded prec emax mx ex = true -> bounded prec emax my ey = true ->
  sf_pos (SF64sub (S754_finite sy my ey) (S754_finite sx mx ex))
  = SFltb (S754_finite sx mx ex) (S754_finite sy my ey).
Proof.
  intros Bx By.
  destruct (bounded_canonical _ _ Bx) as (Ex & _ & _).
  destruct (bounded_canonical _ _ By) as (Ey & _ & _).
  unfold SF64sub, SFsub.
  rewrite binary_normalize_pos by lia.
  rewrite !shl_align_value by lia.
  unfold SFltb, SFcompare.
  destruct (Z.compare_spec ex ey) as [Heq|Hlt|Hgt].
  - subst ey. rewrite Z.min_id, Z.sub_diag, !Z.mul_1_r.
    change (Pos.compare_cont Eq mx my) with (Pos.compare mx my).
    destruct (Pos.compare_spec mx my); destruct sx, sy; cbn [cond_Zopp CompOpp];
      try (subst; rewrite Z.sub_diag; reflexivity);
      match goal with |- (0 <? ?d) = true => apply Z.ltb_lt; lia
                    | |- (0 <? ?d) = false => apply Z.ltb_ge; lia end.
  - pose proof (aligned_lt _ _ _ _ Bx By Hlt).
    rewrite Z.min_r by lia.
    replace (ex - ex) with 0 by lia. rewrite Z.mul_1_r.
    destruct sx, sy; cbn [cond_Zopp];
      match goal with |- (0 <? ?d) = true => apply Z.ltb_lt; lia
                    | |- (0 <? ?d) = false => apply Z.ltb_ge; lia end.
  - pose proof (aligned_lt _ _ _ _ By Bx Hgt).
    rewrite Z.min_l by lia.
    replace (ey - ey) with 0 by lia. rewrite Z.mul_1_r.
    destruct sx, sy; cbn [cond_Zopp];
      match goal with |- (0 <? ?d) = true => apply Z.ltb_lt; lia
                    | |- (0 <? ?d) = false => apply Z.ltb_ge; lia end.
Qed.

(** [Y - X] is positive exactly when [X < Y]. *)
Lemma SFsub_pos (X Y : spec_float) :
  valid_binary X = true -> valid_binary Y = true ->
  X <> S754_nan -> Y <> S754_nan ->
  sf_pos (SF64sub Y X) = SFltb X Y.
Proof.
  intros VX VY NX NY.
  destruct X as [sx|sx| |sx mx ex]; [| |congruence|];
    (destruct Y as [sy|sy| |sy my ey]; [| |congruence|]);
    try (apply SFsub_finite_pos; assumption);
    try destruct sx; try destruct sy; reflexivity.
Qed.



(** Comparison of two values that are not [NaN] is the lexicographic
    comparison of their keys. *)
Lemma SFcompare_key (X Y : spec_float) :
  X <> S754_nan -> Y <> S754_nan ->
  exists c, SFcompare X Y = Some c /\
    match c with
    | Lt => lex_lt (sf_key X) (sf_key Y)
    | Eq => lex_eq (sf_key X) (sf_key Y)
    | Gt => lex_lt (sf_key Y) (sf_key X)
    end.
Proof.
  intros NX NY.
  destruct X as [sx|sx| |sx mx ex]; [| |congruence|];
    (destruct Y as [sy|sy| |sy my ey]; [| |congruence|]);
    try destruct sx; try destruct sy; cbn [SFcompare];
    eexists; (split; [reflexivity|]); unfold lex_lt, lex_eq; cbn; try lia.
  - change (Pos.compare_cont Eq mx my) with (Pos.compare mx my).
    destruct (Z.compare_spec ex ey); [destruct (Pos.compare_spec mx my)| |];
      cbn; lia.
  - change (Pos.compare_cont Eq mx my) with (Pos.compare mx my).
    destruct (Z.compare_spec ex ey); [destruct (Pos.compare_spec mx my)| |];
      cbn; lia.
Qed.


End Rounding.

(** ** The order of the scores *)

Section FloatOrder.
Import FloatKey.
Local Open Scope Z_scope.

Lemma not_nan_spec (x : float) : is_nan x = false -> Prim2SF x <> S754_nan.
Proof.
  unfold is_nan. rewrite FloatAxioms.eqb_spec. intros H E. rewrite E in H. discriminate.
Qed.

(** The comparator of the sort is positive exactly when its first argument
    has the lower score. *)
Lemma sub_positive (x y : float) :
  is_nan x = false -> is_nan y = false ->
  (0 <? y - x)%float = (x <? y)%float.
Proof.
  intros Nx Ny. rewrite !FloatAxioms.ltb_spec, FloatAxioms.sub_spec.
  change (Prim2SF 0) with (S754_zero false).
  apply SFsub_pos; auto using Prim2SF_valid, not_nan_spec.
Qed.

Lemma float_compare_key (x y : float) :
  is_nan x = false -> is_nan y = false ->
  ((x <? y)%float = true <-> lex_lt (fkey x) (fkey y))
  /\ ((x =? y)%float = true <-> lex_eq (fkey x) (fkey y))
  /\ ((x <=? y)%float = true <-> lex_lt (fkey x) (fkey y) \/ lex_eq (fkey x) (fkey y)).
Proof.
  intros Nx Ny.
  rewrite FloatAxioms.ltb_spec, FloatAxioms.eqb_spec, FloatAxioms.leb_spec.
  destruct (SFcompare_key (Prim2SF x) (Prim2SF y)) as (c & E & K);
    auto using not_nan_spec.
  unfold SFltb, SFeqb, SFleb, fkey. rewrite E.
  unfold lex_lt, lex_eq in *.
  destruct c; repeat split; intros; try discriminate; try reflexivity; lia.
Qed.

Lemma ltb_key (x y : float) :
  is_nan x = false -> is_nan y = false ->
  (x <? y)%float = true <-> lex_lt (fkey x) (fkey y).
Proof. intros Nx Ny. apply (float_compare_key x y Nx Ny). Qed.

Lemma eqb_key (x y : float) :
  is_nan x = false -> is_nan y = false ->
  (x =? y)%float = true <-> lex_eq (fkey x) (fkey y).
Proof. intros Nx Ny. apply (float_compare_key x y Nx Ny). Qed.

Lemma leb_key (x y : float) :
  is_nan x = false -> is_nan y = false ->
  (x <=? y)%float = true <-> lex_lt (fkey x) (fkey y) \/ lex_eq (fkey x) (fkey y).
Proof. intros Nx Ny. apply (float_compare_key x y Nx Ny). Qed.

Lemma ltb_key_false (x y : float) :
  is_nan x = false -> is_nan y = false ->
  (x <? y)%float = false <-> ~ lex_lt (fkey x) (fkey y).
Proof.
  intros Nx Ny. rewrite <- (ltb_key x y Nx Ny).
  destruct (x <? y)%float; split; intros; congruence.
Qed.

End FloatOrder.

(** ** The sort *)

Section SortFacts.
Import Embeddings FloatKey Spec.

Lemma sortInsert_perm {A} (comparefn : A -> A -> float) (x : A) (l : list A) :
  Permutation (sortInsert comparefn x l) (x :: l).
Proof.
  induction l as [|y l IH]; cbn [sortInsert]; [reflexivity|].
  destruct (0 <? comparefn x y)%float; [|reflexivity].
  rewrite IH. apply perm_swap.
Qed.

Lemma sort_perm {A} (comparefn : A -> A -> float) (l : list A) :
  Permutation (sort comparefn l) l.
Proof.
  induction l as [|x l IH]; cbn [sort fold_right]; [reflexivity|].
  fold (sort comparefn l). rewrite sortInsert_perm. now rewrite IH.
Qed.

Lemma bySimilarity_positive (x y : Match) :
  scoreNotNaN x -> scoreNotNaN y ->
  (0 <? bySimilarity x y)%float = (similarity x <? similarity y)%float.
Proof. intros Nx Ny. apply sub_positive; assumption. Qed.

(** An element that does not go behind [y] precedes [y] and all that [y]
    precedes. *)
Lemma precedes_stay (x y : Match) :
  scoreNotNaN x -> scoreNotNaN y ->
  (similarity x <? similarity y)%float = false ->
  (m_index x < m_index y)%nat -> precedes x y.
Proof.
  intros Nx Ny H Hi. apply ltb_key_false in H; [|assumption..].
  unfold precedes. rewrite ltb_key, eqb_key by assumption.
  unfold lex_lt, lex_eq in *. lia.
Qed.

Lemma precedes_through (x y z : Match) :
  scoreNotNaN x -> scoreNotNaN y -> scoreNotNaN z ->
  (similarity x <? similarity y)%float = false ->
  precedes y z -> (m_index x < m_index z)%nat -> precedes x z.
Proof.
  intros Nx Ny Nz H Hyz Hi. apply ltb_key_false in H; [|assumption..].
  unfold precedes in *. rewrite ltb_key, eqb_key in * by assumption.
  unfold lex_lt, lex_eq in *. lia.
Qed.

Lemma sortInsert_sorted (x : Match) (l : list Match) :
  scoreNotNaN x -> Forall scoreNotNaN l ->
  Forall (fun y => (m_index x < m_index y)%nat) l ->
  StronglySorted precedes l ->
  StronglySorted precedes (sortInsert bySimilarity x l).
Proof.
  intros Nx. induction l as [|y l IH]; intros Nl Hi Hs; cbn [sortInsert].
  - repeat constructor.
  - inversion Nl as [|? ? Ny Nl']; subst.
    inversion Hi as [|? ? Hxy Hi']; subst.
    inversion Hs as [|? ? Hs' Hy]; subst.
    rewrite bySimilarity_positive by assumption.
    destruct (similarity x <? similarity y)%float eqn:E.
    + constructor; [apply IH; assumption|].
      rewrite sortInsert_perm. constructor; [left; exact E|exact Hy].
    + constructor; [exact Hs|]. constructor.
      * apply precedes_stay; assumption.
      * rewrite Forall_forall in *. intros z Hz.
        apply (precedes_through x y z); auto.
Qed.

Lemma sort_sorted (l : list Match) :
  Forall scoreNotNaN l ->
  StronglySorted (fun a b => (m_index a < m_index b)%nat) l ->
  StronglySorted precedes (sort bySimilarity l).
Proof.
  induction l as [|x l IH]; intros Nl Hi; cbn [sort fold_right].
  - constructor.
  - fold (sort bySimilarity l).
    inversion Nl; subst. inversion Hi; subst.
    apply sortInsert_sorted; auto.
    + rewrite sort_perm. assumption.
    + rewrite sort_perm. assumption.
Qed.

(** The order fixes the result: whatever stable sorting procedure an
    engine runs, a permutation of the scored entries in comparator order,
    equal scores in array order, is the list computed by [sort]. *)
Lemma sort_unique (ms l : list Match) :
  Forall scoreNotNaN ms ->
  StronglySorted (fun a b => (m_index a < m_index b)%nat) ms ->
  Permutation l ms -> StronglySorted precedes l ->
  l = sort bySimilarity ms.
Proof.
  intros Hnan Hasc Hperm Hl.
  apply (StronglySorted_unique_strong precedes); auto using sort_sorted.
  - intros a b Ha Hb Hab Hba. exfalso.
    rewrite Hperm in Ha. rewrite sort_perm in Hb.
    rewrite Forall_forall in Hnan.
    pose proof (Hnan a Ha) as Na. pose proof (Hnan b Hb) as Nb.
    unfold precedes in *. rewrite !ltb_key, !eqb_key in * by assumption.
    unfold lex_lt, lex_eq in *. lia.
  - now rewrite sort_perm.
Qed.

End SortFacts.

(** ** Arrays *)

Section ArrayFacts.

Lemma slice_prefix {A} (l : list A) (k : Z) :
  (0 <= k)%Z -> slice l 0 k = firstn (Z.to_nat k) l.
Proof.
  intros Hk. unfold slice, sliceIndex.
  destruct (k <? 0)%Z eqn:E; [apply Z.ltb_lt in E; lia|].
  change (0 <? 0)%Z with false. cbv iota.
  rewrite (Z.min_l 0) by lia. change (Z.to_nat 0) with 0%nat.
  rewrite skipn_O, Z.sub_0_r.
  destruct (Z.le_ge_cases k (Z.of_nat (List.length l))) as [H|H].
  - now rewrite Z.min_l by lia.
  - rewrite Z.min_r by lia. rewrite Nat2Z.id.
    rewrite !firstn_all2 by lia. reflexivity.
Qed.

Lemma StronglySorted_firstn {A} (R : A -> A -> Prop) (n : nat) (l : list A) :
  StronglySorted R l -> StronglySorted R (firstn n l).
Proof.
  intros H. revert n. induction H as [|x l Hs IH Hx]; intros [|n]; cbn;
    try constructor; auto.
  apply Forall_take. exact Hx.
Qed.

Lemma StronglySorted_lookup {A} (R : A -> A -> Prop) (l : list A) :
  StronglySorted R l ->
  forall (i j : nat) (a b : A),
    (i < j)%nat -> l !! i = Some a -> l !! j = Some b -> R a b.
Proof.
  induction 1 as [|x l Hs IH Hx]; intros i j a b Hij Ha Hb.
  - discriminate.
  - destruct j as [|j]; [lia|]. destruct i as [|i]; cbn in Ha, Hb.
    + injection Ha as <-. rewrite Forall_forall in Hx. apply Hx.
      eapply list_elem_of_lookup_2. exact Hb.
    + apply (IH i j); auto. lia.
Qed.

Lemma StronglySorted_Forall2 {A B} (R : A -> A -> Prop) (R' : B -> B -> Prop)
  (P : A -> B -> Prop) (l : list A) (k : list B) :
  (forall a b a' b', P a a' -> P b b' -> R a b -> R' a' b') ->
  Forall2 P l k -> StronglySorted R l -> StronglySorted R' k.
Proof.
  intros HR HP. induction HP as [|a a' l k Ha HP IH]; intros Hs.
  - constructor.
  - inversion Hs as [|? ? Hs' Hx]; subst. constructor; [auto|].
    clear IH Hs Hs'. induction HP as [|b b' l k Hb HP IH]; constructor.
    + inversion Hx; subst. eapply HR; eauto.
    + apply IH. now inversion Hx.
Qed.

Lemma seq_ascending (i n : nat) : StronglySorted lt (seq i n).
Proof.
  revert i. induction n as [|n IH]; intros i; cbn; constructor; auto.
  rewrite Forall_forall. intros y Hy. apply elem_of_seq in Hy. lia.
Qed.

End ArrayFacts.

(** ** The scores of a search *)

Section SearchFacts.
Import Chunking Embeddings VectorStore FloatKey Spec.

Lemma mapiMFrom_scores (q : list float) (embs : list (list float)) :
  forall (i : nat) (ms : list Match),
    mapiMFrom (scoreEntry q) i embs = Ok ms ->
    Forall2 (fun e m => cosineSimilarity q e = Ok (similarity m)) embs ms
    /\ List.map m_index ms = seq i (List.length embs).
Proof.
  induction embs as [|e embs IH]; intros i ms H; cbn in H.
  - injection H as <-. split; constructor.
  - unfold scoreEntry at 1 in H.
    destruct (cosineSimilarity q e) as [s|err] eqn:E; cbn in H; [|discriminate].
    destruct (mapiMFrom (scoreEntry q) (S i) embs) as [ms'|err] eqn:E';
      cbn in H; [|discriminate].
    injection H as <-. destruct (IH _ _ E') as [F2 Hidx].
    split; [constructor; [exact E|exact F2]|].
    cbn. now rewrite Hidx.
Qed.

Lemma mapiMFrom_returns (q : list float) (embs : list (list float)) :
  Forall (fun e => List.length e = List.length q) embs ->
  forall i : nat, exists ms, mapiMFrom (scoreEntry q) i embs = Ok ms.
Proof.
  induction 1 as [|e embs He _ IH]; intros i; cbn.
  - eauto.
  - unfold scoreEntry at 1, cosineSimilarity.
    rewrite He, Nat.eqb_refl. cbn [negb].
    destruct (IH (S i)) as [ms ->].
    destruct (_ || _); cbn; eauto.
Qed.

(** With a length that differs from the query's somewhere, the loop
    throws. *)
Lemma mapiMFrom_throws (q : list float) (embs : list (list float)) :
  Exists (fun e => List.length e <> List.length q) embs ->
  forall i : nat, exists err, mapiMFrom (scoreEntry q) i embs = Throw err.
Proof.
  induction 1 as [e embs He|e embs _ IH]; intros i; cbn.
  - unfold scoreEntry at 1, cosineSimilarity.
    destruct (Nat.eqb_spec (List.length q) (List.length e)) as [E|_];
      [congruence|]. cbn. eauto.
  - destruct (scoreEntry q e i); cbn; [|eauto].
    destruct (IH (S i)) as [err ->]. cbn. eauto.
Qed.

Lemma findSimilarEmbeddings_prefix (q : list float) (embs : list (list float))
  (k : Z) (res : list Match) :
  (0 <= k)%Z -> findSimilarEmbeddings q embs k = Ok res ->
  exists ms, mapiM (scoreEntry q) embs = Ok ms
             /\ res = firstn (Z.to_nat k) (sort bySimilarity ms).
Proof.
  intros Hk H. unfold findSimilarEmbeddings in H.
  destruct (mapiM (scoreEntry q) embs) as [ms|err]; cbn in H; [|discriminate].
  injection H as <-. exists ms. split; [reflexivity|]. now apply slice_prefix.
Qed.

(** Every entry scored by the loop carries its own position, and the
    score of the embedding at that position. *)
Lemma mapiM_entries (q : list float) (embs : list (list float)) (ms : list Match) :
  mapiM (scoreEntry q) embs = Ok ms ->
  StronglySorted (fun a b => (m_index a < m_index b)%nat) ms
  /\ Forall (fun m => exists e, embs !! m_index m = Some e
                                /\ cosineSimilarity q e = Ok (similarity m)) ms.
Proof.
  intros H. destruct (mapiMFrom_scores q embs 0 ms H) as [F2 Hidx].
  split.
  - pose proof (seq_ascending 0 (List.length embs)) as Hs.
    rewrite <- Hidx in Hs. clear -Hs.
    induction ms as [|m ms IH]; [constructor|].
    cbn in Hs. inversion Hs as [|? ? Hs' Hm]; subst.
    constructor; [auto|]. clear -Hm.
    induction ms as [|m' ms IH]; [constructor|].
    cbn in Hm. inversion Hm; subst. constructor; auto.
  - apply Forall_lookup. intros p m Hm.
    assert (m_index m = p) as Hp.
    { assert (List.map m_index ms !! p = Some (m_index m)) as Hl.
      { change (List.map m_index ms) with (m_index <$> ms).
        rewrite list_lookup_fmap, Hm. reflexivity. }
      rewrite Hidx in Hl. apply lookup_seq in Hl. lia. }
    destruct (Forall2_lookup_r _ _ _ _ _ F2 Hm) as (e & He & Hc).
    exists e. rewrite Hp. auto.
Qed.

End SearchFacts.

Section SearchResult.
Import Chunking Embeddings VectorStore FloatKey Spec.

Lemma withSimilarity_defined (chunks : list VectorChunk) (res : list Match) :
  Forall (fun m => is_Some (chunks !! m_index m)) res ->
  Forall2 (fun m f => chunks !! m_index m = Some (found_chunk f)
                      /\ found_similarity f = similarity m)
          res (omap (withSimilarity chunks) res).
Proof.
  induction 1 as [|m res [c Hc] _ IH]; cbn; [constructor|].
  unfold withSimilarity at 1. rewrite Hc. constructor; [|exact IH]. cbn. auto.
Qed.

Lemma StronglySorted_with {A} (R : A -> A -> Prop) (Q : A -> Prop) (l : list A) :
  StronglySorted R l -> Forall Q l ->
  StronglySorted (fun a b => R a b /\ Q a /\ Q b) l.
Proof.
  induction 1 as [|x l Hs IH Hx]; intros HQ; [constructor|].
  inversion HQ as [|? ? Qx Ql]; subst. constructor; [auto|].
  rewrite Forall_forall in *. auto.
Qed.

Lemma precedes_leb (a b : Match) :
  scoreNotNaN a -> scoreNotNaN b -> precedes a b ->
  (similarity b <=? similarity a)%float = true.
Proof.
  intros Na Nb H. unfold precedes in H.
  rewrite ltb_key, eqb_key in H by assumption.
  apply leb_key; [assumption..|]. unfold lex_lt, lex_eq in *. lia.
Qed.

Lemma precedes_tie (a b : Match) :
  scoreNotNaN a -> scoreNotNaN b -> precedes a b ->
  (similarity a =? similarity b)%float = true -> (m_index a < m_index b)%nat.
Proof.
  intros Na Nb H E. unfold precedes in H.
  rewrite ltb_key, eqb_key in H by assumption.
  apply eqb_key in E; [|assumption..]. unfold lex_lt, lex_eq in *. lia.
Qed.

(** The matches of a search, as the sorted prefix of the scored entries. *)
Lemma searchChunks_matches (chunks : list VectorChunk) (q : list float) (k : Z)
  (found : list Found) :
  (0 <= k)%Z -> scoresNotNaN chunks q ->
  searchChunks chunks q k = Ok found ->
  exists res : list Match,
    (Z.of_nat (List.length res) <= k)%Z
    /\ StronglySorted (fun a b => precedes a b /\ scoreNotNaN a /\ scoreNotNaN b) res
    /\ Forall2 (fun m f => chunks !! m_index m = Some (found_chunk f)
                           /\ found_similarity f = similarity m) res found.
Proof.
  intros Hk HN H. unfold searchChunks in H.
  destruct (Nat.eqb (List.length chunks) 0).
  { injection H as <-. exists []. repeat split; [cbn; lia|constructor|constructor]. }
  destruct (findSimilarEmbeddings q (List.map embedding chunks) k) as [res|err] eqn:E;
    cbn in H; [|discriminate].
  injection H as <-. exists res.
  destruct (findSimilarEmbeddings_prefix _ _ _ _ Hk E) as (ms & Hms & ->).
  destruct (mapiM_entries _ _ _ Hms) as [Hasc Hent].
  assert (Forall (fun m => exists c, chunks !! m_index m = Some c
                                     /\ scoreNotNaN m) ms) as Hc.
  { eapply Forall_impl; [exact Hent|]. intros m (e & He & Hs).
    change (List.map embedding chunks) with (embedding <$> chunks) in He.
    rewrite list_lookup_fmap in He.
    destruct (chunks !! m_index m) as [c|] eqn:Ec; [|discriminate].
    injection He as <-. exists c. split; [reflexivity|].
    apply (HN c); [|exact Hs].
    apply list_elem_of_In. eapply list_elem_of_lookup_2. exact Ec. }
  assert (Forall scoreNotNaN ms) as Hnan.
  { eapply Forall_impl; [exact Hc|]. intros m (c & _ & Hm). exact Hm. }
  pose proof (sort_sorted ms Hnan Hasc) as Hsorted.
  pose proof (sort_perm bySimilarity ms) as Hperm.
  rewrite <- Hperm in Hc, Hnan.
  repeat split.
  - rewrite length_take. lia.
  - apply StronglySorted_with.
    + apply StronglySorted_firstn. exact Hsorted.
    + apply Forall_take. exact Hnan.
  - apply withSimilarity_defined. apply Forall_take.
    eapply Forall_impl; [exact Hc|]. intros m (c & -> & _). eauto.
Qed.

End SearchResult.

Section TopK.
Import Chunking Embeddings VectorStore FloatKey Spec.

(** Chunks that carry the indices [0 .. N-1], as the chunker returns them,
    are stored in the order of their chunk indices. *)
Lemma buildVectorChunks_index_order (vid : jsstring) (chunks : list ChunkInput)
  (embeddings : list (list float)) (md : list (jsstring * jsstring)) :
  contiguousIndices (List.map in_chunk chunks) ->
  storedInIndexOrder (buildVectorChunks vid chunks embeddings md).
Proof.
  unfold contiguousIndices, storedInIndexOrder, buildVectorChunks.
  rewrite List.map_map, List.length_map. intros Hidx p p' c d Hlt Hc Hd.
  change (List.map ?f ?l) with (f <$> l) in Hc, Hd.
  rewrite list_lookup_fmap in Hc, Hd.
  destruct (combine chunks embeddings !! p) as [[cp ep]|] eqn:Ep; [|discriminate].
  destruct (combine chunks embeddings !! p') as [[cq eq]|] eqn:Eq; [|discriminate].
  injection Hc as <-. injection Hd as <-. cbn.
  assert (forall n cn en, combine chunks embeddings !! n = Some (cn, en) ->
                          index (in_chunk cn) = n) as Hn.
  { intros n cn en E.
    assert (chunks !! n = Some cn) as E'.
    { clear -E. revert embeddings n E.
      induction chunks as [|x l IH]; intros [|e es] [|n] E; cbn in *;
        try discriminate; [congruence|eauto]. }
    assert (List.map (fun x => index (in_chunk x)) chunks !! n
            = Some (index (in_chunk cn))) as E''.
    { change (List.map ?f ?l) with (f <$> l).
      rewrite list_lookup_fmap, E'. reflexivity. }
    rewrite Hidx in E''. apply lookup_seq in E''. lia. }
  rewrite (Hn _ _ _ Ep), (Hn _ _ _ Eq). exact Hlt.
Qed.


Lemma searchChunks_returns (chunks : list VectorChunk) (q : list float) (k : Z) :
  sameDimension chunks q -> exists found, searchChunks chunks q k = Ok found.
Proof.
  intros Hd. unfold searchChunks.
  destruct (Nat.eqb (List.length chunks) 0); [eauto|].
  unfold findSimilarEmbeddings, mapiM.
  destruct (mapiMFrom_returns q (List.map embedding chunks)) with (i := 0%nat)
    as [ms ->].
  { unfold sameDimension in Hd. clear -Hd.
    induction Hd; cbn; constructor; auto. }
  cbn. eauto.
Qed.

Lemma omap_length_le {A B} (f : A -> option B) (l : list A) :
  (List.length (omap f l) <= List.length l)%nat.
Proof.
  induction l as [|x l IH]; cbn; [lia|]. destruct (f x); cbn; lia.
Qed.

Lemma searchChunks_length (chunks : list VectorChunk) (q : list float) (k : Z)
  (found : list Found) :
  (0 <= k)%Z -> searchChunks chunks q k = Ok found ->
  (Z.of_nat (List.length found) <= k)%Z.
Proof.
  intros Hk H. unfold searchChunks in H.
  destruct (Nat.eqb (List.length chunks) 0); [injection H as <-; cbn; lia|].
  destruct (findSimilarEmbeddings q (List.map embedding chunks) k) as [res|err] eqn:E;
    cbn in H; [|discriminate].
  injection H as <-.
  destruct (findSimilarEmbeddings_prefix _ _ _ _ Hk E) as (ms & _ & ->).
  pose proof (omap_length_le (withSimilarity chunks)
                (firstn (Z.to_nat k) (sort bySimilarity ms))) as Hle.
  rewrite length_take in Hle. lia.
Qed.

(** C1, as the code has it. For every stored collection, every query
    embedding and every [topK >= 0]: [searchSimilar] returns when the stored
    embeddings have the length of the query, and what it returns has at most
    [topK] matches. Provided that no computed score is [NaN], the scores
    are in non-increasing order, and matches with equal scores stand in the
    order in which their records are stored. That is the order of the chunk
    indices when the collection was stored in that order. *)
Theorem searchSimilar_topK (vectorStore : Store) (vid : jsstring)
  (q : list float) (topK : Z) :
  (0 <= topK)%Z ->
  (sameDimension (getChunks vectorStore vid) q ->
   exists found, searchSimilar vectorStore vid q topK = Ok found)
  /\ forall found : list Found,
       searchSimilar vectorStore vid q topK = Ok found ->
       (Z.of_nat (List.length found) <= topK)%Z
       /\ (scoresNotNaN (getChunks vectorStore vid) q ->
           nonIncreasing found
           /\ tiesInStoredOrder (getChunks vectorStore vid) found
           /\ (storedInIndexOrder (getChunks vectorStore vid) ->
               tiesByChunkIndex found)).
Proof.
  intros Hk. unfold searchSimilar.
  set (chunks := getChunks vectorStore vid) in *.
  split; [apply searchChunks_returns|].
  intros found H. split; [now apply (searchChunks_length chunks q)|].
  intros HN.
  destruct (searchChunks_matches chunks q topK found Hk HN H)
    as (res & _ & Hsorted & Hfound).
  assert (tiesInStoredOrder chunks found) as Hties.
  { exists (List.map m_index res). split.
    - change (List.map m_index res) with (m_index <$> res).
      apply Forall2_fmap_r, Forall2_flip.
      eapply Forall2_impl; [exact Hfound|]. cbn. intros m f [Hm _]. exact Hm.
    - intros i j p p' f g Hij Hf Hg Hp Hp' Heq.
      destruct (Forall2_lookup_r _ _ _ _ _ Hfound Hf) as (a & Ha & _ & Hfa).
      destruct (Forall2_lookup_r _ _ _ _ _ Hfound Hg) as (b & Hb & _ & Hgb).
      change (List.map m_index res) with (m_index <$> res) in Hp, Hp'.
      rewrite list_lookup_fmap, Ha in Hp. rewrite list_lookup_fmap, Hb in Hp'.
      injection Hp as <-. injection Hp' as <-.
      destruct (StronglySorted_lookup _ _ Hsorted i j a b Hij Ha Hb)
        as (Hab & Na & Nb).
      rewrite Hfa, Hgb in Heq. now apply precedes_tie. }
  repeat split.
  - unfold nonIncreasing.
    eapply (StronglySorted_Forall2 _ _ _ res found); [|exact Hfound|exact Hsorted].
    cbn. intros a b f g [_ Hfa] [_ Hgb] (Hab & Na & Nb).
    rewrite Hfa, Hgb. now apply precedes_leb.
  - exact Hties.
  - intros Hstored i j f g Hij Hf Hg Heq.
    destruct Hties as (positions & Hpos & Hord).
    destruct (Forall2_lookup_l _ _ _ _ _ Hpos Hf) as (p & Hp & Hcp).
    destruct (Forall2_lookup_l _ _ _ _ _ Hpos Hg) as (p' & Hp' & Hcp').
    apply (Hstored p p'); auto. apply (Hord i j p p' f g); auto.
Qed.

End TopK.

Section TopKExamples.
Import Chunking Embeddings VectorStore FloatKey Spec Examples.

(** The theorem at the 2-D scenario of the specification: query [[1; 0]]
    and [topK = 2] on three records give chunk 0 with score 1 and then
    chunk 2. *)
Lemma searchSimilar_topK_witness :
  exists found,
    searchSimilar toyStore (js "toy") [1; 0]%float 2 = Ok found
    /\ List.map (fun f => md_chunkIndex (metadata (found_chunk f))) found = [0; 2]%nat
    /\ (Z.of_nat (List.length found) <= 2)%Z
    /\ nonIncreasing found
    /\ tiesInStoredOrder (getChunks toyStore (js "toy")) found
    /\ tiesByChunkIndex found.
Proof.
  assert (H0 : (0 <= 2)%Z) by lia.
  assert (HN : scoresNotNaN (getChunks toyStore (js "toy")) [1; 0]%float).
  { intros c s Hc Hs. vm_compute in Hc.
    destruct Hc as [<-|[<-|[<-|[]]]]; vm_compute in Hs; injection Hs as <-;
      reflexivity. }
  assert (HS : storedInIndexOrder (getChunks toyStore (js "toy"))).
  { apply (buildVectorChunks_index_order (js "toy")
             [chunkAt 0 "zero"; chunkAt 1 "one"; chunkAt 2 "two"]).
    reflexivity. }
  eexists. split; [vm_compute; reflexivity|]. split; [reflexivity|].
  match goal with |- (Z.of_nat (List.length ?found) <= _)%Z /\ _ =>
    destruct (proj2 (searchSimilar_topK toyStore (js "toy") [1; 0]%float 2 H0)
                found) as (Hlen & Hrest);
      [vm_compute; reflexivity|];
      destruct (Hrest HN) as (Hsorted & Hties & Hidx)
  end.
  auto.
Defined.

(** C1 as stated fails on the code. Two records stored with the higher
    chunk index first and one score come back in stored order, chunk 1
    before chunk 0; and a finite embedding whose squares overflow has the
    score [NaN], which stands before the score 0. *)
Lemma searchSimilar_ties_not_by_chunk_index :
  (exists found,
     searchSimilar tieStore (js "tie") [1]%float 3 = Ok found
     /\ List.map (fun f => (md_chunkIndex (metadata (found_chunk f)),
                            found_similarity f)) found
        = [(1%nat, 1%float); (0%nat, 1%float)]
     /\ ~ tiesByChunkIndex found)
  /\ (exists found,
        searchSimilar hugeStore (js "huge") [huge] 3 = Ok found
        /\ List.map found_similarity found = [nan; 0%float]
        /\ ~ nonIncreasing found).
Proof.
  split.
  - eexists. split; [vm_compute; reflexivity|]. split; [reflexivity|].
    intros H.
    specialize (H 0%nat 1%nat _ _ ltac:(lia) eq_refl eq_refl eq_refl).
    cbn in H. lia.
  - eexists. split; [vm_compute; reflexivity|]. split; [reflexivity|].
    intros H. inversion H as [|? ? _ Hx]. inversion Hx as [|? ? Hle _].
    vm_compute in Hle. discriminate.
Qed.

End TopKExamples.

(** ** Searching a corpus that is not there, or of another dimension *)

Section SearchErrors.
Import Chunking Embeddings VectorStore Spec Examples.

(** C6. On a [videoId] for which the store holds no collection,
    [searchSimilar] returns the empty array and throws nothing, whatever
    the query embedding and [topK] are. *)
Theorem searchSimilar_unknown_corpus (vectorStore : Store) (vid : jsstring)
  (q : list float) (topK : Z) :
  vectorStore !! vid = None ->
  searchSimilar vectorStore vid q topK = Ok [].
Proof.
  intros H. unfold searchSimilar, getChunks. rewrite H. reflexivity.
Qed.

Lemma searchSimilar_unknown_corpus_witness :
  searchSimilar tieStore (js "other") [1]%float 3 = Ok [].
Proof.
  apply (searchSimilar_unknown_corpus tieStore (js "other") [1]%float 3).
  vm_compute. reflexivity.
Defined.

(** C10. On a stored collection that is not empty and whose embeddings
    all have length [d], a query embedding of another length makes
    [searchSimilar] throw the dimension error of [cosineSimilarity]. *)
Theorem searchSimilar_dimension_mismatch (vectorStore : Store) (vid : jsstring)
  (chunks : list VectorChunk) (q : list float) (topK : Z) (d : nat) :
  vectorStore !! vid = Some chunks ->
  chunks <> [] ->
  Forall (fun c => List.length (embedding c) = d) chunks ->
  List.length q <> d ->
  searchSimilar vectorStore vid q topK
  = Throw (DimensionsDontMatch (List.length q) d).
Proof.
  intros Hs Hne Hd Hq. unfold searchSimilar, getChunks. rewrite Hs.
  destruct chunks as [|c rest]; [congruence|].
  inversion Hd as [|? ? Hc _]; subst.
  unfold searchChunks, findSimilarEmbeddings, mapiM. cbn.
  unfold scoreEntry at 1, cosineSimilarity.
  destruct (Nat.eqb_spec (List.length q) (List.length (embedding c)));
    [congruence|reflexivity].
Qed.

Lemma searchSimilar_dimension_mismatch_witness :
  searchSimilar toyStore (js "toy") [1; 0; 0]%float 2
  = Throw (DimensionsDontMatch 3 2).
Proof.
  eapply (searchSimilar_dimension_mismatch toyStore (js "toy") _
            [1; 0; 0]%float 2 2).
  - vm_compute. reflexivity.
  - discriminate.
  - repeat constructor.
  - cbn. lia.
Defined.

End SearchErrors.

(** ** Zero norms *)

Section ZeroNorm.
Import Chunking Embeddings VectorStore Spec Examples.

Lemma sumSquares_zeros (a : list float) :
  Forall isZero a ->
  fold_left (fun sum val => (sum + val * val)%float) a 0%float = 0%float.
Proof.
  induction 1 as [|v a [-> | ->] _ IH]; cbn; [reflexivity|exact IH..].
Qed.

Lemma scoreEntry_zero (q e : list float) (i : nat) (m : Match) :
  zeroNorm q -> scoreEntry q e i = Ok m -> similarity m = 0%float.
Proof.
  unfold zeroNorm, scoreEntry, cosineSimilarity. intros Hq H.
  destruct (negb _); [discriminate|]. rewrite Hq in H. cbn in H.
  injection H as <-. reflexivity.
Qed.

Lemma mapiMFrom_zero (q : list float) (embs : list (list float)) :
  zeroNorm q ->
  forall (i : nat) (ms : list Match),
    mapiMFrom (scoreEntry q) i embs = Ok ms ->
    Forall (fun m => similarity m = 0%float) ms.
Proof.
  intros Hq. induction embs as [|e embs IH]; intros i ms H; cbn in H.
  - injection H as <-. constructor.
  - destruct (scoreEntry q e i) as [m|err] eqn:E; cbn in H; [|discriminate].
    destruct (mapiMFrom (scoreEntry q) (S i) embs) as [ms'|err] eqn:E';
      cbn in H; [|discriminate].
    injection H as <-. constructor; eauto using scoreEntry_zero.
Qed.

Lemma slice_subset {A} (l : list A) (i j : Z) (x : A) :
  x ∈ slice l i j -> x ∈ l.
Proof.
  unfold slice. intros H. apply subseteq_take in H. apply subseteq_drop in H.
  exact H.
Qed.

Lemma omap_withSimilarity_scores (chunks : list VectorChunk) (P : float -> Prop)
  (ms : list Match) :
  Forall (fun m => P (similarity m)) ms ->
  Forall (fun f => P (found_similarity f)) (omap (withSimilarity chunks) ms).
Proof.
  induction 1 as [|m ms Hm _ IH]; cbn; [constructor|].
  unfold withSimilarity at 1. destruct (chunks !! m_index m); [|exact IH].
  constructor; [exact Hm|exact IH].
Qed.

(** C7. For two vectors of one length of which one has a computed norm of
    zero, [cosineSimilarity] returns [0] itself: it neither throws nor
    divides. So every score of a search with a zero-norm query is [0], and
    a vector whose components are all zero has zero norm. *)
Theorem cosineSimilarity_zero_norm :
  (forall a b : list float,
     List.length a = List.length b -> zeroNorm a \/ zeroNorm b ->
     cosineSimilarity a b = Ok 0%float)
  /\ (forall (vectorStore : Store) (vid : jsstring) (q : list float) (topK : Z)
             (found : list Found),
        zeroNorm q -> searchSimilar vectorStore vid q topK = Ok found ->
        Forall (fun f => found_similarity f = 0%float) found)
  /\ (forall a : list float, Forall isZero a -> zeroNorm a).
Proof.
  repeat split.
  - intros a b Hlen Hz. unfold cosineSimilarity, zeroNorm in *.
    rewrite Hlen, Nat.eqb_refl. cbn [negb].
    destruct Hz as [-> | ->]; [reflexivity|]. now rewrite orb_true_r.
  - intros vectorStore vid q topK found Hq H.
    unfold searchSimilar, searchChunks in H.
    destruct (Nat.eqb _ 0); [injection H as <-; constructor|].
    unfold findSimilarEmbeddings, mapiM in H.
    destruct (mapiMFrom (scoreEntry q) 0 _) as [ms|err] eqn:E; cbn in H;
      [|discriminate].
    injection H as <-.
    apply (omap_withSimilarity_scores _ (fun s => s = 0%float)).
    apply Forall_forall. intros m Hm. apply slice_subset in Hm.
    rewrite (sort_perm bySimilarity ms) in Hm.
    pose proof (mapiMFrom_zero q _ Hq _ _ E) as Hz.
    rewrite Forall_forall in Hz. auto.
  - intros a Ha. unfold zeroNorm, magnitude. now rewrite sumSquares_zeros.
Qed.

Lemma cosineSimilarity_zero_norm_witness :
  cosineSimilarity [0; -0]%float [3; 4]%float = Ok 0%float
  /\ Forall (fun f => found_similarity f = 0%float)
            (match searchSimilar toyStore (js "toy") [0; 0]%float 3 with
             | Ok found => found
             | Throw _ => []
             end).
Proof.
  destruct cosineSimilarity_zero_norm as (Hpair & Hsearch & Hzeros).
  assert (zeroNorm [0; -0]%float) as Hz1.
  { apply Hzeros.
    constructor; [left; reflexivity|constructor; [right; reflexivity|constructor]]. }
  assert (zeroNorm [0; 0]%float) as Hz2 by reflexivity.
  split.
  - apply Hpair; [reflexivity|left; exact Hz1].
  - apply (Hsearch toyStore (js "toy") [0; 0]%float 3%Z); [exact Hz2|].
    vm_compute. reflexivity.
Defined.

End ZeroNorm.

(** ** Storing a collection *)

Section Storing.
Import Chunking Embeddings VectorStore Spec Examples.

Lemma buildVectorChunks_embeddings (vid : jsstring) (chunks : list ChunkInput)
  (embeddings : list (list float)) (md : list (jsstring * jsstring)) :
  List.length chunks = List.length embeddings ->
  List.map embedding (buildVectorChunks vid chunks embeddings md) = embeddings.
Proof.
  unfold buildVectorChunks. revert embeddings.
  induction chunks as [|c chunks IH]; intros [|e embeddings] H; cbn in *;
    try discriminate; [reflexivity|].
  f_equal. apply IH. lia.
Qed.

(** C4, as the code has it. [storeChunks] looks at no embedding: given as
    many embeddings as chunks it throws nothing and installs the
    collection, every embedding stored as it came, whether or not they
    share one length; with a different number of embeddings it throws and
    leaves the store as it was. *)
Theorem storeChunks_checks_count_only (vectorStore : Store) (vid : jsstring)
  (chunks : list ChunkInput) (embeddings : list (list float))
  (md : list (jsstring * jsstring)) :
  (List.length chunks = List.length embeddings ->
   exists vectorStore',
     storeChunks vectorStore vid chunks embeddings md = Ok vectorStore'
     /\ List.map embedding (getChunks vectorStore' vid) = embeddings
     /\ forall other, other <> vid -> vectorStore' !! other = vectorStore !! other)
  /\ (List.length chunks <> List.length embeddings ->
      storeChunks vectorStore vid chunks embeddings md
      = Throw (ChunkCountMismatch (List.length chunks) (List.length embeddings))).
Proof.
  unfold storeChunks. split; intros H.
  - rewrite H, Nat.eqb_refl. cbn [negb]. eexists. split; [reflexivity|]. split.
    + unfold getChunks. rewrite lookup_insert_eq.
      now apply buildVectorChunks_embeddings.
    + intros other Hne. now apply lookup_insert_ne.
  - destruct (Nat.eqb_spec (List.length chunks) (List.length embeddings));
      [contradiction|reflexivity].
Qed.

Lemma storeChunks_checks_count_only_witness :
  exists vectorStore',
    storeChunks ∅ (js "mixed") mixedChunks mixedEmbeddings [] = Ok vectorStore'
    /\ List.map embedding (getChunks vectorStore' (js "mixed")) = mixedEmbeddings
    /\ forall other, other <> js "mixed" ->
                     vectorStore' !! other = (∅ : Store) !! other.
Proof.
  apply (proj1 (storeChunks_checks_count_only ∅ (js "mixed") mixedChunks
                  mixedEmbeddings [])).
  reflexivity.
Defined.

(** C4 as stated fails on the code: two embeddings of lengths 1 and 2 are
    stored without an error. *)
Lemma storeChunks_accepts_mixed_dimensions :
  List.map (@List.length float) mixedEmbeddings = [1; 2]%nat
  /\ exists vectorStore',
       storeChunks ∅ (js "mixed") mixedChunks mixedEmbeddings [] = Ok vectorStore'
       /\ List.map embedding (getChunks vectorStore' (js "mixed"))
          = [[1]; [1; 2]]%float.
Proof.
  split; [reflexivity|]. eexists. split; [reflexivity|].
  vm_compute. reflexivity.
Qed.

End Storing.

(** ** The search stage of the ask route *)

Section AskStage.
Import Chunking Embeddings VectorStore Ask Spec Examples.

Lemma filter_sublist {A} (p : A -> bool) (l : list A) :
  sublist (List.filter p l) l.
Proof.
  induction l as [|x l IH]; cbn; [constructor|].
  destruct (p x); now constructor.
Qed.

(** C9, as the code has it. When the question is no greeting and the
    search returns, the context is made of the returned matches whose
    similarity is strictly above 0.3, in the order of the search: a match is
    in the context exactly when [similarity > 0.3]. The event that ends the
    stage, and the stage itself, carry the number of matches that the search
    returned, whatever their similarity. *)
Theorem searchStage_threshold (vectorStore : Store) (vid question : jsstring)
  (q : list float) (found : list Found) :
  isGreeting question = false ->
  searchSimilar vectorStore vid q 3 = Ok found ->
  exists kept : list Found,
    similarChunks (searchStage vectorStore vid question q)
    = Some (List.map asContext kept)
    /\ sublist kept found
    /\ (forall f : Found,
          f ∈ kept <->
          f ∈ found /\ (SIMILARITY_THRESHOLD <? found_similarity f)%float = true)
    /\ totalChunkCount (searchStage vectorStore vid question q) = List.length found
    /\ exists message,
         List.last (events (searchStage vectorStore vid question q))
                   (ErrorEvent (ChunkCountMismatch 0 0))
         = SearchComplete message (List.length found)
                          (List.map found_similarity kept).
Proof.
  intros Hg Hs. unfold searchStage. rewrite Hg, Hs. cbn [similarChunks totalChunkCount events].
  exists (List.filter aboveThreshold found). unfold selectSimilar.
  split; [reflexivity|]. split; [apply filter_sublist|]. split.
  - intros f. rewrite !list_elem_of_In, filter_In. unfold aboveThreshold.
    tauto.
  - split; [reflexivity|]. eexists. cbn.
    rewrite List.map_map. reflexivity.
Qed.

Lemma searchStage_threshold_witness :
  exists kept : list Found,
    similarChunks (searchStage toyStore (js "toy") (js "what is zero?") [1; 0]%float)
    = Some (List.map asContext kept)
    /\ sublist kept toyFound
    /\ (forall f : Found,
          f ∈ kept <->
          f ∈ toyFound /\ (SIMILARITY_THRESHOLD <? found_similarity f)%float = true)
    /\ totalChunkCount (searchStage toyStore (js "toy") (js "what is zero?") [1; 0]%float)
       = List.length toyFound
    /\ exists message,
         List.last (events (searchStage toyStore (js "toy") (js "what is zero?")
                                        [1; 0]%float))
                   (ErrorEvent (ChunkCountMismatch 0 0))
         = SearchComplete message (List.length toyFound)
                          (List.map found_similarity kept).
Proof.
  apply (searchStage_threshold toyStore (js "toy") (js "what is zero?")
           [1; 0]%float toyFound).
  - vm_compute. reflexivity.
  - vm_compute. reflexivity.
Defined.

(** C9 as stated fails on the code. A record at cosine similarity [3 / 10]
    from the query has the score [0.3], which is not below the threshold;
    the search returns it, the stage counts it, and the context is empty. *)
Lemma searchStage_excludes_exact_threshold :
  exists f : Found,
    searchSimilar thresholdStore (js "edge") [1; 0; 0; 0]%float 3 = Ok [f]
    /\ found_similarity f = SIMILARITY_THRESHOLD
    /\ (found_similarity f <? SIMILARITY_THRESHOLD)%float = false
    /\ isGreeting (js "what is this") = false
    /\ similarChunks (searchStage thresholdStore (js "edge") (js "what is this")
                                  [1; 0; 0; 0]%float) = Some []
    /\ totalChunkCount (searchStage thresholdStore (js "edge") (js "what is this")
                                    [1; 0; 0; 0]%float) = 1%nat.
Proof.
  eexists. split; [vm_compute; reflexivity|].
  repeat split; vm_compute; reflexivity.
Qed.

End AskStage.

(** ** A search beside a replacement *)

Section Atomicity.
Import Chunking Embeddings VectorStore Interleaving Spec Examples.

Variables (vid : jsstring) (chunks : list ChunkInput)
  (embeddings : list (list float)) (md : list (jsstring * jsstring))
  (queryEmbedding : list float) (topK : Z).
Variable vectorStore : Store.

Local Abbreviation inv := (consistent vid chunks embeddings md queryEmbedding topK vectorStore).

Lemma step_consistent (c c' : Config) :
  step vid chunks embeddings md queryEmbedding topK c c' -> inv c -> inv c'.
Proof.
  unfold consistent.
  destruct 1 as [s r Hne|s r Heq|s vc r|s w|s w held]; cbn; intros [Hw Hr].
  - auto.
  - auto.
  - destruct Hw as [-> ->]. auto.
  - split; [exact Hw|].
    destruct w as [|vc| |e]; cbn in Hw.
    + left. now rewrite Hw.
    + left. destruct Hw as [-> _]. reflexivity.
    + right. rewrite Hw. unfold getChunks. now rewrite lookup_insert_eq.
    + left. now rewrite Hw.
  - split; [exact Hw|]. destruct Hr as [-> | ->]; auto.
Qed.

Lemma steps_consistent (c c' : Config) :
  steps vid chunks embeddings md queryEmbedding topK c c' -> inv c -> inv c'.
Proof. induction 1; eauto using step_consistent. Qed.

End Atomicity.

Section AtomicityTheorem.
Import Chunking Embeddings VectorStore Interleaving Spec Examples.

(** C5. Let a call of [storeChunks] for [vid] and a call of
    [searchSimilar] for the same [vid] advance statement by statement in any
    order. A search that completes has computed its result on the old
    collection as a whole or on the new one as a whole: the array it took
    from the store is one of the two, which no statement changes. Both
    outcomes occur. *)
Theorem search_sees_old_or_new (vectorStore : Store) (vid : jsstring)
  (chunks : list ChunkInput) (embeddings : list (list float))
  (md : list (jsstring * jsstring)) (q : list float) (topK : Z) :
  let init := {| c_store := vectorStore; c_writer := WStart; c_reader := RStart |} in
  let old := getChunks vectorStore vid in
  let new := buildVectorChunks vid chunks embeddings md in
  (forall c : Config,
     steps vid chunks embeddings md q topK init c ->
     match c_reader c with
     | RStart => True
     | RHolds held => held = old \/ held = new
     | RDone r => r = searchChunks old q topK \/ r = searchChunks new q topK
     end)
  /\ (exists c, steps vid chunks embeddings md q topK init c
                /\ c_reader c = RDone (searchChunks old q topK))
  /\ (List.length chunks = List.length embeddings ->
      exists c, steps vid chunks embeddings md q topK init c
                /\ c_writer c = WDone
                /\ c_reader c = RDone (searchChunks new q topK)).
Proof.
  intros init old new. repeat split.
  - intros c Hrun.
    apply (steps_consistent vid chunks embeddings md q topK vectorStore) in Hrun.
    + exact (proj2 Hrun).
    + split; cbn; auto.
  - eexists. split.
    + eapply steps_more; [eapply steps_more; [apply steps_refl|]|].
      * apply step_get.
      * apply step_search.
    + reflexivity.
  - intros Hlen. eexists. split; [|split].
    + eapply steps_more; [eapply steps_more; [eapply steps_more;
        [eapply steps_more; [apply steps_refl|]|]|]|].
      * apply step_build. exact Hlen.
      * apply step_set.
      * apply step_get.
      * apply step_search.
    + reflexivity.
    + cbn. unfold getChunks. rewrite lookup_insert_eq. reflexivity.
Qed.

(** The theorem at a run in which the reader takes the array before the
    writer's [set] and searches after it: the result is that of the old
    collection. *)
Lemma search_sees_old_or_new_witness :
  let old := getChunks tieStore (js "tie") in
  let new := buildVectorChunks (js "tie") [chunkAt 0 "only"] [[1]%float] [] in
  let r := searchChunks old [1]%float 3 in
  List.length old = 2%nat /\ List.length new = 1%nat
  /\ (r = searchChunks old [1]%float 3 \/ r = searchChunks new [1]%float 3).
Proof.
  intros old new r. split; [reflexivity|]. split; [reflexivity|].
  apply (proj1 (search_sees_old_or_new tieStore (js "tie") [chunkAt 0 "only"]
                  [[1]%float] [] [1]%float 3)
           {| c_store := <[js "tie" := new]> tieStore;
              c_writer := WDone; c_reader := RDone r |}).
  eapply steps_more; [eapply steps_more; [eapply steps_more;
    [eapply steps_more; [apply steps_refl|]|]|]|].
  - apply step_build. reflexivity.
  - apply step_get.
  - apply step_set.
  - apply step_search.
Defined.

End AtomicityTheorem.

(** ** Chunk indices *)

Section ChunkIndices.
Import Chunking Spec Examples.

Lemma contiguous_push (cs : list Chunk) (c : Chunk) :
  contiguousIndices cs -> index c = List.length cs ->
  contiguousIndices (cs ++ [c]).
Proof.
  unfold contiguousIndices. intros H Hc.
  rewrite List.map_app, List.length_app, H. cbn.
  rewrite seq_app. cbn. now rewrite Hc.
Qed.

Lemma pushCurrent_indexed (st : TextState) : indexed st -> indexed (pushCurrent st).
Proof.
  unfold indexed, pushCurrent. cbn. intros [Hi Hc]. split.
  - rewrite List.length_app. cbn. lia.
  - apply contiguous_push; [exact Hc|exact Hi].
Qed.

Lemma setCurrent_indexed (st : TextState) (cur : list jsstring) (n : nat) :
  indexed st -> indexed (setCurrent st cur n).
Proof. unfold indexed, setCurrent. cbn. auto. Qed.

Lemma sentenceStep_indexed (targetWords : Z) (st : TextState) (sentence : jsstring) :
  indexed st -> indexed (sentenceStep targetWords st sentence).
Proof.
  intros H. unfold sentenceStep.
  destruct (targetWords <? _)%Z.
  - set (st1 := if hasContent st then _ else st).
    assert (indexed st1) as [Hi Hc].
    { subst st1. destruct (hasContent st);
        auto using setCurrent_indexed, pushCurrent_indexed. }
    unfold indexed. cbn. split.
    + rewrite List.length_app. cbn. lia.
    + apply contiguous_push; [exact Hc|exact Hi].
  - destruct (_ <=? targetWords)%Z; [now apply setCurrent_indexed|].
    apply setCurrent_indexed.
    destruct (hasContent st); auto using pushCurrent_indexed.
Qed.

Lemma fold_sentenceStep_indexed (targetWords : Z) (sentences : list jsstring) :
  forall st, indexed st ->
             indexed (fold_left (sentenceStep targetWords) sentences st).
Proof.
  induction sentences as [|s sentences IH]; intros st H; cbn; [exact H|].
  apply IH. now apply sentenceStep_indexed.
Qed.

Lemma chunkText_contiguous (text : jsstring) (targetWords : Z) :
  contiguousIndices (chunkText text targetWords).
Proof.
  unfold chunkText. destruct (_ || _); [reflexivity|].
  set (st := fold_left _ _ _).
  assert (indexed st) as Hst.
  { apply fold_sentenceStep_indexed. split; reflexivity. }
  set (st' := if hasContent st then pushCurrent st else st).
  assert (indexed st') as [_ Hc].
  { subst st'. destruct (hasContent st); auto using pushCurrent_indexed. }
  destruct (_ || _); [reflexivity|exact Hc].
Qed.

Lemma chunkTranscriptSimple_contiguous (transcript : list Segment) (targetWords : Z) :
  contiguousIndices (chunkTranscriptSimple transcript targetWords).
Proof.
  unfold chunkTranscriptSimple, contiguousIndices.
  rewrite List.map_map, List.length_map. cbn.
  apply chunkText_contiguous.
Qed.

Lemma windowBody_contiguous (transcript : list Segment) (i : Z) (cs : list Chunk) :
  contiguousIndices cs -> contiguousIndices (windowBody transcript i cs).
Proof.
  intros H. unfold windowBody.
  destruct (slice transcript i (i + SEGMENTS_PER_CHUNK)); [exact H|].
  destruct (Nat.ltb _ 10); [exact H|].
  apply contiguous_push; [exact H|reflexivity].
Qed.

Lemma windowLoop_contiguous (transcript : list Segment) (OVERLAP : Z) (fuel : nat) :
  forall (i : Z) (cs out : list Chunk),
    contiguousIndices cs ->
    windowLoop fuel transcript OVERLAP i cs = Some out ->
    contiguousIndices out.
Proof.
  induction fuel as [|fuel IH]; intros i cs out Hc H; cbn in H; [discriminate|].
  destruct (i <? _)%Z.
  - eapply IH; [|exact H]. now apply windowBody_contiguous.
  - injection H as <-. exact Hc.
Qed.

(** With a stride of at least one the loop ends within as many rounds as
    there are positions left, and one more for the last test. *)
Lemma windowLoop_returns (transcript : list Segment) (OVERLAP : Z) (fuel : nat) :
  (OVERLAP < SEGMENTS_PER_CHUNK)%Z ->
  forall (i : Z) (cs : list Chunk),
    (Z.max 0 (Z.of_nat (List.length transcript) - i) < Z.of_nat fuel)%Z ->
    exists out, windowLoop fuel transcript OVERLAP i cs = Some out.
Proof.
  unfold SEGMENTS_PER_CHUNK.
  intros Ho. induction fuel as [|fuel IH]; intros i cs Hf; cbn; [lia|].
  destruct (Z.ltb_spec i (Z.of_nat (List.length transcript))); [|eauto].
  apply IH. unfold SEGMENTS_PER_CHUNK. lia.
Qed.

(** With a stride of zero or less the position never passes the end. *)
Lemma windowLoop_stuck (transcript : list Segment) (OVERLAP : Z) (fuel : nat) :
  (SEGMENTS_PER_CHUNK <= OVERLAP)%Z ->
  forall (i : Z) (cs : list Chunk),
    (i < Z.of_nat (List.length transcript))%Z ->
    windowLoop fuel transcript OVERLAP i cs = None.
Proof.
  unfold SEGMENTS_PER_CHUNK.
  intros Ho. induction fuel as [|fuel IH]; intros i cs Hi; cbn; [reflexivity|].
  destruct (Z.ltb_spec i (Z.of_nat (List.length transcript))); [|lia].
  apply IH. unfold SEGMENTS_PER_CHUNK. lia.
Qed.

(** C8. The chunks that [chunkText] returns, and those that
    [chunkTranscript] returns in either mode, carry the indices
    [0 .. N-1] in output order, whatever was dropped on the way; and
    [chunkTranscript] does return, within [transcript.length + 1] rounds of
    its loop, when the overlap is below the window size. *)
Theorem chunk_indices_contiguous :
  (forall (text : jsstring) (targetWords : Z),
     contiguousIndices (chunkText text targetWords))
  /\ (forall (fuel : nat) (transcript : list Segment) (targetWords overlap : Z)
             (out : list Chunk),
        chunkTranscript fuel transcript targetWords overlap = Some out ->
        contiguousIndices out)
  /\ (forall (transcript : list Segment) (targetWords overlap : Z),
        (overlap < SEGMENTS_PER_CHUNK)%Z ->
        exists out,
          chunkTranscript (S (List.length transcript)) transcript targetWords overlap
          = Some out).
Proof.
  repeat split.
  - apply chunkText_contiguous.
  - intros fuel transcript targetWords overlap out H. unfold chunkTranscript in H.
    destruct (_ || _).
    + injection H as <-. apply chunkTranscriptSimple_contiguous.
    + eapply windowLoop_contiguous; [|exact H]. reflexivity.
  - intros transcript targetWords overlap Ho. unfold chunkTranscript.
    destruct (_ || _); [eauto|].
    apply windowLoop_returns; [exact Ho|lia].
Qed.

Lemma chunk_indices_contiguous_witness :
  exists out,
    chunkTranscript 11 tenSegments 500 1 = Some out
    /\ List.map index out = [0; 1; 2]%nat
    /\ contiguousIndices out.
Proof.
  destruct chunk_indices_contiguous as (_ & Hidx & Hret).
  eexists. split; [vm_compute; reflexivity|]. split; [reflexivity|].
  apply (Hidx 11%nat tenSegments 500%Z 1%Z). vm_compute. reflexivity.
Defined.

End ChunkIndices.

(** ** The window loop and the end timestamp *)

Section ChunkTranscript.
Import Chunking Spec Examples.

(** In windowed mode an overlap of the window size or more leaves the loop
    without an end. *)
Lemma chunkTranscript_never_returns (transcript : list Segment)
  (targetWords overlap : Z) (fuel : nat) :
  (10 <= List.length transcript)%nat -> (SEGMENTS_PER_CHUNK <= overlap)%Z ->
  chunkTranscript fuel transcript targetWords overlap = None.
Proof.
  intros Hlen Ho. unfold chunkTranscript.
  destruct (Z.leb_spec overlap 0); [unfold SEGMENTS_PER_CHUNK in Ho; lia|].
  destruct (Nat.ltb_spec (List.length transcript) 10); [lia|]. cbn [orb].
  apply windowLoop_stuck; [exact Ho|lia].
Qed.

(** C2, on the code: with ten segments and [overlapSegments = 5] the
    stride [5 - 5] is zero, nothing clamps the overlap, and no number of
    rounds ends the loop. *)
Theorem chunkTranscript_overlap_5_loops :
  forall (fuel : nat) (targetWords : Z),
    chunkTranscript fuel tenSegments targetWords 5 = None.
Proof.
  intros fuel targetWords. apply chunkTranscript_never_returns.
  - cbn. lia.
  - unfold SEGMENTS_PER_CHUNK. lia.
Qed.

Lemma join_length_cons (sep x : jsstring) (l : list jsstring) :
  List.length (join sep (x :: l))
  = (List.length x
     + match l with [] => 0 | _ => List.length sep + List.length (join sep l) end)%nat.
Proof.
  destruct l; cbn [join]; [lia|]. now rewrite !List.length_app.
Qed.

(** The lookup of [chunkTranscriptSimple] finds no item for a position at
    or behind the end of the combined text: the end offset of a chunk is
    exclusive, and the test [pos < textPos + itemLength] is strict. *)
Lemma findItem_past_end {A} (f : Segment -> A) (transcript : list Segment) :
  forall pos textPos : nat,
    (textPos + List.length (combineTranscript transcript) <= pos)%nat ->
    findItem pos textPos f transcript = None.
Proof.
  unfold combineTranscript.
  induction transcript as [|item rest IH]; intros pos textPos H; cbn [findItem];
    [reflexivity|].
  cbn [List.map] in H. rewrite join_length_cons in H.
  destruct (Nat.ltb_spec pos (textPos + List.length (seg_text item))) as [Hlt|Hge].
  { exfalso. destruct (List.map seg_text rest); lia. }
  rewrite andb_false_r.
  destruct rest as [|item' rest]; [reflexivity|].
  apply IH. cbn [List.map] in H |- *.
  change (List.length (js " ")) with 1%nat in H. lia.
Qed.

(** C3, on the code: the scenario gives one chunk with both sentences and
    the start timestamp 0, but its end offset 28 is the length of the
    combined text, so the lookup of the end timestamp finds no item and the
    end timestamp stays [undefined]. *)
Theorem chunkTranscript_hello_end_timestamp :
  forall (fuel : nat) (overlap : Z),
    chunkTranscript fuel helloTranscript 500 overlap
    = Some [{| text := js "Hello world. This is a test.";
               index := 0; startOffset := 0; endOffset := 28; wordCount := 6;
               timestamp := Some 0%float;
               endTimestamp := None |}].
Proof.
  intros fuel overlap. unfold chunkTranscript.
  replace ((overlap <=? 0)%Z || Nat.ltb (List.length helloTranscript) 10)
    with true by (now rewrite orb_true_r).
  vm_compute. reflexivity.
Qed.

End ChunkTranscript.

(* ================================================================= *)
(** * Further proofs *)

(** ** White space and words *)

Section Blanks.
Import Chunking ChunkingSpec.

Lemma isSpace_terminator (c : N) : isTerminator c = true -> isSpace c = false.
Proof.
  unfold isTerminator, isSpace. intros H.
  repeat (apply orb_true_iff in H as [H|H]); apply N.eqb_eq in H; subst;
    reflexivity.
Qed.

Lemma trimStart_blank (s : jsstring) : blank s -> trimStart s = [].
Proof.
  induction 1 as [|c s Hc _ IH]; cbn; [reflexivity|]. now rewrite Hc.
Qed.

Lemma trim_blank (s : jsstring) : blank s -> trim s = [].
Proof.
  intros H. unfold trim, trimEnd. now rewrite (trimStart_blank s H).
Qed.

Lemma trimStart_nonBlank (s : jsstring) :
  nonBlank s ->
  exists c rest, trimStart s = c :: rest /\ isSpace c = false.
Proof.
  induction 1 as [c s Hc|c s _ IH]; cbn.
  - rewrite Hc. eauto.
  - destruct (isSpace c) eqn:E; eauto.
Qed.

Lemma trimStart_app_nonBlank (s t : jsstring) :
  nonBlank s -> trimStart (s ++ t) = trimStart s ++ t.
Proof.
  induction 1 as [c s Hc|c s _ IH]; cbn.
  - now rewrite Hc.
  - destruct (isSpace c); [exact IH|reflexivity].
Qed.

(** Trimming keeps a code unit that is not white space, and with it the
    first and the last such code unit. *)
Lemma trim_nonBlank (s : jsstring) : nonBlank s -> nonBlank (trim s).
Proof.
  intros H. unfold trim, trimEnd.
  destruct (trimStart_nonBlank s H) as (c & rest & E & Hc). rewrite E.
  assert (nonBlank (rev (c :: rest))) as Hr.
  { unfold nonBlank. rewrite Exists_exists. exists c. split; [|exact Hc].
    apply list_elem_of_In, in_rev. rewrite rev_involutive. now left. }
  destruct (trimStart_nonBlank _ Hr) as (d & rest' & E' & Hd). rewrite E'.
  unfold nonBlank. rewrite Exists_exists. exists d. split; [|exact Hd].
  apply list_elem_of_In, in_rev. rewrite rev_involutive. now left.
Qed.

(** While a run of white space is read the piece being read is empty. *)
Lemma splitSpacesFrom_nonempty_piece (s cur : jsstring) (inRun : bool) :
  (inRun = true -> cur = []) ->
  cur <> [] \/ nonBlank s ->
  Exists (fun w => w <> []) (splitSpacesFrom cur inRun s).
Proof.
  revert cur inRun. induction s as [|c s IH]; intros cur inRun Hrun H; cbn.
  - destruct H as [H|H]; [now constructor|inversion H].
  - destruct (isSpace c) eqn:E.
    + destruct inRun.
      * rewrite (Hrun eq_refl) in H. apply IH; [reflexivity|].
        destruct H as [H|H]; [congruence|].
        inversion H; subst; [congruence|now right].
      * destruct cur as [|x cur]; [|constructor; discriminate].
        apply Exists_cons_tl. apply IH; [reflexivity|].
        destruct H as [H|H]; [congruence|].
        inversion H; subst; [congruence|now right].
    + apply IH; [discriminate|]. left. now destruct cur.
Qed.

Lemma words_nonBlank (s : jsstring) : nonBlank s -> words s <> [].
Proof.
  intros H. unfold words, splitSpaces.
  pose proof (splitSpacesFrom_nonempty_piece s [] false ltac:(discriminate)
                (or_intror H)) as Hex.
  apply Exists_exists in Hex as (w & Hw & Hne). intros E.
  assert (In w (List.filter (fun w => negb (Nat.eqb (List.length w) 0))
                            (splitSpacesFrom [] false s))) as Hin.
  { apply filter_In. split; [now apply list_elem_of_In|].
    destruct w; [congruence|reflexivity]. }
  rewrite E in Hin. exact Hin.
Qed.

(** A string that is not blank has a trimmed text and at least one word. *)
Lemma nonBlank_counts (s : jsstring) :
  nonBlank s -> trim s <> [] /\ (1 <= List.length (words (trim s)))%nat.
Proof.
  intros H. pose proof (trim_nonBlank s H) as Ht. split.
  - intros E. rewrite E in Ht. inversion Ht.
  - pose proof (words_nonBlank _ Ht). destruct (words (trim s)); [congruence|].
    cbn. lia.
Qed.

Lemma blank_or_nonBlank (s : jsstring) : blank s \/ nonBlank s.
Proof.
  induction s as [|c s [IH|IH]].
  - left. constructor.
  - destruct (isSpace c) eqn:E.
    + left. now constructor.
    + right. now constructor.
  - right. now apply Exists_cons_tl.
Qed.

End Blanks.

(** ** Sentences *)

Section Sentences.
Import Chunking ChunkingSpec.

Lemma nonBlank_app_r (s t : jsstring) : nonBlank t -> nonBlank (s ++ t).
Proof. unfold nonBlank. rewrite Exists_app. auto. Qed.

Lemma nonBlank_app_l (s t : jsstring) : nonBlank s -> nonBlank (s ++ t).
Proof. unfold nonBlank. rewrite Exists_app. auto. Qed.

Lemma nonBlank_terminator (c : N) : isTerminator c = true -> nonBlank [c].
Proof. intros H. constructor. now apply isSpace_terminator. Qed.

(** Every match of the sentence pattern ends in a terminator, so it is not
    blank. *)
Lemma matchSentencesFrom_nonBlank (s : jsstring) :
  forall (st : scan) (cur : jsstring),
    (st = InEnd -> nonBlank cur) ->
    Forall nonBlank (matchSentencesFrom st cur s).
Proof.
  induction s as [|c s IH]; intros st cur Hcur; cbn.
  - destruct st; constructor; auto.
  - destruct st; destruct (isTerminator c) eqn:E;
      try (apply IH; intros; try discriminate;
           auto using nonBlank_app_r, nonBlank_app_l, nonBlank_terminator).
    constructor; [auto|]. apply IH. discriminate.
Qed.

Lemma sentencesOf_nonBlank (text : jsstring) :
  nonBlank text -> Forall nonBlank (sentencesOf text).
Proof.
  intros H. unfold sentencesOf.
  pose proof (matchSentencesFrom_nonBlank text Skipping [] ltac:(discriminate))
    as Hm.
  fold (matchSentences text) in Hm.
  destruct (matchSentences text); [repeat constructor; exact H|exact Hm].
Qed.

Lemma sentencesOf_nonempty (text : jsstring) : sentencesOf text <> [].
Proof. unfold sentencesOf. destruct (matchSentences text); discriminate. Qed.

End Sentences.

(** ** Packing sentences into chunks *)

Section Packing.
Import Chunking ChunkingSpec.

Lemma sumWords_app (g h : list jsstring) : sumWords (g ++ h) = (sumWords g + sumWords h)%nat.
Proof. unfold sumWords. now rewrite List.map_app, list_sum_app. Qed.

Lemma sumWords_one (s : jsstring) : sumWords [s] = List.length (words s).
Proof. unfold sumWords. cbn. lia. Qed.

Lemma hasContent_spec (st : TextState) :
  (hasContent st = true /\ currentChunk st <> [])
  \/ (hasContent st = false /\ currentChunk st = []).
Proof.
  unfold hasContent. destruct (currentChunk st); cbn; [right|left]; auto.
Qed.

(** Saving the chunk that is being filled adds its group. *)
Lemma pushCurrent_packs (targetWords : Z) (st : TextState)
  (groups : list (list jsstring)) :
  Forall2 (packs targetWords) (chunks st) groups ->
  currentChunk st <> [] ->
  currentWordCount st = sumWords (currentChunk st) ->
  (Z.of_nat (currentWordCount st) <= targetWords)%Z ->
  Forall2 (packs targetWords) (chunks (pushCurrent st)) (groups ++ [currentChunk st]).
Proof.
  intros HF Hne Hsum Hle. unfold pushCurrent. cbn [chunks].
  apply Forall2_app; [exact HF|]. constructor; [|constructor].
  unfold packs. cbn. auto.
Qed.

Local Ltac same_sentences Hdone :=
  rewrite ?concat_app; cbn [concat]; rewrite ?app_nil_r; rewrite <- Hdone;
  rewrite <- ?app_assoc; reflexivity.

Lemma sentenceStep_packed (targetWords : Z) (done : list jsstring)
  (st : TextState) (sentence : jsstring) :
  packed targetWords done st ->
  packed targetWords (done ++ [trim sentence]) (sentenceStep targetWords st sentence).
Proof.
  intros (groups & HF & Hdone & Hsum & Hle). unfold sentenceStep.
  set (n := List.length (words (trim sentence))).
  assert (forall c : Chunk, text c = trim sentence -> wordCount c = n ->
                            packs targetWords c [trim sentence]) as Hone.
  { intros c Ht Hw. unfold packs. rewrite sumWords_one.
    split; [discriminate|]. eauto. }
  destruct (Z.ltb_spec targetWords (Z.of_nat n)) as [Hbig|Hfit].
  - (* a sentence above the target *)
    destruct (hasContent_spec st) as [[-> Hne]|[-> Hnil]].
    + destruct Hle as [Hnil|Hle]; [contradiction|].
      exists ((groups ++ [currentChunk st]) ++ [[trim sentence]]).
      cbn [chunks currentChunk currentWordCount setCurrent].
      split; [|split; [|split]].
      * apply Forall2_app; [now apply pushCurrent_packs|].
        constructor; [|constructor]. now apply Hone.
      * same_sentences Hdone.
      * reflexivity.
      * now left.
    + exists (groups ++ [[trim sentence]]).
      cbn [chunks currentChunk currentWordCount].
      split; [|split; [|split]].
      * apply Forall2_app; [exact HF|].
        constructor; [|constructor]. now apply Hone.
      * rewrite Hnil in *. same_sentences Hdone.
      * exact Hsum.
      * now left.
  - destruct (Z.leb_spec (Z.of_nat (currentWordCount st + n)) targetWords)
      as [Hadd|Hfull].
    + (* the sentence joins the chunk that is being filled *)
      exists groups. unfold setCurrent.
      cbn [chunks currentChunk currentWordCount].
      split; [|split; [|split]].
      * exact HF.
      * same_sentences Hdone.
      * rewrite sumWords_app, sumWords_one, Hsum. reflexivity.
      * now right.
    + (* the chunk is full: it is saved and the sentence starts the next *)
      destruct (hasContent_spec st) as [[-> Hne]|[-> Hnil]].
      * destruct Hle as [Hnil|Hle]; [contradiction|].
        exists (groups ++ [currentChunk st]). unfold setCurrent.
        cbn [chunks currentChunk currentWordCount].
        split; [|split; [|split]].
        -- now apply pushCurrent_packs.
        -- same_sentences Hdone.
        -- now rewrite sumWords_one.
        -- right. fold n. lia.
      * exists groups. unfold setCurrent.
        cbn [chunks currentChunk currentWordCount].
        split; [|split; [|split]].
        -- exact HF.
        -- rewrite Hnil in *. same_sentences Hdone.
        -- now rewrite sumWords_one.
        -- right. fold n. lia.
Qed.

Lemma fold_sentenceStep_packed (targetWords : Z) (sentences : list jsstring) :
  forall (done : list jsstring) (st : TextState),
    packed targetWords done st ->
    packed targetWords (done ++ List.map trim sentences)
           (fold_left (sentenceStep targetWords) sentences st).
Proof.
  induction sentences as [|s sentences IH]; intros done st H; cbn.
  - now rewrite app_nil_r.
  - replace (done ++ trim s :: List.map trim sentences)
      with ((done ++ [trim s]) ++ List.map trim sentences)
      by now rewrite <- app_assoc.
    apply IH. now apply sentenceStep_packed.
Qed.

(** The chunks after the last save, as groups of the trimmed sentences. *)
Lemma chunkText_state_groups (targetWords : Z) (sentences : list jsstring) :
  let st := fold_left (sentenceStep targetWords) sentences initialState in
  let st' := if hasContent st then pushCurrent st else st in
  exists groups : list (list jsstring),
    Forall2 (packs targetWords) (chunks st') groups
    /\ concat groups = List.map trim sentences.
Proof.
  intros st st'.
  destruct (fold_sentenceStep_packed targetWords sentences [] initialState)
    as (groups & HF & Hdone & Hsum & Hle).
  { exists []. cbn. split; [constructor|auto]. }
  fold st in HF, Hdone, Hsum, Hle. cbn [app] in Hdone. subst st'.
  destruct (hasContent_spec st) as [[-> Hne]|[-> Hnil]].
  - destruct Hle as [Hnil|Hle]; [contradiction|].
    exists (groups ++ [currentChunk st]). split.
    + now apply pushCurrent_packs.
    + rewrite concat_app. cbn. now rewrite app_nil_r.
  - exists groups. split; [exact HF|]. rewrite Hnil, app_nil_r in Hdone.
    exact Hdone.
Qed.

End Packing.

(** ** What the chunker returns *)

Section ChunkerResults.
Import Chunking ChunkingSpec Spec Examples.

Lemma join_head_nonempty (sep x : jsstring) (l : list jsstring) :
  x <> [] -> join sep (x :: l) <> [].
Proof. destruct l, x; cbn; congruence. Qed.

Lemma sumWords_positive (g : list jsstring) :
  g <> [] -> Forall (fun s => (1 <= List.length (words s))%nat) g ->
  (1 <= sumWords g)%nat.
Proof.
  intros Hne HF. destruct HF as [|s g Hs _]; [congruence|].
  unfold sumWords. cbn. lia.
Qed.

(** A chunk whose group is made of sentences that are not blank has a word
    and a text. *)
Lemma packs_has_words (targetWords : Z) (chunks : list Chunk)
  (groups : list (list jsstring)) :
  Forall2 (packs targetWords) chunks groups ->
  Forall (fun s => (1 <= List.length (words s))%nat /\ s <> []) (concat groups) ->
  Forall (fun c => (1 <= wordCount c)%nat /\ text c <> []) chunks.
Proof.
  induction 1 as [|c g chunks groups (Hne & Ht & Hw & _) _ IH]; intros HF;
    [constructor|].
  cbn in HF. apply Forall_app in HF as [Hg Hrest].
  constructor; [|now apply IH]. split.
  - rewrite Hw. apply sumWords_positive; [exact Hne|].
    eapply Forall_impl; [exact Hg|]. cbn. tauto.
  - rewrite Ht. destruct Hg as [|s g [_ Hs] _]; [congruence|].
    now apply join_head_nonempty.
Qed.

Lemma trimmed_sentences_have_words (text : jsstring) :
  nonBlank text ->
  Forall (fun s => (1 <= List.length (words s))%nat /\ s <> [])
         (List.map trim (sentencesOf text)).
Proof.
  intros H. pose proof (sentencesOf_nonBlank text H) as HF.
  induction HF as [|s l Hs _ IH]; cbn; constructor; [|exact IH].
  destruct (nonBlank_counts s Hs). auto.
Qed.

(** The chunks of a text that is not blank, as groups of its sentences. *)
Lemma chunkText_groups (text : jsstring) (targetWords : Z) :
  nonBlank text ->
  exists groups : list (list jsstring),
    Forall2 (packs targetWords) (chunkText text targetWords) groups
    /\ concat groups = List.map trim (sentencesOf text).
Proof.
  intros H. unfold chunkText.
  destruct (nonBlank_counts text H) as [Ht Hw].
  destruct (trim text) as [|c tr] eqn:Etrim; [congruence|].
  destruct (words (c :: tr)) as [|w0 ws] eqn:Ewords; [cbn in Hw; lia|].
  cbn [List.length Nat.eqb orb].
  change (match matchSentences text with [] => [text] | ms => ms end)
    with (sentencesOf text).
  destruct (chunkText_state_groups targetWords (sentencesOf text))
    as (groups & HF & Hcat).
  cbv zeta in HF.
  set (st := fold_left (sentenceStep targetWords) (sentencesOf text) initialState) in *.
  set (st' := if hasContent st then pushCurrent st else st) in *.
  exists groups. split; [|exact Hcat].
  pose proof (packs_has_words _ _ _ HF) as Hgood.
  rewrite Hcat in Hgood. specialize (Hgood (trimmed_sentences_have_words text H)).
  destruct (chunks st') as [|c0 rest] eqn:Ec.
  - cbn. exact HF.
  - inversion Hgood as [|? ? [Hc0 _] _]; subst.
    cbn [List.length Nat.eqb orb forallb].
    destruct (wordCount c0) as [|k] eqn:Ek; [lia|].
    cbn [Nat.eqb andb]. exact HF.
Qed.

Lemma chunkText_blank (text : jsstring) (targetWords : Z) :
  blank text -> chunkText text targetWords = [].
Proof.
  intros H. unfold chunkText. now rewrite (trim_blank text H).
Qed.

End ChunkerResults.

Section ChunkerTheorems.
Import Chunking ChunkingSpec Spec Examples.






Lemma trimStart_head (s : jsstring) :
  trimStart s = [] \/ exists c rest, trimStart s = c :: rest /\ isSpace c = false.
Proof.
  induction s as [|c s IH]; cbn; [now left|].
  destruct (isSpace c) eqn:E; [exact IH|right; eauto].
Qed.

Lemma trim_nonempty_nonBlank (s : jsstring) : trim s <> [] -> nonBlank (trim s).
Proof.
  unfold trim, trimEnd. intros H.
  destruct (trimStart_head (rev (trimStart s))) as [E|(c & rest & E & Hc)].
  - rewrite E in H. cbn in H. congruence.
  - rewrite E. unfold nonBlank. rewrite Exists_exists. exists c.
    split; [|exact Hc]. apply list_elem_of_In, in_rev.
    rewrite rev_involutive. now left.
Qed.

Lemma windowBody_hasWords (transcript : list Segment) (i : Z) (chunks : list Chunk) :
  Forall hasWords chunks -> Forall hasWords (windowBody transcript i chunks).
Proof.
  intros H. unfold windowBody.
  destruct (slice transcript i (i + SEGMENTS_PER_CHUNK)) as [|s0 rest];
    [exact H|].
  remember (trim (join (js " ") (List.map seg_text (s0 :: rest)))) as t eqn:Et.
  destruct (Nat.ltb_spec (List.length t) 10) as [|Hlen]; [exact H|].
  apply Forall_app. split; [exact H|]. constructor; [|constructor].
  assert (t <> []) as Hne by (destruct t; cbn in Hlen; [lia|discriminate]).
  unfold hasWords. cbn. split; [|exact Hne].
  assert (nonBlank t) as Hnb by (rewrite Et in *; now apply trim_nonempty_nonBlank).
  pose proof (words_nonBlank t Hnb) as Hw.
  destruct (words t); [congruence|cbn; lia].
Qed.

Lemma windowLoop_hasWords (transcript : list Segment) (o : Z) (fuel : nat) :
  forall (i : Z) (chunks out : list Chunk),
    Forall hasWords chunks ->
    windowLoop fuel transcript o i chunks = Some out -> Forall hasWords out.
Proof.
  induction fuel as [|fuel IH]; intros i chunks out H E; cbn in E;
    [discriminate|].
  destruct (i <? _)%Z; [|congruence].
  eapply IH; [|exact E]. now apply windowBody_hasWords.
Qed.

Lemma chunkText_hasWords (text : jsstring) (targetWords : Z) :
  Forall hasWords (chunkText text targetWords).
Proof.
  destruct (blank_or_nonBlank text) as [H|H].
  - rewrite chunkText_blank by exact H. constructor.
  - destruct (chunkText_groups text targetWords H) as (groups & HF & Hcat).
    apply (packs_has_words _ _ _ HF). rewrite Hcat.
    now apply trimmed_sentences_have_words.
Qed.

(** X2. No chunk that the chunker returns is empty: every chunk of
    [chunkText] and of [chunkTranscript], in either mode, has a text that is
    not empty and a word count of at least one. *)
Theorem chunks_have_words :
  (forall (text : jsstring) (targetWords : Z),
     Forall hasWords (chunkText text targetWords))
  /\ (forall (fuel : nat) (transcript : list Segment) (targetWords overlap : Z)
             (out : list Chunk),
        chunkTranscript fuel transcript targetWords overlap = Some out ->
        Forall hasWords out).
Proof.
  split; [apply chunkText_hasWords|].
  intros fuel transcript targetWords overlap out E. unfold chunkTranscript in E.
  destruct (_ || _).
  - injection E as <-. unfold chunkTranscriptSimple.
    pose proof (chunkText_hasWords (combineTranscript transcript) targetWords) as H.
    induction H as [|c l Hc _ IH]; cbn; constructor; auto.
  - eapply windowLoop_hasWords; [|exact E]. constructor.
Qed.

Lemma chunks_have_words_witness :
  Forall hasWords (match chunkTranscript 11 tenSegments 500 1 with
                   | Some out => out
                   | None => []
                   end).
Proof.
  apply (proj2 chunks_have_words 11%nat tenSegments 500%Z 1%Z).
  vm_compute. reflexivity.
Defined.

(** X3. [chunkText] keeps a chunk within the target unless it cannot:
    every chunk has at most [targetWords] words, or it is one sentence of
    the text alone (a sentence above the target is never split). *)
Theorem chunkText_within_target (input : jsstring) (targetWords : Z) :
  Forall (fun c =>
            (Z.of_nat (wordCount c) <= targetWords)%Z
            \/ exists s, In s (sentencesOf input)
                         /\ text c = trim s
                         /\ wordCount c = List.length (words (trim s)))
         (chunkText input targetWords).
Proof.
  destruct (blank_or_nonBlank input) as [H|H].
  - rewrite chunkText_blank by exact H. constructor.
  - destruct (chunkText_groups input targetWords H) as (groups & HF & Hcat).
    assert (Forall (fun g => forall s', In s' g ->
                                        exists s, In s (sentencesOf input) /\ s' = trim s)
                   groups) as Hsrc.
    { apply Forall_forall. intros g Hg s' Hs'.
      assert (In s' (concat groups)) as Hin.
      { apply in_concat. exists g. split; [now apply list_elem_of_In|exact Hs']. }
      rewrite Hcat in Hin. apply in_map_iff in Hin as (s & <- & Hs). eauto. }
    clear Hcat. induction HF as [|c g chunks groups (Hne & Ht & Hw & Hb) _ IH];
      [constructor|].
    inversion Hsrc as [|? ? Hg Hrest]; subst. constructor; [|now apply IH].
    destruct Hb as [Hle|[s' ->]]; [now left|right].
    destruct (Hg s' ltac:(now left)) as (s & Hs & ->).
    exists s. rewrite Ht, Hw, sumWords_one. auto.
Qed.

(** X4. [chunkText] loses no sentence and repeats none: the chunks of a
    text that is not blank are groups of consecutive sentences of the text,
    each chunk the trimmed sentences of its group joined by single spaces
    with the sum of their word counts, and the groups together are all the
    sentences in order. *)
Theorem chunkText_partitions_sentences (input : jsstring) (targetWords : Z) :
  nonBlank input ->
  exists groups : list (list jsstring),
    Forall2 (fun c g => g <> [] /\ text c = join (js " ") g
                        /\ wordCount c = sumWords g)
            (chunkText input targetWords) groups
    /\ concat groups = List.map trim (sentencesOf input).
Proof.
  intros H. destruct (chunkText_groups input targetWords H) as (groups & HF & Hcat).
  exists groups. split; [|exact Hcat].
  eapply Forall2_impl; [exact HF|]. unfold packs. cbn. tauto.
Qed.

Lemma chunkText_partitions_sentences_witness :
  exists groups : list (list jsstring),
    Forall2 (fun c g => g <> [] /\ text c = join (js " ") g
                        /\ wordCount c = sumWords g)
            (chunkText (js "A b c. D e f g h. I. J k") 3) groups
    /\ concat groups = [js "A b c."; js "D e f g h."; js "I."].
Proof.
  apply (chunkText_partitions_sentences (js "A b c. D e f g h. I. J k") 3).
  constructor. reflexivity.
Defined.

Lemma matchSentencesFrom_plain_body (cur tail : jsstring) :
  Forall (fun c => isTerminator c = false) tail ->
  matchSentencesFrom InBody cur tail = [].
Proof.
  intros H. revert cur. induction H as [|c tail Hc _ IH]; intros cur;
    cbn [matchSentencesFrom]; [reflexivity|].
  rewrite Hc. apply IH.
Qed.

Lemma matchSentencesFrom_plain_end (cur tail : jsstring) :
  Forall (fun c => isTerminator c = false) tail ->
  matchSentencesFrom InEnd cur tail = [cur].
Proof.
  intros H. destruct H as [|c tail Hc H]; cbn [matchSentencesFrom];
    [reflexivity|].
  rewrite Hc. f_equal. now apply matchSentencesFrom_plain_body.
Qed.

Lemma matchSentencesFrom_tail (tail s : jsstring) :
  Forall (fun c => isTerminator c = false) tail ->
  isTerminator (List.last s 0%N) = true ->
  forall (st : scan) (cur : jsstring),
    st <> Skipping ->
    matchSentencesFrom st cur (s ++ tail) = matchSentencesFrom st cur s.
Proof.
  intros Htail. induction s as [|a s IH]; intros Hlast st cur Hst;
    [cbn in Hlast; discriminate|].
  destruct s as [|b s].
  - cbn in Hlast. cbn [app matchSentencesFrom].
    destruct st; [congruence| |]; rewrite Hlast;
      now apply matchSentencesFrom_plain_end.
  - change (List.last (a :: b :: s) 0%N) with (List.last (b :: s) 0%N) in Hlast.
    specialize (IH Hlast). remember (b :: s) as s' eqn:E. clear E.
    change ((a :: s') ++ tail) with (a :: (s' ++ tail)).
    cbn [matchSentencesFrom].
    destruct st; [congruence| |]; destruct (isTerminator a);
      rewrite ?IH by discriminate; reflexivity.
Qed.

Lemma matchSentences_tail (tail s : jsstring) :
  Forall (fun c => isTerminator c = false) tail ->
  isTerminator (List.last s 0%N) = true ->
  matchSentences s <> [] ->
  matchSentences (s ++ tail) = matchSentences s.
Proof.
  intros Htail. unfold matchSentences.
  induction s as [|a s IH]; intros Hlast Hne; [cbn in Hlast; discriminate|].
  destruct s as [|b s].
  - cbn in Hlast. cbn in Hne. rewrite Hlast in Hne. congruence.
  - change (List.last (a :: b :: s) 0%N) with (List.last (b :: s) 0%N) in Hlast.
    specialize (IH Hlast). remember (b :: s) as s' eqn:E. clear E.
    change ((a :: s') ++ tail) with (a :: (s' ++ tail)).
    cbn [matchSentencesFrom] in *.
    destruct (isTerminator a); [now apply IH|].
    now apply matchSentencesFrom_tail.
Qed.

Lemma chunkText_same_sentences (a b : jsstring) (targetWords : Z) :
  nonBlank a -> nonBlank b -> matchSentences a = matchSentences b ->
  matchSentences a <> [] ->
  chunkText a targetWords = chunkText b targetWords.
Proof.
  intros Ha Hb E Hne. unfold chunkText.
  destruct (nonBlank_counts a Ha) as [Ha1 Ha2].
  destruct (nonBlank_counts b Hb) as [Hb1 Hb2].
  assert (forall s : jsstring, s <> [] -> Nat.eqb (List.length s) 0 = false) as Hlen
    by (intros [|] ?; [congruence|reflexivity]).
  assert (forall n, (1 <= n)%nat -> Nat.eqb n 0 = false) as Hpos
    by (intros [|] ?; [lia|reflexivity]).
  rewrite (Hlen _ Ha1), (Hlen _ Hb1), (Hpos _ Ha2), (Hpos _ Hb2). cbn [orb].
  rewrite <- E. destruct (matchSentences a); [congruence|reflexivity].
Qed.

(** X5. [chunkText] drops the text behind the last sentence terminator:
    when the text has a sentence that ends in [.], [!] or [?], whatever
    follows the last terminator (text without a terminator) is in no chunk,
    the chunks are those of the text without it. *)
Theorem chunkText_drops_unterminated_tail
  (s tail : jsstring) (last : N) (targetWords : Z) :
  isTerminator last = true ->
  matchSentences (s ++ [last]) <> [] ->
  Forall (fun c => isTerminator c = false) tail ->
  chunkText ((s ++ [last]) ++ tail) targetWords
  = chunkText (s ++ [last]) targetWords.
Proof.
  intros Hlast Hne Htail.
  assert (nonBlank (s ++ [last])) as Hnb
    by (apply nonBlank_app_r, nonBlank_terminator, Hlast).
  assert (isTerminator (List.last (s ++ [last]) 0%N) = true) as Hl
    by now rewrite last_last.
  apply chunkText_same_sentences.
  - now apply nonBlank_app_l.
  - exact Hnb.
  - now apply matchSentences_tail.
  - now rewrite matchSentences_tail.
Qed.

Lemma chunkText_drops_unterminated_tail_witness :
  chunkText (js "Hello world. and then some more words") 500
  = chunkText (js "Hello world.") 500
  /\ List.map text (chunkText (js "Hello world.") 500) = [js "Hello world."].
Proof.
  split; [|reflexivity].
  apply (chunkText_drops_unterminated_tail
           (js "Hello world") (js " and then some more words") 46%N 500).
  - reflexivity.
  - discriminate.
  - repeat constructor.
Defined.

(** X6. Simple mode leaves the end timestamp undefined at the end of the
    text: a chunk whose end offset is not below the length of the combined
    text has no end timestamp, because the end offset is exclusive and the
    lookup compares with a strict [<]. *)
Theorem chunkTranscript_end_timestamp_undefined
  (fuel : nat) (transcript : list Segment) (targetWords overlap : Z)
  (out : list Chunk) (c : Chunk) :
  simpleMode transcript overlap ->
  chunkTranscript fuel transcript targetWords overlap = Some out ->
  In c out ->
  (List.length (combineTranscript transcript) <= endOffset c)%nat ->
  endTimestamp c = None.
Proof.
  intros Hmode E Hin Hlen. unfold chunkTranscript in E.
  replace (_ || _) with true in E.
  2:{ symmetry. apply orb_true_iff. destruct Hmode as [H|H];
        [left; now apply Z.leb_le|right; now apply Nat.ltb_lt]. }
  injection E as <-. unfold chunkTranscriptSimple in Hin.
  apply in_map_iff in Hin as (chunk & <- & _).
  cbn [endTimestamp endOffset] in *.
  apply findItem_past_end. lia.
Qed.

Lemma chunkTranscript_end_timestamp_undefined_witness :
  exists c : Chunk,
    chunkTranscript 0 helloTranscript 500 1 = Some [c]
    /\ endOffset c = 28%nat /\ endTimestamp c = None.
Proof.
  eexists. split; [vm_compute; reflexivity|]. split; [reflexivity|].
  eapply (chunkTranscript_end_timestamp_undefined 0%nat helloTranscript 500%Z 1%Z).
  - right. cbn. lia.
  - vm_compute. reflexivity.
  - now left.
  - vm_compute. lia.
Defined.

Lemma spansFrom_snoc (c : Chunk) (l : list Chunk) :
  forall a : nat,
    spansFrom a l -> startOffset c = spanEnd a l ->
    (spanEnd a l <= endOffset c)%nat ->
    spansFrom a (l ++ [c]) /\ spanEnd a (l ++ [c]) = S (endOffset c).
Proof.
  induction l as [|x l IH]; intros a Hl Hs He; cbn in *; [auto|].
  destruct Hl as (H1 & H2 & H3).
  destruct (IH _ H3 Hs He) as [IH1 IH2]. auto.
Qed.

Lemma pushCurrent_chained (st : TextState) : chained st -> chained (pushCurrent st).
Proof.
  intros [H1 H2]. unfold chained, pushCurrent.
  cbn [chunks startOffsetVar].
  set (c := Build_Chunk _ _ _ _ _ _ _).
  destruct (spansFrom_snoc c (chunks st) 0 H1) as [H3 H4];
    subst c; cbn [startOffset endOffset]; [congruence|lia|].
  split; [exact H3|]. rewrite H4. cbn [endOffset]. lia.
Qed.

Lemma sentenceStep_chained (targetWords : Z) (st : TextState) (sentence : jsstring) :
  chained st -> chained (sentenceStep targetWords st sentence).
Proof.
  intros H. unfold sentenceStep.
  destruct (_ <? _)%Z.
  - set (st1 := if hasContent st then _ else st).
    assert (chained st1) as [H1 H2].
    { subst st1. destruct (hasContent st); [|exact H].
      apply pushCurrent_chained in H. exact H. }
    unfold chained. cbn [chunks startOffsetVar].
    set (c := Build_Chunk _ _ _ _ _ _ _).
    destruct (spansFrom_snoc c (chunks st1) 0 H1) as [H3 H4];
      subst c; cbn [startOffset endOffset]; [congruence|lia|].
    split; [exact H3|]. rewrite H4. cbn [endOffset]. lia.
  - destruct (_ <=? _)%Z; [exact H|].
    destruct (hasContent st); [|exact H].
    apply pushCurrent_chained in H. exact H.
Qed.

Lemma chunkText_chained (input : jsstring) (targetWords : Z) :
  spansFrom 0 (chunkText input targetWords).
Proof.
  unfold chunkText. destruct (_ || _); [exact I|].
  set (sentences := match matchSentences input with [] => _ | _ => _ end).
  assert (forall st, chained st ->
                     chained (fold_left (sentenceStep targetWords) sentences st)) as Hfold.
  { clearbody sentences. induction sentences as [|s l IH]; intros st H; cbn;
      [exact H|]. now apply IH, sentenceStep_chained. }
  specialize (Hfold initialState (conj I eq_refl)).
  set (st := fold_left _ _ _) in *. clearbody st.
  assert (chained (if hasContent st then pushCurrent st else st)) as [H _].
  { destruct (hasContent st); [now apply pushCurrent_chained|exact Hfold]. }
  destruct (_ || _); [exact I|exact H].
Qed.

Lemma spansFrom_map (f : Chunk -> Chunk) (l : list Chunk) :
  (forall c, startOffset (f c) = startOffset c /\ endOffset (f c) = endOffset c) ->
  forall a, spansFrom a l -> spansFrom a (List.map f l).
Proof.
  intros Hf. induction l as [|c l IH]; intros a H; cbn in *; [exact I|].
  destruct (Hf c) as [-> ->]. destruct H as (H1 & H2 & H3). auto.
Qed.

(** X7. The character spans of the chunks follow one another: in the
    result of [chunkText], and of [chunkTranscriptSimple] which keeps the
    offsets, the first chunk starts at offset 0, no chunk ends before it
    starts, and each next chunk starts one position behind the end of the
    chunk before it. *)
Theorem chunk_spans_follow (input : jsstring) (transcript : list Segment)
  (targetWords : Z) :
  spansFrom 0 (chunkText input targetWords)
  /\ spansFrom 0 (chunkTranscriptSimple transcript targetWords).
Proof.
  split; [apply chunkText_chained|].
  unfold chunkTranscriptSimple. apply spansFrom_map; [now intros c|].
  apply chunkText_chained.
Qed.

Lemma findItem_before {A} (f : Segment -> A) (transcript : list Segment) :
  forall pos textPos : nat,
    (pos < textPos)%nat -> findItem pos textPos f transcript = None.
Proof.
  induction transcript as [|item rest IH]; intros pos textPos H; cbn [findItem];
    [reflexivity|].
  destruct (Nat.leb_spec textPos pos); [lia|]. cbn [andb]. apply IH. lia.
Qed.

(** X8. In simple mode the first chunk takes its timestamp from the first
    transcript item: it is that item's offset in seconds, and it is
    undefined when the text of the first item is empty, whatever the items
    behind it hold. *)
Theorem chunkTranscriptSimple_first_timestamp
  (item : Segment) (rest : list Segment) (targetWords : Z)
  (c : Chunk) (cs : list Chunk) :
  chunkTranscriptSimple (item :: rest) targetWords = c :: cs ->
  timestamp c = if Nat.eqb (List.length (seg_text item)) 0 then None
                else Some (offset item / 1000)%float.
Proof.
  unfold chunkTranscriptSimple. intros E.
  pose proof (chunkText_chained (combineTranscript (item :: rest)) targetWords) as H.
  destruct (chunkText _ _) as [|c0 cs0]; [discriminate|].
  cbn [List.map] in E. injection E as <- _. destruct H as (H0 & _).
  cbn [timestamp]. rewrite H0. cbn [findItem Nat.leb andb Nat.add].
  destruct (List.length (seg_text item)) as [|n]; [|reflexivity].
  cbn [Nat.ltb Nat.leb Nat.eqb]. apply findItem_before. lia.
Qed.

Lemma chunkTranscriptSimple_first_timestamp_witness :
  exists (c : Chunk) (cs : list Chunk),
    chunkTranscriptSimple [seg "" 0 1000; seg "Hello world." 5000 1000]%float 500
    = c :: cs
    /\ timestamp c = None.
Proof.
  destruct (chunkTranscriptSimple [seg "" 0 1000; seg "Hello world." 5000 1000]%float 500)
    as [|c cs] eqn:E; [vm_compute in E; discriminate|].
  exists c, cs. split; [reflexivity|].
  exact (chunkTranscriptSimple_first_timestamp _ _ _ _ _ E).
Defined.

End ChunkerTheorems.

Section Windows.
Import Chunking ChunkingSpec Spec Examples.

Lemma windowBody_cases (transcript : list Segment) (i : Z) (chunks : list Chunk) :
  windowBody transcript i chunks = chunks
  \/ exists c, windowBody transcript i chunks = chunks ++ [c]
               /\ windowAt transcript i c.
Proof.
  unfold windowBody, windowAt.
  destruct (slice transcript i (i + SEGMENTS_PER_CHUNK)) as [|s0 rest] eqn:E;
    [now left|].
  destruct (Nat.ltb_spec
              (List.length (trim (join (js " ") (List.map seg_text (s0 :: rest))))) 10)
    as [|Hlen]; [now left|].
  right. eexists. split; [reflexivity|].
  exists s0, rest. cbn [text wordCount timestamp endTimestamp startOffset endOffset].
  repeat split; auto.
Qed.

Lemma windowLoop_windows (transcript : list Segment) (o : Z) (fuel : nat) :
  (o < SEGMENTS_PER_CHUNK)%Z ->
  forall (i : Z) (chunks out : list Chunk),
    (0 <= i)%Z ->
    (exists k : Z, i = (k * (SEGMENTS_PER_CHUNK - o))%Z) ->
    windowLoop fuel transcript o i chunks = Some out ->
    exists (starts : list Z) (new : list Chunk),
      out = chunks ++ new
      /\ Forall2 (windowAt transcript) starts new
      /\ StronglySorted Z.lt starts
      /\ Forall (fun j => (i <= j)%Z /\ windowStart transcript o j) starts.
Proof.
  intros Ho. induction fuel as [|fuel IH]; intros i chunks out Hi Hk E;
    cbn [windowLoop] in E; [discriminate|].
  destruct (Z.ltb_spec i (Z.of_nat (List.length transcript))) as [Hlt|Hge].
  2:{ injection E as <-. exists [], []. rewrite app_nil_r.
      repeat split; constructor. }
  assert (exists k : Z, (i + (SEGMENTS_PER_CHUNK - o))%Z
                        = (k * (SEGMENTS_PER_CHUNK - o))%Z) as Hk'.
  { destruct Hk as [k ->]. exists (k + 1)%Z. lia. }
  assert (0 <= i + (SEGMENTS_PER_CHUNK - o))%Z as Hi' by lia.
  destruct (IH _ _ _ Hi' Hk' E) as (starts & new & -> & HF & Hs & Hall).
  destruct (windowBody_cases transcript i chunks) as [->|(c & -> & Hc)].
  - exists starts, new. repeat split; auto.
    eapply Forall_impl; [exact Hall|]. cbn. intros j [Hj Hw]. split; [lia|exact Hw].
  - exists (i :: starts), (c :: new). rewrite <- app_assoc. repeat split; auto.
    + constructor; [exact Hs|].
      eapply Forall_impl; [exact Hall|]. cbn. intros j [Hj _]. lia.
    + constructor; [split; [lia|split; [lia|exact Hk]]|].
      eapply Forall_impl; [exact Hall|]. cbn. intros j [Hj Hw]. split; [lia|exact Hw].
Qed.

(** X19. What the window loop returns: in windowed mode with an overlap
    below the window size, every chunk is a window of up to five transcript
    items that starts at a multiple of the stride, the chunks stand in the
    order of their windows, and each carries the offset of its first item
    and the end of its last item as timestamps, a text of at least ten
    characters, and the character offsets 0 and 0. *)
Theorem chunkTranscript_windows (fuel : nat) (transcript : list Segment)
  (targetWords overlap : Z) (out : list Chunk) :
  windowedMode transcript overlap -> (overlap < SEGMENTS_PER_CHUNK)%Z ->
  chunkTranscript fuel transcript targetWords overlap = Some out ->
  exists starts : list Z,
    Forall2 (windowAt transcript) starts out
    /\ StronglySorted Z.lt starts
    /\ Forall (windowStart transcript overlap) starts.
Proof.
  intros [Hpos Hlen] Ho E. unfold chunkTranscript in E.
  replace (_ || _) with false in E.
  2:{ symmetry. apply orb_false_iff. split; [now apply Z.leb_gt|now apply Nat.ltb_ge]. }
  destruct (windowLoop_windows transcript overlap fuel Ho 0 [] out)
    as (starts & new & -> & HF & Hs & Hall); [lia|exists 0%Z; lia|exact E|].
  exists starts. repeat split; auto.
  eapply Forall_impl; [exact Hall|]. cbn. tauto.
Qed.

Lemma chunkTranscript_windows_witness :
  exists (out : list Chunk) (starts : list Z),
    chunkTranscript 11 tenSegments 500 1 = Some out
    /\ List.length out = 3%nat
    /\ Forall2 (windowAt tenSegments) starts out
    /\ StronglySorted Z.lt starts
    /\ Forall (windowStart tenSegments 1) starts.
Proof.
  destruct (chunkTranscript 11 tenSegments 500 1) as [out|] eqn:E;
    [|vm_compute in E; discriminate].
  destruct (chunkTranscript_windows 11 tenSegments 500 1 out)
    as (starts & H); [split; [lia|cbn; lia]|reflexivity|exact E|].
  exists out, starts. split; [reflexivity|]. split; [|exact H].
  vm_compute in E. injection E as <-. reflexivity.
Defined.

End Windows.

(* ================================================================= *)
(** ** Further properties of the similarity and the search *)

Section Symmetry.
Import Embeddings.

Lemma float_mul_comm (x y : float) : (x * y = y * x)%float.
Proof.
  apply Prim2SF_inj. rewrite !mul_spec.
  destruct (Prim2SF x) as [sx|sx| |sx mx ex], (Prim2SF y) as [sy|sy| |sy my ey];
    cbn; rewrite ?(xorb_comm sx sy); try reflexivity.
  now rewrite (Pos.mul_comm mx my), (Z.add_comm ex ey).
Qed.

Lemma dotProduct_from_comm (a b : list float) :
  forall s : float,
    fold_left (fun sum (vb : float * float) => (sum + vb.1 * vb.2)%float)
              (combine a b) s
    = fold_left (fun sum (vb : float * float) => (sum + vb.1 * vb.2)%float)
                (combine b a) s.
Proof.
  revert b. induction a as [|x a IH]; intros [|y b] s; cbn; try reflexivity.
  rewrite (float_mul_comm x y). apply IH.
Qed.

(** X9. [cosineSimilarity] does not depend on the order of its arguments:
    for two vectors of one length it returns the same number, bit for bit,
    whichever comes first. *)
Theorem cosineSimilarity_symmetric (a b : list float) :
  List.length a = List.length b ->
  cosineSimilarity a b = cosineSimilarity b a.
Proof.
  intros H. unfold cosineSimilarity. rewrite H, Nat.eqb_refl. cbn [negb].
  unfold dotProduct. rewrite (dotProduct_from_comm a b).
  rewrite (float_mul_comm (magnitude a) (magnitude b)).
  now rewrite orb_comm.
Qed.

Lemma cosineSimilarity_symmetric_witness :
  cosineSimilarity [3; 9; 3; 1]%float [1; 0.5; 0; 0]%float
  = cosineSimilarity [1; 0.5; 0; 0]%float [3; 9; 3; 1]%float.
Proof.
  apply (cosineSimilarity_symmetric [3; 9; 3; 1]%float [1; 0.5; 0; 0]%float).
  reflexivity.
Defined.

End Symmetry.

Section SearchAnyTopK.
Import Chunking Embeddings VectorStore FloatKey Spec SearchSpec Examples.

Lemma mapiM_length (q : list float) (embs : list (list float)) (ms : list Match) :
  mapiM (scoreEntry q) embs = Ok ms -> List.length ms = List.length embs.
Proof.
  intros H. destruct (mapiMFrom_scores q embs 0 ms H) as [_ Hidx].
  apply (f_equal (@List.length nat)) in Hidx.
  now rewrite List.length_map, length_seq in Hidx.
Qed.

Lemma slice_from_zero_length {A} (l : list A) (k : Z) :
  List.length (slice l 0 k)
  = if (k <? 0)%Z then (List.length l - Z.to_nat (- k))%nat
    else Nat.min (Z.to_nat k) (List.length l).
Proof.
  unfold slice, sliceIndex. change (0 <? 0)%Z with false. cbv iota.
  rewrite (Z.min_l 0) by lia. change (Z.to_nat 0) with 0%nat.
  rewrite skipn_O, length_take.
  destruct (Z.ltb_spec k 0); lia.
Qed.

(** What [searchSimilar] computes, for any [topK]: the scored entries of
    the stored embeddings, sorted and sliced, each turned into a match. *)
Lemma searchChunks_scored (chunks : list VectorChunk) (q : list float) (k : Z)
  (found : list Found) :
  searchChunks chunks q k = Ok found ->
  exists ms : list Match,
    mapiM (scoreEntry q) (List.map embedding chunks) = Ok ms
    /\ Forall2 (fun m f => chunks !! m_index m = Some (found_chunk f)
                           /\ found_similarity f = similarity m)
               (slice (sort bySimilarity ms) 0 k) found.
Proof.
  intros H. unfold searchChunks in H. destruct chunks as [|c chunks].
  - cbn in H. injection H as <-. exists []. split; [reflexivity|].
    unfold slice. cbn [sort fold_right]. rewrite skipn_nil, firstn_nil.
    constructor.
  - cbn [List.length Nat.eqb] in H. unfold findSimilarEmbeddings in H.
    destruct (mapiM _ _) as [ms|err] eqn:E; cbn in H; [|discriminate].
    injection H as <-. exists ms. split; [reflexivity|].
    apply withSimilarity_defined. apply Forall_forall. intros m Hm.
    apply slice_subset in Hm. rewrite sort_perm in Hm.
    destruct (mapiM_entries _ _ _ E) as [_ Hent].
    rewrite Forall_forall in Hent. destruct (Hent m Hm) as (e & He & _).
    change (List.map embedding (c :: chunks)) with (embedding <$> (c :: chunks)) in He.
    rewrite list_lookup_fmap in He.
    destruct ((c :: chunks) !! m_index m); [eauto|discriminate].
Qed.

Lemma searchChunks_count (chunks : list VectorChunk) (q : list float) (k : Z)
  (found : list Found) :
  searchChunks chunks q k = Ok found ->
  List.length found
  = if (k <? 0)%Z then (List.length chunks - Z.to_nat (- k))%nat
    else Nat.min (Z.to_nat k) (List.length chunks).
Proof.
  intros H. destruct (searchChunks_scored _ _ _ _ H) as (ms & Hms & HF).
  rewrite <- (Forall2_length _ _ _ HF), slice_from_zero_length.
  rewrite (Permutation_length (sort_perm bySimilarity ms)).
  rewrite (mapiM_length _ _ _ Hms), List.length_map. reflexivity.
Qed.

(** X10. The number of matches is fixed by [topK] and the size of the
    collection: a search that returns gives [min(topK, n)] matches of the
    [n] stored records for [topK >= 0], and for a negative [topK] all but
    the last [-topK] of the sorted records ([slice(0, topK)] counts from
    the end). *)
Theorem searchSimilar_count (vectorStore : Store) (vid : jsstring)
  (q : list float) (topK : Z) (found : list Found) :
  searchSimilar vectorStore vid q topK = Ok found ->
  List.length found
  = if (topK <? 0)%Z
    then (List.length (getChunks vectorStore vid) - Z.to_nat (- topK))%nat
    else Nat.min (Z.to_nat topK) (List.length (getChunks vectorStore vid)).
Proof. apply searchChunks_count. Qed.

Lemma searchSimilar_count_witness :
  exists found : list Found,
    searchSimilar toyStore (js "toy") [1; 0]%float (-1) = Ok found
    /\ List.length (getChunks toyStore (js "toy")) = 3%nat
    /\ List.length found = 2%nat.
Proof.
  destruct (searchSimilar toyStore (js "toy") [1; 0]%float (-1)) as [found|err] eqn:E;
    [|vm_compute in E; discriminate].
  exists found. split; [reflexivity|]. split; [reflexivity|].
  exact (searchSimilar_count toyStore (js "toy") [1; 0]%float (-1) found E).
Defined.

Lemma entry_positions_NoDup (q : list float) (embs : list (list float))
  (ms : list Match) (k : Z) :
  mapiM (scoreEntry q) embs = Ok ms ->
  NoDup (List.map m_index (slice (sort bySimilarity ms) 0 k)).
Proof.
  intros H. destruct (mapiMFrom_scores q embs 0 ms H) as [_ Hidx].
  assert (NoDup (List.map m_index (sort bySimilarity ms))) as Hnd.
  { change (List.map m_index ?l) with (m_index <$> l).
    rewrite (sort_perm bySimilarity ms).
    change (m_index <$> ms) with (List.map m_index ms). rewrite Hidx.
    apply NoDup_seq. }
  eapply sublist_NoDup; [exact Hnd|].
  change (List.map m_index ?l) with (m_index <$> l).
  apply fmap_sublist. unfold slice.
  etransitivity; [apply sublist_take|apply sublist_drop].
Qed.

Lemma searchChunks_scoredAt (chunks : list VectorChunk) (q : list float) (k : Z)
  (found : list Found) (ms : list Match) :
  mapiM (scoreEntry q) (List.map embedding chunks) = Ok ms ->
  Forall2 (fun m f => chunks !! m_index m = Some (found_chunk f)
                      /\ found_similarity f = similarity m)
          (slice (sort bySimilarity ms) 0 k) found ->
  Forall2 (scoredAt chunks q) found
          (List.map m_index (slice (sort bySimilarity ms) 0 k)).
Proof.
  intros Hms HF.
  change (List.map m_index ?l) with (m_index <$> l).
  apply Forall2_fmap_r, Forall2_flip.
  destruct (mapiM_entries _ _ _ Hms) as [_ Hent]. rewrite Forall_forall in Hent.
  apply Forall2_same_length_lookup_2; [eapply Forall2_length; exact HF|].
  intros i m f Hm Hf.
  destruct (Forall2_lookup_lr _ _ _ _ _ _ HF Hm Hf) as [Hc Hs].
  split; [exact Hc|].
  assert (m ∈ ms) as Hin.
  { rewrite <- (sort_perm bySimilarity ms). eapply slice_subset.
    eapply list_elem_of_lookup_2. exact Hm. }
  destruct (Hent m Hin) as (e & He & Hcos).
  change (List.map embedding chunks) with (embedding <$> chunks) in He.
  rewrite list_lookup_fmap, Hc in He. injection He as <-.
  now rewrite Hs.
Qed.

(** X11. A search invents nothing: every match is a record of the stored
    collection together with the score that [cosineSimilarity] gives the
    query and that record's embedding, and no stored position is matched
    twice. This holds for every [topK]. *)
Theorem searchSimilar_sound (vectorStore : Store) (vid : jsstring)
  (q : list float) (topK : Z) (found : list Found) :
  searchSimilar vectorStore vid q topK = Ok found ->
  exists positions : list nat,
    NoDup positions
    /\ Forall2 (scoredAt (getChunks vectorStore vid) q) found positions.
Proof.
  unfold searchSimilar. set (chunks := getChunks vectorStore vid). intros H.
  destruct (searchChunks_scored _ _ _ _ H) as (ms & Hms & HF).
  exists (List.map m_index (slice (sort bySimilarity ms) 0 topK)).
  split; [now apply (entry_positions_NoDup q (List.map embedding chunks))|].
  now apply searchChunks_scoredAt.
Qed.

Lemma searchSimilar_sound_witness :
  exists (found : list Found) (positions : list nat),
    searchSimilar toyStore (js "toy") [1; 0]%float 2 = Ok found
    /\ NoDup positions
    /\ Forall2 (scoredAt (getChunks toyStore (js "toy")) [1; 0]%float) found positions.
Proof.
  destruct (searchSimilar toyStore (js "toy") [1; 0]%float 2) as [found|err] eqn:E;
    [|vm_compute in E; discriminate].
  destruct (searchSimilar_sound toyStore (js "toy") [1; 0]%float 2 found E)
    as (positions & Hnd & HF).
  exists found, positions. auto.
Defined.

Lemma entries_notNaN (chunks : list VectorChunk) (q : list float)
  (ms : list Match) :
  scoresNotNaN chunks q ->
  mapiM (scoreEntry q) (List.map embedding chunks) = Ok ms ->
  Forall scoreNotNaN ms.
Proof.
  intros HN Hms. destruct (mapiM_entries _ _ _ Hms) as [_ Hent].
  eapply Forall_impl; [exact Hent|]. intros m (e & He & Hs).
  change (List.map embedding chunks) with (embedding <$> chunks) in He.
  rewrite list_lookup_fmap in He.
  destruct (chunks !! m_index m) as [c|] eqn:Ec; [|discriminate].
  injection He as <-. apply (HN c); [|exact Hs].
  apply list_elem_of_In. eapply list_elem_of_lookup_2. exact Ec.
Qed.

(** X12. The matches are the best of the collection: for [topK >= 0] and
    scores that are not [NaN], a stored record that is not among the
    matches scores no higher than any match. *)
Theorem searchSimilar_best (vectorStore : Store) (vid : jsstring)
  (q : list float) (topK : Z) (found : list Found) :
  (0 <= topK)%Z ->
  scoresNotNaN (getChunks vectorStore vid) q ->
  searchSimilar vectorStore vid q topK = Ok found ->
  exists positions : list nat,
    Forall2 (scoredAt (getChunks vectorStore vid) q) found positions
    /\ forall (p : nat) (c : VectorChunk) (s : float) (f : Found),
         getChunks vectorStore vid !! p = Some c -> p ∉ positions ->
         cosineSimilarity q (embedding c) = Ok s -> f ∈ found ->
         (s <=? found_similarity f)%float = true.
Proof.
  unfold searchSimilar. set (chunks := getChunks vectorStore vid).
  intros Hk HN H.
  destruct (searchChunks_scored _ _ _ _ H) as (ms & Hms & HF).
  exists (List.map m_index (slice (sort bySimilarity ms) 0 topK)).
  split; [now apply searchChunks_scoredAt|].
  intros p c s f Hc Hp Hs Hf.
  pose proof (entries_notNaN _ _ _ HN Hms) as Hnan.
  destruct (mapiM_entries _ _ _ Hms) as [Hasc _].
  pose proof (sort_sorted ms Hnan Hasc) as Hsorted.
  rewrite slice_prefix in HF, Hp by exact Hk.
  (* the scored entry of position [p] *)
  destruct (mapiMFrom_scores q _ 0 ms Hms) as [F2 Hidx].
  assert ((List.map embedding chunks) !! p = Some (embedding c)) as He.
  { change (List.map embedding chunks) with (embedding <$> chunks).
    now rewrite list_lookup_fmap, Hc. }
  destruct (Forall2_lookup_l _ _ _ _ _ F2 He) as (m & Hm & Hcos).
  assert (m_index m = p) as Hmp.
  { assert (List.map m_index ms !! p = Some (m_index m)) as Hl.
    { change (List.map m_index ms) with (m_index <$> ms).
      now rewrite list_lookup_fmap, Hm. }
    rewrite Hidx in Hl. apply lookup_seq in Hl. lia. }
  assert (s = similarity m) as -> by congruence.
  (* it stands behind the prefix that was returned *)
  assert (m ∈ sort bySimilarity ms) as Hin.
  { rewrite sort_perm. eapply list_elem_of_lookup_2. exact Hm. }
  rewrite <- (take_drop (Z.to_nat topK) (sort bySimilarity ms)) in Hin, Hsorted.
  apply elem_of_app in Hin as [Hin|Hin].
  { exfalso. apply Hp. rewrite <- Hmp.
    change (List.map m_index ?l) with (m_index <$> l).
    now apply list_elem_of_fmap_2. }
  apply list_elem_of_lookup_1 in Hf as [i Hf].
  destruct (Forall2_lookup_r _ _ _ _ _ HF Hf) as (a & Ha & _ & ->).
  apply list_elem_of_lookup_2 in Ha.
  pose proof (StronglySorted_app_1_elem_of _ _ _ _ _ Hsorted Ha Hin) as Hprec.
  rewrite <- (sort_perm bySimilarity ms) in Hnan.
  rewrite <- (take_drop (Z.to_nat topK) (sort bySimilarity ms)) in Hnan.
  apply Forall_app in Hnan as [Hn1 Hn2]. rewrite Forall_forall in Hn1, Hn2.
  apply precedes_leb; auto.
Qed.

Lemma searchSimilar_best_witness :
  exists (found : list Found) (positions : list nat),
    searchSimilar toyStore (js "toy") [1; 0]%float 2 = Ok found
    /\ Forall2 (scoredAt (getChunks toyStore (js "toy")) [1; 0]%float) found positions
    /\ forall (p : nat) (c : VectorChunk) (s : float) (f : Found),
         getChunks toyStore (js "toy") !! p = Some c -> p ∉ positions ->
         cosineSimilarity [1; 0]%float (embedding c) = Ok s -> f ∈ found ->
         (s <=? found_similarity f)%float = true.
Proof.
  destruct (searchSimilar toyStore (js "toy") [1; 0]%float 2) as [found|err] eqn:E;
    [|vm_compute in E; discriminate].
  destruct (searchSimilar_best toyStore (js "toy") [1; 0]%float 2 found)
    as (positions & HF & Hbest); [lia| |exact E|].
  - intros c s Hc Hs.
    assert (Forall (fun c => forall s, cosineSimilarity [1; 0]%float (embedding c) = Ok s
                                       -> is_nan s = false)
                   (getChunks toyStore (js "toy"))) as Hall.
    { vm_compute getChunks. repeat constructor; intros s' Hs';
        vm_compute in Hs'; injection Hs' as <-; reflexivity. }
    rewrite Forall_forall in Hall. apply (Hall c); [|exact Hs].
    now apply list_elem_of_In.
  - exists found, positions. auto.
Defined.

End SearchAnyTopK.

(* ================================================================= *)
(** ** Further properties of the store *)

Section StoreFacts.
Import Chunking Embeddings VectorStore Spec Examples.

(** X13. [hasVideo] tells whether a search can find anything: where it is
    false every search returns the empty array, whatever the query and
    [topK]; where it is true a search with [topK >= 1] and a query of the
    stored dimension returns at least one match. *)
Theorem hasVideo_search (vectorStore : Store) (vid : jsstring)
  (q : list float) (topK : Z) :
  (hasVideo vectorStore vid = false ->
   searchSimilar vectorStore vid q topK = Ok [])
  /\ (hasVideo vectorStore vid = true -> (1 <= topK)%Z ->
      sameDimension (getChunks vectorStore vid) q ->
      exists f rest, searchSimilar vectorStore vid q topK = Ok (f :: rest)).
Proof.
  unfold hasVideo, searchSimilar, getChunks.
  destruct (vectorStore !! vid) as [chunks|]; [|split; [reflexivity|discriminate]].
  split; intros H.
  - destruct chunks; [reflexivity|discriminate].
  - intros Hk Hd. destruct (searchChunks_returns chunks q topK Hd) as [found E].
    pose proof (searchChunks_count _ _ _ _ E) as Hlen.
    destruct (Z.ltb_spec topK 0); [lia|].
    destruct chunks; [discriminate|]. cbn [List.length] in Hlen.
    destruct found as [|f rest]; [cbn in Hlen; lia|]. eauto.
Qed.

Lemma hasVideo_search_witness :
  searchSimilar toyStore (js "other") [1; 0]%float 3 = Ok []
  /\ exists f rest, searchSimilar toyStore (js "toy") [1; 0]%float 1 = Ok (f :: rest).
Proof.
  split.
  - apply (proj1 (hasVideo_search toyStore (js "other") [1; 0]%float 3)).
    reflexivity.
  - apply (proj2 (hasVideo_search toyStore (js "toy") [1; 0]%float 1));
      [reflexivity|lia|].
    vm_compute getChunks. repeat constructor.
Defined.

Lemma buildVectorChunks_length (vid : jsstring) (chunks : list ChunkInput)
  (embeddings : list (list float)) (md : list (jsstring * jsstring)) :
  List.length chunks = List.length embeddings ->
  List.length (buildVectorChunks vid chunks embeddings md) = List.length chunks.
Proof.
  intros H. unfold buildVectorChunks.
  rewrite List.length_map, length_combine. lia.
Qed.

(** X14. [storeChunks] replaces, it does not add: a second call under the
    same id leaves the store as if the first had never been made, and
    afterwards the collection has as many records as the second call had
    chunks, so that [hasVideo] is true exactly when there was a chunk. *)
Theorem storeChunks_replaces (vectorStore s1 s2 : Store) (vid : jsstring)
  (chunks1 chunks2 : list ChunkInput) (embeddings1 embeddings2 : list (list float))
  (md1 md2 : list (jsstring * jsstring)) :
  storeChunks vectorStore vid chunks1 embeddings1 md1 = Ok s1 ->
  storeChunks s1 vid chunks2 embeddings2 md2 = Ok s2 ->
  storeChunks vectorStore vid chunks2 embeddings2 md2 = Ok s2
  /\ List.length (getChunks s2 vid) = List.length chunks2
  /\ hasVideo s2 vid = negb (Nat.eqb (List.length chunks2) 0).
Proof.
  unfold storeChunks. intros H1 H2.
  destruct (Nat.eqb_spec (List.length chunks1) (List.length embeddings1)) as [E1|];
    [|discriminate].
  destruct (Nat.eqb_spec (List.length chunks2) (List.length embeddings2)) as [E2|];
    [|discriminate].
  cbn [negb] in *. injection H1 as <-. injection H2 as <-.
  rewrite insert_insert_eq. split; [reflexivity|].
  unfold getChunks, hasVideo. rewrite lookup_insert_eq.
  now rewrite buildVectorChunks_length.
Qed.

Lemma storeChunks_replaces_witness :
  exists s2 : Store,
    storeChunks ∅ (js "toy") [chunkAt 0 "only"] [[0; 1]]%float [] = Ok s2
    /\ List.length (getChunks s2 (js "toy")) = 1%nat
    /\ hasVideo s2 (js "toy") = true.
Proof.
  destruct (storeChunks toyStore (js "toy") [chunkAt 0 "only"] [[0; 1]]%float [])
    as [s2|err] eqn:E2; [|discriminate].
  exists s2.
  apply (storeChunks_replaces ∅ toyStore s2 (js "toy")
           [chunkAt 0 "zero"; chunkAt 1 "one"; chunkAt 2 "two"] [chunkAt 0 "only"]
           [[1; 0]; [0; 1]; [0.707; 0.707]]%float [[0; 1]]%float [] []);
    [reflexivity|exact E2].
Defined.

Lemma js_inj (s t : string) : js s = js t -> s = t.
Proof.
  unfold js. intros H.
  rewrite <- (string_of_list_ascii_of_string s), <- (string_of_list_ascii_of_string t).
  f_equal. revert H. generalize (list_ascii_of_string s) (list_ascii_of_string t).
  induction l as [|a l IH]; intros [|b l'] H; cbn in H; try discriminate;
    [reflexivity|].
  injection H as Hab Hl. f_equal; [|now apply IH].
  apply Nat2N.inj in Hab.
  rewrite <- (ascii_nat_embedding a), <- (ascii_nat_embedding b). now f_equal.
Qed.

Lemma ofNat_inj (n m : nat) : ofNat n = ofNat m -> n = m.
Proof.
  unfold ofNat. intros H. apply js_inj in H.
  assert (forall k, Nat.to_uint k <> Decimal.Nil) as Hnil.
  { intros k. rewrite <- (DecimalNat.Unsigned.of_to k) at 1.
    rewrite DecimalNat.Unsigned.to_of. apply DecimalFacts.unorm_nonnil. }
  apply DecimalNat.Unsigned.to_uint_inj.
  pose proof (NilZero.usu _ (Hnil n)) as Hn.
  pose proof (NilZero.usu _ (Hnil m)) as Hm.
  rewrite H in Hn. congruence.
Qed.

(** X15. Records of one collection have ids of their own: when the chunks
    handed to [storeChunks] carry pairwise different indices, as the
    chunker's do, the ids [videoId-index] of the stored records are
    pairwise different. *)
Theorem storeChunks_ids_unique (vectorStore s : Store) (vid : jsstring)
  (chunks : list ChunkInput) (embeddings : list (list float))
  (md : list (jsstring * jsstring)) :
  NoDup (List.map (fun c => index (in_chunk c)) chunks) ->
  storeChunks vectorStore vid chunks embeddings md = Ok s ->
  NoDup (List.map id (getChunks s vid)).
Proof.
  unfold storeChunks. intros Hnd H.
  destruct (Nat.eqb_spec (List.length chunks) (List.length embeddings)) as [E|];
    [|discriminate].
  cbn [negb] in H. injection H as <-.
  unfold getChunks. rewrite lookup_insert_eq. unfold buildVectorChunks.
  rewrite List.map_map. cbn [id].
  assert (List.map (fun ce : ChunkInput * list float => index (in_chunk ce.1))
                   (combine chunks embeddings)
          = List.map (fun c => index (in_chunk c)) chunks) as Hidx.
  { clear -E. revert embeddings E.
    induction chunks as [|c chunks IH]; intros [|e embeddings] E; cbn in *;
      try discriminate; [reflexivity|]. f_equal. apply IH. lia. }
  rewrite <- Hidx in Hnd. clear -Hnd.
  induction (combine chunks embeddings) as [|ce l IH]; cbn in *; [constructor|].
  apply NoDup_cons in Hnd as [Hce Hl]. apply NoDup_cons. split; [|auto].
  intros Hin. apply Hce.
  apply list_elem_of_In, in_map_iff in Hin as (ce' & Heq & Hin').
  apply app_inv_head in Heq. apply (app_inv_head (js "-")), ofNat_inj in Heq.
  rewrite <- Heq. apply list_elem_of_In, in_map_iff. eauto.
Qed.

Lemma storeChunks_ids_unique_witness :
  NoDup (List.map id (getChunks toyStore (js "toy"))).
Proof.
  apply (storeChunks_ids_unique ∅ toyStore (js "toy")
           [chunkAt 0 "zero"; chunkAt 1 "one"; chunkAt 2 "two"]
           [[1; 0]; [0; 1]; [0.707; 0.707]]%float []); [|reflexivity].
  cbn [List.map chunkAt in_chunk index].
  repeat (apply NoDup_cons; split;
          [rewrite list_elem_of_In; cbn; intuition discriminate|]).
  apply NoDup_nil_2.
Defined.

End StoreFacts.

(* ================================================================= *)
(** ** Further properties of the search stage *)

Section AskFacts.
Import Chunking ChunkingSpec Embeddings VectorStore Ask Spec SearchSpec Examples.

Lemma trimStart_blank_app (lead s : jsstring) :
  blank lead -> trimStart (lead ++ s) = trimStart s.
Proof.
  induction 1 as [|c lead Hc _ IH]; cbn; [reflexivity|]. now rewrite Hc.
Qed.

Lemma trimEnd_cons (c : N) (s : jsstring) :
  isSpace c = false -> trimEnd (c :: s) = c :: trimEnd s.
Proof.
  intros Hc. unfold trimEnd. cbn [rev].
  destruct (blank_or_nonBlank (rev s)) as [H|H].
  - rewrite trimStart_blank_app, (trimStart_blank _ H) by exact H.
    cbn. now rewrite Hc.
  - rewrite trimStart_app_nonBlank by exact H.
    now rewrite rev_app_distr.
Qed.

Lemma upper_letter (c u : N) :
  upper c = u -> (65 <= u <= 90)%N -> isSpace c = false /\ (c = u \/ c = (u + 32)%N).
Proof.
  unfold upper, isSpace. intros H Hu.
  destruct ((97 <=? c)%N && (c <=? 122)%N) eqn:E.
  - apply andb_true_iff in E as [E1 E2].
    apply N.leb_le in E1, E2. split; [|right; lia].
    repeat (apply orb_false_iff; split);
      first [apply andb_false_iff; first [left; apply N.leb_gt; lia
                                         |right; apply N.leb_gt; lia]
            |apply N.eqb_neq; lia].
  - subst u. split; [|now left].
    repeat (apply orb_false_iff; split);
      first [apply andb_false_iff; first [left; apply N.leb_gt; lia
                                         |right; apply N.leb_gt; lia]
            |apply N.eqb_neq; lia].
Qed.

(** X16. The greeting test looks at the first letters only: a question
    whose text, after leading white space, begins with the letters [h],
    [i] in either case is taken for a greeting whatever follows them, so
    that the stage searches nothing, writes the one [skipped] event and
    hands on an empty context. *)
Theorem searchStage_greeting_prefix (vectorStore : Store) (vid : jsstring)
  (q : list float) (lead rest : jsstring) (h i : N) :
  blank lead -> upper h = 72%N -> upper i = 73%N ->
  searchStage vectorStore vid (lead ++ h :: i :: rest) q
  = {| events := [SearchSkipped (js "Greeting detected - responding conversationally") 0];
       similarChunks := Some [];
       totalChunkCount := 0 |}.
Proof.
  intros Hlead Hh Hi.
  destruct (upper_letter h 72 Hh ltac:(lia)) as [Hsh _].
  destruct (upper_letter i 73 Hi ltac:(lia)) as [Hsi _].
  assert (isGreeting (lead ++ h :: i :: rest) = true) as Hg.
  { unfold isGreeting, trim. rewrite trimStart_blank_app by exact Hlead.
    cbn [trimStart]. rewrite Hsh, !trimEnd_cons by assumption.
    cbn [existsb]. apply orb_true_iff. left.
    cbn. now rewrite Hh, Hi. }
  unfold searchStage. now rewrite Hg.
Qed.

Lemma searchStage_greeting_prefix_witness :
  searchStage toyStore (js "toy") (js "  History of the zero?") [1; 0]%float
  = {| events := [SearchSkipped (js "Greeting detected - responding conversationally") 0];
       similarChunks := Some [];
       totalChunkCount := 0 |}.
Proof.
  exact (searchStage_greeting_prefix toyStore (js "toy") [1; 0]%float
           (js "  ") (js "story of the zero?") 72 105
           ltac:(repeat constructor) eq_refl eq_refl).
Defined.

(** X17. What the search stage hands to the generation step is bounded
    and taken from the store: at most three chunks, no more than the
    reported match count, each with a similarity above 0.3, and each the
    text, timestamp and embedding of a stored record with the score of
    that record. *)
Theorem searchStage_context (vectorStore : Store) (vid question : jsstring)
  (q : list float) (context : list SimilarChunk) :
  similarChunks (searchStage vectorStore vid question q) = Some context ->
  (List.length context
   <= totalChunkCount (searchStage vectorStore vid question q) <= 3)%nat
  /\ Forall (fun c => (SIMILARITY_THRESHOLD <? sc_similarity c)%float = true
                      /\ fromStore (getChunks vectorStore vid) q c) context.
Proof.
  unfold searchStage. destruct (isGreeting question).
  { cbn. intros [= <-]. cbn. split; [lia|constructor]. }
  unfold searchSimilar.
  destruct (searchChunks _ q 3) as [found|err] eqn:E; [|discriminate].
  cbn [similarChunks totalChunkCount]. intros [= <-]. unfold selectSimilar.
  split.
  - rewrite List.length_map.
    pose proof (sublist_length _ _ (filter_sublist aboveThreshold found)).
    assert (0 <= 3)%Z as H3 by lia.
    pose proof (searchChunks_length _ _ _ _ H3 E). lia.
  - destruct (searchChunks_scored _ _ _ _ E) as (ms & Hms & HF).
    pose proof (searchChunks_scoredAt _ _ _ _ _ Hms HF) as Hat.
    apply Forall_forall. intros c Hc.
    apply list_elem_of_In, in_map_iff in Hc as (f & <- & Hf).
    apply filter_In in Hf as [Hf Hab]. split; [exact Hab|].
    apply list_elem_of_In, list_elem_of_lookup_1 in Hf as [n Hn].
    destruct (Forall2_lookup_l _ _ _ _ _ Hat Hn) as (p & _ & Hr & Hcos).
    exists (found_chunk f). cbn.
    split; [eapply list_elem_of_lookup_2; exact Hr|auto].
Qed.

Lemma searchStage_context_witness :
  exists context : list SimilarChunk,
    similarChunks (searchStage toyStore (js "toy") (js "What is zero?") [1; 0]%float)
    = Some context
    /\ List.length context = 2%nat
    /\ Forall (fun c => (SIMILARITY_THRESHOLD <? sc_similarity c)%float = true
                        /\ fromStore (getChunks toyStore (js "toy")) [1; 0]%float c)
              context.
Proof.
  destruct (similarChunks (searchStage toyStore (js "toy") (js "What is zero?")
                                       [1; 0]%float)) as [context|] eqn:E;
    [|vm_compute in E; discriminate].
  exists context. split; [reflexivity|]. split.
  - vm_compute in E. injection E as <-. reflexivity.
  - exact (proj2 (searchStage_context _ _ _ _ _ E)).
Defined.

(** X18. A stored embedding of another length than the question's ends
    the stage with the error: when the question is no greeting and the
    collection holds such a record, the stage writes its two [processing]
    events and the error event, never a [complete] event, and hands on no
    context. *)
Theorem searchStage_dimension_error (vectorStore : Store) (vid question : jsstring)
  (q : list float) :
  isGreeting question = false ->
  Exists (fun r => List.length (embedding r) <> List.length q)
         (getChunks vectorStore vid) ->
  exists e : error,
    searchStage vectorStore vid question q
    = {| events := [SearchProcessing (js "Scanning MemVid Vector Space...");
                    SearchProcessing (js "Calculating Cosine Similarity...");
                    ErrorEvent e];
         similarChunks := None;
         totalChunkCount := 0 |}.
Proof.
  intros Hg Hex. unfold searchStage, searchSimilar, searchChunks. rewrite Hg.
  set (chunks := getChunks vectorStore vid) in *.
  destruct chunks as [|r chunks]; [inversion Hex|].
  cbn [List.length Nat.eqb]. unfold findSimilarEmbeddings, mapiM.
  destruct (mapiMFrom_throws q (List.map embedding (r :: chunks))) with (i := 0%nat)
    as [e ->].
  { clear -Hex. induction Hex; cbn; [now left|now right]. }
  cbn. eauto.
Qed.

Lemma searchStage_dimension_error_witness :
  exists e : error,
    searchStage toyStore (js "toy") (js "What is zero?") [1; 0; 0]%float
    = {| events := [SearchProcessing (js "Scanning MemVid Vector Space...");
                    SearchProcessing (js "Calculating Cosine Similarity...");
                    ErrorEvent e];
         similarChunks := None;
         totalChunkCount := 0 |}.
Proof.
  apply (searchStage_dimension_error toyStore (js "toy") (js "What is zero?")
           [1; 0; 0]%float); [reflexivity|].
  vm_compute getChunks. left. cbn. lia.
Defined.

End AskFacts.

(* ================================================================= *)
(** ** generateEmbeddings and the process-transcript route *)

Section ProcessFacts.
Import Chunking ChunkingSpec Embeddings VectorStore Spec Process Examples.

Variable generateEmbedding : jsstring -> option (list float).

Lemma embedFrom_all (total : nat) (texts : list jsstring) :
  Forall (fun t => is_Some (generateEmbedding t)) texts ->
  forall i : nat,
    exists embeddings : list (list float),
      embedFrom generateEmbedding total i texts
      = (progressCalls total i (List.length texts), Some embeddings)
      /\ Forall2 (fun t e => generateEmbedding t = Some e) texts embeddings.
Proof.
  induction 1 as [|t texts [e He] _ IH]; intros i; cbn [embedFrom].
  - exists []. split; [reflexivity|constructor].
  - rewrite He. destruct (IH (S i)) as (embeddings & -> & HF).
    exists (e :: embeddings). split; [reflexivity|now constructor].
Qed.

Lemma embedFrom_throws (total : nat) (before : list jsstring) (t : jsstring)
  (after : list jsstring) :
  Forall (fun t => is_Some (generateEmbedding t)) before ->
  generateEmbedding t = None ->
  forall i : nat,
    embedFrom generateEmbedding total i (before ++ t :: after)
    = (progressCalls total i (List.length before), None).
Proof.
  intros Hbefore Ht.
  induction Hbefore as [|b before [e He] _ IH]; intros i; cbn [embedFrom app].
  - now rewrite Ht.
  - rewrite He, IH. reflexivity.
Qed.

(** X20. [generateEmbeddings] embeds the texts one after the other: when
    the model answers for every text, the result holds the embedding of
    each text at the text's position, and [onProgress] was called once
    after each, with the counts [1 .. n] and the total [n]; when the model
    throws for a text, there is no result, and [onProgress] was called for
    the texts before that one only. *)
Theorem generateEmbeddings_in_order :
  (forall texts : list jsstring,
     Forall (fun t => is_Some (generateEmbedding t)) texts ->
     exists embeddings : list (list float),
       generateEmbeddings generateEmbedding texts
       = (progressCalls (List.length texts) 0 (List.length texts), Some embeddings)
       /\ Forall2 (fun t e => generateEmbedding t = Some e) texts embeddings)
  /\ (forall (before : list jsstring) (t : jsstring) (after : list jsstring),
        Forall (fun t => is_Some (generateEmbedding t)) before ->
        generateEmbedding t = None ->
        generateEmbeddings generateEmbedding (before ++ t :: after)
        = (progressCalls (List.length (before ++ t :: after)) 0 (List.length before),
           None)).
Proof.
  split.
  - intros texts H. now apply embedFrom_all.
  - intros before t after H Ht. now apply embedFrom_throws.
Qed.

Lemma chunkTranscript_contiguous (fuel : nat) (transcript : list Segment)
  (targetWords overlap : Z) (out : list Chunk) :
  chunkTranscript fuel transcript targetWords overlap = Some out ->
  contiguousIndices out.
Proof.
  intros H. unfold chunkTranscript in H. destruct (_ || _).
  - injection H as <-. apply chunkTranscriptSimple_contiguous.
  - eapply windowLoop_contiguous; [|exact H]. reflexivity.
Qed.

Lemma chunkTranscript_returns (fuel : nat) (transcript : list Segment)
  (targetWords overlap : Z) :
  (overlap < SEGMENTS_PER_CHUNK)%Z -> (List.length transcript < fuel)%nat ->
  exists out, chunkTranscript fuel transcript targetWords overlap = Some out.
Proof.
  intros Ho Hf. unfold chunkTranscript. destruct (_ || _); [eauto|].
  apply windowLoop_returns; [exact Ho|lia].
Qed.

Lemma contiguous_NoDup (chunks : list Chunk) :
  contiguousIndices chunks ->
  NoDup (List.map (fun c => index (in_chunk c)) (List.map asInput chunks)).
Proof.
  unfold contiguousIndices. intros H. rewrite List.map_map. cbn.
  change (List.map (fun x => index x) chunks) with (List.map index chunks).
  rewrite H. apply NoDup_seq.
Qed.

Lemma ids_NoDup (vid : jsstring) (chunks : list ChunkInput)
  (embeddings : list (list float)) (md : list (jsstring * jsstring)) :
  List.length chunks = List.length embeddings ->
  NoDup (List.map (fun c => index (in_chunk c)) chunks) ->
  NoDup (List.map id (buildVectorChunks vid chunks embeddings md)).
Proof.
  intros E Hnd. unfold buildVectorChunks. rewrite List.map_map. cbn [id].
  assert (List.map (fun ce : ChunkInput * list float => index (in_chunk ce.1))
                   (combine chunks embeddings)
          = List.map (fun c => index (in_chunk c)) chunks) as Hidx.
  { clear -E. revert embeddings E.
    induction chunks as [|c chunks IH]; intros [|e embeddings] E; cbn in *;
      try discriminate; [reflexivity|]. f_equal. apply IH. lia. }
  rewrite <- Hidx in Hnd. clear -Hnd.
  induction (combine chunks embeddings) as [|ce l IH]; cbn in *; [constructor|].
  apply NoDup_cons in Hnd as [Hce Hl]. apply NoDup_cons. split; [|auto].
  intros Hin. apply Hce.
  apply list_elem_of_In, in_map_iff in Hin as (ce' & Heq & Hin').
  apply app_inv_head in Heq. apply (app_inv_head (js "-")), ofNat_inj in Heq.
  rewrite <- Heq. apply list_elem_of_In, in_map_iff. eauto.
Qed.

Lemma Forall2_map_both {A B C D} (P : C -> D -> Prop) (f : A -> C) (g : B -> D)
  (l : list A) (k : list B) :
  Forall2 P (List.map f l) (List.map g k) ->
  Forall2 (fun x y => P (f x) (g y)) l k.
Proof.
  revert k. induction l as [|x l IH]; intros [|y k] H; cbn in H; inversion H;
    subst; constructor; auto.
Qed.

Lemma buildVectorChunks_texts (vid : jsstring) (chunks : list ChunkInput)
  (embeddings : list (list float)) (md : list (jsstring * jsstring)) :
  List.length chunks = List.length embeddings ->
  List.map vc_text (buildVectorChunks vid chunks embeddings md)
  = List.map (fun c => text (in_chunk c)) chunks.
Proof.
  unfold buildVectorChunks. revert embeddings.
  induction chunks as [|c chunks IH]; intros [|e embeddings] H; cbn in *;
    try discriminate; [reflexivity|].
  f_equal. apply IH. lia.
Qed.

(** X21. The route stores what the chunker returned: for a persona that
    is not in the store, segments that the window loop gets through, and a
    model that answers for every chunk text, the run ends with step 6 and
    never with the count error of [storeChunks]. Afterwards the collection
    of the persona holds the chunk texts in chunker order, with the
    embedding of each text, under ids of their own and in the order of the
    chunk indices; [hasVideo] is true exactly when there was a chunk, and
    no other collection has changed. *)
Theorem processSegments_stores (fuel : nat) (vectorStore : Store)
  (personaId : jsstring) (transcriptSegments : list Segment) :
  hasVideo vectorStore personaId = false ->
  (List.length transcriptSegments < fuel)%nat ->
  (forall t : jsstring, t <> [] -> is_Some (generateEmbedding t)) ->
  exists (chunks : list Chunk) (run : Run),
    chunkTranscript fuel transcriptSegments 500 1 = Some chunks
    /\ processSegments generateEmbedding fuel vectorStore personaId transcriptSegments
       = Some run
    /\ outcome run = Processed (List.length chunks)
    /\ List.map vc_text (getChunks (storeAfter run) personaId) = List.map text chunks
    /\ Forall2 (fun c r => generateEmbedding (text c) = Some (embedding r))
               chunks (getChunks (storeAfter run) personaId)
    /\ NoDup (List.map id (getChunks (storeAfter run) personaId))
    /\ storedInIndexOrder (getChunks (storeAfter run) personaId)
    /\ hasVideo (storeAfter run) personaId = negb (Nat.eqb (List.length chunks) 0)
    /\ forall other, other <> personaId ->
                     storeAfter run !! other = vectorStore !! other.
Proof.
  intros Hnew Hfuel Hmodel.
  destruct (chunkTranscript_returns fuel transcriptSegments 500 1) as [chunks E];
    [unfold SEGMENTS_PER_CHUNK; lia|exact Hfuel|].
  pose proof (chunkTranscript_contiguous _ _ _ _ _ E) as Hidx.
  assert (Forall hasWords chunks) as Hwords.
  { unfold chunkTranscript in E. destruct (_ || _).
    - injection E as <-. unfold chunkTranscriptSimple.
      pose proof (chunkText_hasWords (combineTranscript transcriptSegments) 500) as H.
      induction H as [|c l Hc _ IH]; cbn; constructor; auto.
    - eapply windowLoop_hasWords; [|exact E]. constructor. }
  assert (Forall (fun t => is_Some (generateEmbedding t)) (List.map text chunks))
    as Hall.
  { clear -Hwords Hmodel. induction Hwords as [|c l [_ Hc] _ IH]; cbn;
      constructor; auto. }
  destruct (embedFrom_all (List.length (List.map text chunks)) _ Hall 0)
    as (embeddings & Hgen & HF).
  assert (List.length (List.map asInput chunks) = List.length embeddings) as Hlen.
  { rewrite List.length_map, <- (Forall2_length _ _ _ HF), List.length_map.
    reflexivity. }
  exists chunks. eexists. split; [exact E|].
  unfold processSegments, generateEmbeddings. rewrite Hnew, E.
  cbv zeta. rewrite Hgen. cbn [fst snd].
  unfold storeChunks. rewrite Hlen, Nat.eqb_refl. cbn [negb].
  split; [reflexivity|]. cbn [outcome storeAfter].
  unfold getChunks, hasVideo. rewrite lookup_insert_eq.
  split; [reflexivity|].
  split; [rewrite buildVectorChunks_texts, List.map_map by exact Hlen; reflexivity|].
  split.
  { pose proof (buildVectorChunks_embeddings personaId _ _ personaMetadata Hlen)
      as Hemb.
    rewrite <- Hemb in HF. now apply Forall2_map_both in HF. }
  split; [apply ids_NoDup; [exact Hlen|now apply contiguous_NoDup]|].
  split.
  { apply buildVectorChunks_index_order. rewrite List.map_map. cbn.
    now rewrite List.map_id. }
  split.
  { rewrite buildVectorChunks_length, List.length_map by exact Hlen. reflexivity. }
  intros other Hne. now apply lookup_insert_ne.
Qed.

Lemma embedFrom_calls (total : nat) (texts : list jsstring) :
  forall (i : nat) (calls : list (nat * nat)) (embeddings : list (list float)),
    embedFrom generateEmbedding total i texts = (calls, Some embeddings) ->
    calls = progressCalls total i (List.length texts)
    /\ List.length embeddings = List.length texts.
Proof.
  induction texts as [|t texts IH]; intros i calls embeddings H; cbn [embedFrom] in H.
  - injection H as <- <-. split; reflexivity.
  - destruct (generateEmbedding t); [|discriminate].
    destruct (embedFrom generateEmbedding total (S i) texts) as [calls' [embs|]] eqn:E;
      cbn in H; [|discriminate].
    injection H as <- <-. destruct (IH _ _ _ E) as [-> Hlen].
    split; [reflexivity|cbn; lia].
Qed.

(** What a run that ended with step 6 went through. *)
Lemma processSegments_processed (fuel : nat) (vectorStore : Store)
  (personaId : jsstring) (transcriptSegments : list Segment) (run : Run) (n : nat) :
  processSegments generateEmbedding fuel vectorStore personaId transcriptSegments
  = Some run ->
  outcome run = Processed n ->
  exists (chunks : list Chunk) (embeddings : list (list float)),
    List.length chunks = n /\ List.length embeddings = n
    /\ storeAfter run
       = <[personaId := buildVectorChunks personaId (List.map asInput chunks)
                                          embeddings personaMetadata]> vectorStore
    /\ progressEvents run = List.filter reportsProgress (progressCalls n 0 n).
Proof.
  unfold processSegments, generateEmbeddings. intros H Hout.
  destruct (hasVideo vectorStore personaId).
  { injection H as <-. discriminate. }
  destruct (chunkTranscript fuel transcriptSegments 500 1) as [chunks|];
    [|discriminate].
  cbv zeta in H.
  destruct (embedFrom _ _ _ _) as [calls [embeddings|]] eqn:E; cbn [fst snd] in H.
  2:{ injection H as <-. discriminate. }
  destruct (embedFrom_calls _ _ _ _ _ E) as [-> Hlen].
  rewrite !List.length_map in *.
  unfold storeChunks in H. rewrite List.length_map in H.
  destruct (Nat.eqb_spec (List.length chunks) (List.length embeddings)) as [Heq|];
    cbn [negb] in H; injection H as <-; cbn in Hout; [|discriminate].
  injection Hout as <-. exists chunks, embeddings. cbn. auto.
Qed.

(** X22. The route remembers a persona by its chunks: after a run that
    ended with step 6 and a chunk count above zero, every later run for the
    same persona takes the cached path, whatever segments it is given, and
    leaves the store as it is; after a run with a chunk count of zero,
    [hasVideo] is still false, so that the next run processes again. *)
Theorem processSegments_again (fuel : nat) (vectorStore : Store)
  (personaId : jsstring) (transcriptSegments : list Segment) (run : Run) (n : nat) :
  processSegments generateEmbedding fuel vectorStore personaId transcriptSegments
  = Some run ->
  outcome run = Processed n ->
  hasVideo (storeAfter run) personaId = negb (Nat.eqb n 0)
  /\ ((0 < n)%nat ->
      forall (fuel' : nat) (segments' : list Segment),
        processSegments generateEmbedding fuel' (storeAfter run) personaId segments'
        = Some {| storeAfter := storeAfter run; progressEvents := [];
                  outcome := AlreadyProcessed |}).
Proof.
  intros H Hout.
  destruct (processSegments_processed _ _ _ _ _ _ H Hout)
    as (chunks & embeddings & Hc & He & Hs & _).
  assert (hasVideo (storeAfter run) personaId = negb (Nat.eqb n 0)) as Hhas.
  { rewrite Hs. unfold hasVideo. rewrite lookup_insert_eq.
    rewrite buildVectorChunks_length, List.length_map, Hc;
      [reflexivity|rewrite List.length_map; lia]. }
  split; [exact Hhas|]. intros Hn fuel' segments'.
  unfold processSegments. rewrite Hhas.
  destruct n; [lia|reflexivity].
Qed.

Lemma progressCalls_elem (total i n k t : nat) :
  (k, t) ∈ progressCalls total i n <-> t = total /\ (i < k <= i + n)%nat.
Proof.
  unfold progressCalls. rewrite list_elem_of_In, in_map_iff. split.
  - intros (j & Hj & Hin). apply in_seq in Hin. injection Hj as <- <-. lia.
  - intros [-> Hk]. exists (k - 1)%nat. split; [f_equal; lia|].
    apply in_seq. lia.
Qed.

(** X23. The progress events of step 5: a run that ended with step 6 on
    [n] chunks wrote one event for each count that is a multiple of five
    and one for the last count [n], each with the total [n], and no
    other. *)
Theorem processSegments_progress (fuel : nat) (vectorStore : Store)
  (personaId : jsstring) (transcriptSegments : list Segment) (run : Run) (n : nat) :
  processSegments generateEmbedding fuel vectorStore personaId transcriptSegments
  = Some run ->
  outcome run = Processed n ->
  forall current total : nat,
    (current, total) ∈ progressEvents run
    <-> total = n /\ (1 <= current <= n)%nat
        /\ (current mod 5 = 0%nat \/ current = n).
Proof.
  intros H Hout current total.
  destruct (processSegments_processed _ _ _ _ _ _ H Hout)
    as (_ & _ & _ & _ & _ & ->).
  rewrite list_elem_of_In, filter_In, <- list_elem_of_In, progressCalls_elem.
  unfold reportsProgress. cbn [fst snd].
  rewrite orb_true_iff, !Nat.eqb_eq. split.
  - intros [[-> Hk] Hmod]. split; [reflexivity|]. split; [lia|exact Hmod].
  - intros (-> & Hk & Hmod). split; [|exact Hmod]. split; [reflexivity|lia].
Qed.

End ProcessFacts.

Section ProcessExamples.
Import Chunking ChunkingSpec Embeddings VectorStore Spec Process Examples.

Lemma generateEmbeddings_in_order_witness :
  generateEmbeddings toyEmbedding [js "a"; js "b"; js ""; js "c"]
  = ([(1, 4); (2, 4)]%nat, None).
Proof.
  apply (proj2 (generateEmbeddings_in_order toyEmbedding) [js "a"; js "b"] (js "")
               [js "c"]).
  - repeat constructor; eexists; reflexivity.
  - reflexivity.
Defined.

Lemma processSegments_stores_witness :
  exists (chunks : list Chunk) (run : Run),
    chunkTranscript 11 tenSegments 500 1 = Some chunks
    /\ processSegments toyEmbedding 11 ∅ (js "p") tenSegments = Some run
    /\ outcome run = Processed (List.length chunks)
    /\ List.map vc_text (getChunks (storeAfter run) (js "p")) = List.map text chunks
    /\ Forall2 (fun c r => toyEmbedding (text c) = Some (embedding r))
               chunks (getChunks (storeAfter run) (js "p"))
    /\ NoDup (List.map id (getChunks (storeAfter run) (js "p")))
    /\ storedInIndexOrder (getChunks (storeAfter run) (js "p"))
    /\ hasVideo (storeAfter run) (js "p") = negb (Nat.eqb (List.length chunks) 0)
    /\ forall other, other <> js "p" -> storeAfter run !! other = (∅ : Store) !! other.
Proof.
  apply (processSegments_stores toyEmbedding 11 ∅ (js "p") tenSegments).
  - reflexivity.
  - cbn. lia.
  - intros [|c t] H; [congruence|]. eexists. reflexivity.
Defined.

Lemma processSegments_again_witness :
  exists run : Run,
    processSegments toyEmbedding 11 ∅ (js "p") tenSegments = Some run
    /\ hasVideo (storeAfter run) (js "p") = true
    /\ processSegments toyEmbedding 0 (storeAfter run) (js "p") helloTranscript
       = Some {| storeAfter := storeAfter run; progressEvents := [];
                 outcome := AlreadyProcessed |}.
Proof.
  destruct (processSegments toyEmbedding 11 ∅ (js "p") tenSegments) as [run|] eqn:E;
    [|vm_compute in E; discriminate].
  assert (outcome run = Processed 3) as Hout
    by (vm_compute in E; injection E as <-; reflexivity).
  destruct (processSegments_again toyEmbedding 11 ∅ (js "p") tenSegments run 3 E Hout)
    as [Hhas Hnext].
  exists run. split; [reflexivity|]. split; [exact Hhas|]. apply Hnext. lia.
Defined.

Lemma processSegments_progress_witness :
  exists run : Run,
    processSegments toyEmbedding 11 ∅ (js "p") tenSegments = Some run
    /\ forall current total : nat,
         (current, total) ∈ progressEvents run
         <-> total = 3%nat /\ (1 <= current <= 3)%nat
             /\ (current mod 5 = 0%nat \/ current = 3%nat).
Proof.
  destruct (processSegments toyEmbedding 11 ∅ (js "p") tenSegments) as [run|] eqn:E;
    [|vm_compute in E; discriminate].
  assert (outcome run = Processed 3) as Hout
    by (vm_compute in E; injection E as <-; reflexivity).
  exists run. split; [reflexivity|].
  exact (processSegments_progress toyEmbedding 11 ∅ (js "p") tenSegments run 3 E Hout).
Defined.

End ProcessExamples.

(* ================================================================= *)
(** ** Keyword extraction *)

Section KeywordFacts.
Import KeywordExtraction.

Variable toLowerCase : jsstring -> jsstring.

Lemma splitSpacesFrom_pieces (P : N -> Prop) (s : jsstring) :
  Forall (fun c => isSpace c = false -> P c) s ->
  forall (cur : jsstring) (inRun : bool),
    Forall P cur ->
    Forall (Forall P) (splitSpacesFrom cur inRun s).
Proof.
  induction 1 as [|c s Hc _ IH]; intros cur inRun Hcur; cbn [splitSpacesFrom].
  - repeat constructor. exact Hcur.
  - destruct (isSpace c) eqn:E.
    + destruct inRun; [apply IH; constructor|].
      constructor; [exact Hcur|apply IH; constructor].
    + apply IH. apply Forall_app. split; [exact Hcur|]. repeat constructor. auto.
Qed.

Lemma replacePunctuation_chars (s : jsstring) :
  Forall (fun c => isSpace c = false -> isWordChar c = true) (replacePunctuation s).
Proof.
  unfold replacePunctuation. induction s as [|c s IH]; cbn; constructor; auto.
  destruct (isWordChar c) eqn:Ew; cbn [orb]; [auto|].
  destruct (isSpace c) eqn:Es; [congruence|]. intros H. discriminate.
Qed.

Lemma dedupe_subset (l : list jsstring) (w : jsstring) : In w (dedupe l) -> In w l.
Proof.
  induction l as [|x l IH]; cbn; [auto|].
  intros [H|H]; [now left|]. apply filter_In in H as [H _]. auto.
Qed.

Lemma dedupe_NoDup (l : list jsstring) : NoDup (dedupe l).
Proof.
  induction l as [|x l IH]; cbn; [constructor|].
  apply NoDup_cons. split.
  - rewrite list_elem_of_In, filter_In. intros [_ H].
    rewrite bool_decide_eq_true_2 in H by reflexivity. discriminate.
  - apply NoDup_ListNoDup, List.NoDup_filter, NoDup_ListNoDup, IH.
Qed.

Lemma dedupe_complete (l : list jsstring) (w : jsstring) : In w l -> In w (dedupe l).
Proof.
  induction l as [|x l IH]; cbn; [auto|].
  intros [H|H]; [now left|].
  destruct (decide (w = x)) as [->|Hne]; [now left|].
  right. apply filter_In. split; [auto|].
  now rewrite bool_decide_eq_false_2.
Qed.

(** X24. What [extractKeywords] returns: no word twice; every word has at
    least three characters, is no stop word and is made of the characters
    [[A-Za-z0-9_]] only; and every such piece of the question, lower-cased
    and with punctuation turned into spaces, is among them. *)
Theorem extractKeywords_keywords (question : jsstring) :
  NoDup (extractKeywords toLowerCase question)
  /\ forall w : jsstring,
       In w (extractKeywords toLowerCase question)
       <-> In w (splitSpaces (replacePunctuation (toLowerCase question)))
           /\ isKeyword w.
Proof.
  unfold extractKeywords. split; [apply dedupe_NoDup|].
  intros w. split.
  - intros H. apply dedupe_subset in H.
    apply filter_In in H as [H Hstop]. apply filter_In in H as [H Hlen].
    split; [exact H|]. unfold isKeyword.
    apply Nat.ltb_lt in Hlen. apply negb_true_iff in Hstop.
    repeat split; [lia|exact Hstop|].
    pose proof (splitSpacesFrom_pieces (fun c => isWordChar c = true) _
                  (replacePunctuation_chars (toLowerCase question)) [] false
                  ltac:(constructor)) as Hall.
    rewrite List.Forall_forall in Hall. now apply Hall.
  - intros [H (Hlen & Hstop & _)]. apply dedupe_complete.
    apply filter_In. split; [|now rewrite Hstop].
    apply filter_In. split; [exact H|]. apply Nat.ltb_lt. lia.
Qed.

Lemma adjacentPairs_lookup (l : list jsstring) :
  forall (i : nat) (p : jsstring),
    adjacentPairs l !! i = Some p
    <-> exists a b, l !! i = Some a /\ l !! S i = Some b /\ p = a ++ js " " ++ b.
Proof.
  induction l as [|a l IH]; intros i p.
  - cbn. split; [discriminate|]. intros (x & y & H & _). discriminate.
  - destruct l as [|b l].
    + cbn. split; [discriminate|]. intros (x & y & _ & H & _).
      destruct i; discriminate.
    + change (adjacentPairs (a :: b :: l))
        with ((a ++ js " " ++ b) :: adjacentPairs (b :: l)).
      destruct i as [|i].
      * cbn [lookup list_lookup]. split.
        -- intros [= <-]. exists a, b. auto.
        -- intros (x & y & [= <-] & [= <-] & ->). reflexivity.
      * change ((?x :: ?r) !! S ?n) with (r !! n). apply IH.
Qed.

Lemma adjacentPairs_length (l : list jsstring) :
  List.length (adjacentPairs l) = (List.length l - 1)%nat.
Proof.
  induction l as [|a l IH]; [reflexivity|].
  destruct l as [|b l]; [reflexivity|].
  change (adjacentPairs (a :: b :: l))
    with ((a ++ js " " ++ b) :: adjacentPairs (b :: l)).
  cbn [List.length] in *. lia.
Qed.

(** X25. What [extractPhrases] returns: the phrase at position [i] is the
    keywords at the positions [i] and [i + 1] with one space between them,
    for the first five such pairs; so there are [min(5, k - 1)] phrases for
    [k] keywords, and none for fewer than two. *)
Theorem extractPhrases_pairs (question : jsstring) :
  List.length (extractPhrases toLowerCase question)
  = Nat.min 5 (List.length (extractKeywords toLowerCase question) - 1)
  /\ forall (i : nat) (p : jsstring),
       extractPhrases toLowerCase question !! i = Some p
       <-> (i < 5)%nat
           /\ exists a b,
                extractKeywords toLowerCase question !! i = Some a
                /\ extractKeywords toLowerCase question !! S i = Some b
                /\ p = a ++ js " " ++ b.
Proof.
  unfold extractPhrases. cbv zeta. rewrite slice_prefix by lia.
  change (Z.to_nat 5) with 5%nat. split.
  - now rewrite length_take, adjacentPairs_length.
  - intros i p. rewrite <- adjacentPairs_lookup.
    destruct (Nat.lt_ge_cases i 5) as [Hi|Hi].
    + rewrite lookup_take_lt by exact Hi. tauto.
    + rewrite lookup_take_ge by exact Hi. split; [discriminate|lia].
Qed.

Lemma sortInsertWith_perm {A} (behind : A -> A -> bool) (x : A) (l : list A) :
  Permutation (sortInsertWith behind x l) (x :: l).
Proof.
  induction l as [|y l IH]; cbn [sortInsertWith]; [reflexivity|].
  destruct (behind x y); [|reflexivity].
  rewrite IH. apply perm_swap.
Qed.

Lemma sortWith_perm {A} (behind : A -> A -> bool) (l : list A) :
  Permutation (sortWith behind l) l.
Proof.
  induction l as [|x l IH]; cbn [sortWith fold_right]; [reflexivity|].
  fold (sortWith behind l). rewrite sortInsertWith_perm. now rewrite IH.
Qed.

Lemma sortInsertWith_longest_first (x : jsstring) (l : list jsstring) :
  StronglySorted (fun a b => (List.length b <= List.length a)%nat) l ->
  StronglySorted (fun a b => (List.length b <= List.length a)%nat)
    (sortInsertWith
       (fun a b => (0 <? Z.of_nat (List.length b) - Z.of_nat (List.length a))%Z) x l).
Proof.
  induction 1 as [|y l Hs IH Hy]; cbn [sortInsertWith].
  - repeat constructor.
  - destruct (Z.ltb_spec 0 (Z.of_nat (List.length y) - Z.of_nat (List.length x))).
    + constructor; [exact IH|].
      rewrite sortInsertWith_perm. constructor; [lia|exact Hy].
    + constructor; [now constructor|].
      constructor; [lia|]. eapply Forall_impl; [exact Hy|]. cbn. lia.
Qed.

(** X26. What [getImportantTerms] returns: the eight longest of the
    phrases and keywords, or all of them when there are fewer; longer
    terms before shorter ones; each of them a phrase or a keyword, taken
    as often as it is there. *)
Theorem getImportantTerms_longest (question : jsstring) :
  List.length (getImportantTerms toLowerCase question)
  = Nat.min 8 (List.length (extractPhrases toLowerCase question)
               + List.length (extractKeywords toLowerCase question))
  /\ StronglySorted (fun a b => (List.length b <= List.length a)%nat)
                    (getImportantTerms toLowerCase question)
  /\ exists others : list jsstring,
       Permutation (getImportantTerms toLowerCase question ++ others)
                   (extractPhrases toLowerCase question
                    ++ extractKeywords toLowerCase question)
       /\ Forall (fun o => Forall (fun t => (List.length o <= List.length t)%nat)
                                  (getImportantTerms toLowerCase question))
                 others.
Proof.
  unfold getImportantTerms. cbv zeta. rewrite slice_prefix by lia.
  change (Z.to_nat 8) with 8%nat.
  set (all := extractPhrases toLowerCase question
              ++ extractKeywords toLowerCase question).
  pose (behind := fun a b : jsstring =>
                    (0 <? Z.of_nat (List.length b) - Z.of_nat (List.length a))%Z).
  change (sortWith _ all) with (sortWith behind all).
  assert (StronglySorted (fun a b => (List.length b <= List.length a)%nat)
                         (sortWith behind all)) as Hsorted.
  { clearbody all. induction all as [|x l IH]; cbn [sortWith fold_right];
      [constructor|]. now apply sortInsertWith_longest_first. }
  split; [|split].
  - rewrite length_take, (Permutation_length (sortWith_perm behind all)).
    subst all. now rewrite List.length_app.
  - now apply StronglySorted_firstn.
  - exists (drop 8 (sortWith behind all)). split.
    + rewrite take_drop. apply sortWith_perm.
    + rewrite <- (take_drop 8 (sortWith behind all)) in Hsorted.
      apply Forall_forall. intros o Ho. apply Forall_forall. intros t Ht.
      exact (StronglySorted_app_1_elem_of _ _ _ _ _ Hsorted Ht Ho).
Qed.

End KeywordFacts.

Section KeywordExamples.
Import KeywordExtraction.

Lemma extractKeywords_keywords_witness :
  extractKeywords asciiLower (js "What is the Attention mechanism? Attention, please!")
  = [js "attention"; js "mechanism"; js "please"]
  /\ NoDup (extractKeywords asciiLower
              (js "What is the Attention mechanism? Attention, please!")).
Proof.
  split; [reflexivity|].
  apply (proj1 (extractKeywords_keywords asciiLower
                  (js "What is the Attention mechanism? Attention, please!"))).
Defined.

Lemma extractPhrases_pairs_witness :
  extractPhrases asciiLower (js "What is the Attention mechanism? Attention, please!")
  = [js "attention mechanism"; js "mechanism please"]
  /\ List.length (extractPhrases asciiLower
                    (js "What is the Attention mechanism? Attention, please!"))
     = 2%nat.
Proof.
  split; [reflexivity|].
  exact (proj1 (extractPhrases_pairs asciiLower
                  (js "What is the Attention mechanism? Attention, please!"))).
Defined.

Lemma getImportantTerms_longest_witness :
  getImportantTerms asciiLower (js "What is the Attention mechanism? Attention, please!")
  = [js "attention mechanism"; js "mechanism please"; js "attention";
     js "mechanism"; js "please"]
  /\ StronglySorted (fun a b => (List.length b <= List.length a)%nat)
       (getImportantTerms asciiLower
          (js "What is the Attention mechanism? Attention, please!")).
Proof.
  split; [reflexivity|].
  apply (getImportantTerms_longest asciiLower
           (js "What is the Attention mechanism? Attention, please!")).
Defined.

End KeywordExamples.

(* ================================================================= *)
(** ** The messages sent to the language model *)

Section GroqFacts.
Import Groq.

Lemma slice_last {A} (l : list A) (k : nat) :
  (0 < k)%nat ->
  slice l (- Z.of_nat k) (Z.of_nat (List.length l))
  = drop (List.length l - k) l.
Proof.
  intros Hk. unfold slice, sliceIndex.
  destruct (Z.ltb_spec (- Z.of_nat k) 0); [|lia].
  destruct (Z.ltb_spec (Z.of_nat (List.length l)) 0); [lia|].
  rewrite Z.min_id.
  replace (Z.to_nat (Z.max (Z.of_nat (List.length l) + - Z.of_nat k) 0))
    with (List.length l - k)%nat by lia.
  apply firstn_all2. rewrite length_drop. lia.
Qed.

(** X27. What [generateAnswer] sends: the system prompt first, the
    question last, and between them the last five messages of the
    conversation history in their order, or the whole history when it has
    five messages or fewer; older messages are never sent. *)
Theorem buildMessages_recent (systemPrompt question : jsstring)
  (conversationHistory : list Message) :
  exists older recent : list Message,
    conversationHistory = older ++ recent
    /\ List.length recent = Nat.min 5 (List.length conversationHistory)
    /\ buildMessages systemPrompt conversationHistory question
       = {| role := System; content := systemPrompt |}
         :: recent ++ [{| role := User; content := question |}].
Proof.
  exists (take (List.length conversationHistory - 5) conversationHistory),
         (drop (List.length conversationHistory - 5) conversationHistory).
  split; [now rewrite take_drop|]. split; [rewrite length_drop; lia|].
  unfold buildMessages. cbv zeta.
  change (-5)%Z with (- Z.of_nat 5)%Z.
  rewrite (slice_last conversationHistory 5) by lia.
  cbn [app]. f_equal. f_equal.
  rewrite <- (List.map_id (drop _ _)) at 2.
  apply List.map_ext. now intros [r c].
Qed.

End GroqFacts.

(* ================================================================= *)
(** ** Video ids *)

Section VideoIds.
Import KeywordExtraction YouTube.

Lemma stripPrefix_spec (literal : jsstring) :
  forall s tail : jsstring, stripPrefix literal s = Some tail -> s = literal ++ tail.
Proof.
  induction literal as [|p literal IH]; intros [|c s] tail H; cbn in H;
    try discriminate; try (injection H as <-; reflexivity).
  destruct (N.eqb_spec p c) as [->|]; [|discriminate].
  cbn. f_equal. now apply IH.
Qed.

Lemma takeWhile_spec (p : N -> bool) (s : jsstring) :
  Forall (fun c => p c = true) (takeWhile p s)
  /\ exists rest, s = takeWhile p s ++ rest.
Proof.
  induction s as [|c s [IH1 [rest IH2]]]; cbn.
  - split; [constructor|exists []; reflexivity].
  - destruct (p c) eqn:E.
    + split; [now constructor|]. exists rest. cbn. now f_equal.
    + split; [constructor|]. exists (c :: s). reflexivity.
Qed.

Lemma matchPrefixes_spec (prefixes : list jsstring) (s group : jsstring) :
  matchPrefixes prefixes s = Some group ->
  group <> [] /\ Forall (fun c => isIdChar c = true) group
  /\ exists literal post, In literal prefixes /\ s = literal ++ group ++ post.
Proof.
  induction prefixes as [|literal prefixes IH]; cbn [matchPrefixes];
    [discriminate|].
  intros H.
  assert (matchPrefixes prefixes s = Some group ->
          group <> [] /\ Forall (fun c => isIdChar c = true) group
          /\ exists literal0 post, In literal0 (literal :: prefixes)
                                   /\ s = literal0 ++ group ++ post) as Hrest.
  { intros H'. destruct (IH H') as (H1 & H2 & l0 & post & Hin & Hs).
    split; [exact H1|]. split; [exact H2|]. exists l0, post. split; [now right|exact Hs]. }
  destruct (stripPrefix literal s) as [tail|] eqn:E; [|auto].
  destruct (takeWhile_spec isIdChar tail) as [Hall [post Htail]].
  destruct (takeWhile isIdChar tail) as [|c g] eqn:Eg; [auto|].
  injection H as <-. split; [discriminate|]. split; [exact Hall|].
  exists literal, post. split; [now left|].
  apply stripPrefix_spec in E. now rewrite E, Htail at 1.
Qed.

Lemma matchUrl_spec (s group : jsstring) :
  matchUrl s = Some group ->
  group <> [] /\ Forall (fun c => isIdChar c = true) group
  /\ exists pre post, s = pre ++ group ++ post.
Proof.
  induction s as [|c s IH]; cbn [matchUrl]; intros H.
  - destruct (matchPrefixes urlPrefixes []) eqn:E; [|discriminate].
    injection H as ->.
    destruct (matchPrefixes_spec _ _ _ E) as (H1 & H2 & l & post & _ & Hs).
    split; [exact H1|]. split; [exact H2|]. eauto.
  - destruct (matchPrefixes urlPrefixes (c :: s)) eqn:E.
    + injection H as ->.
      destruct (matchPrefixes_spec _ _ _ E) as (H1 & H2 & l & post & _ & Hs).
      split; [exact H1|]. split; [exact H2|]. eauto.
    + destruct (IH H) as (H1 & H2 & pre & post & ->).
      split; [exact H1|]. split; [exact H2|]. exists (c :: pre), post. reflexivity.
Qed.

Lemma bareIdChar_idChar (c : N) : isBareIdChar c = true -> isIdChar c = true.
Proof.
  unfold isBareIdChar, isWordChar, isIdChar. intros H.
  apply negb_true_iff. repeat (apply orb_false_iff; split); apply N.eqb_neq;
    intros ->; vm_compute in H; discriminate.
Qed.

(** X28. What [extractVideoId] returns, when it returns an id: a part of
    the URL that is not empty and holds none of the characters [&], line
    feed, [?] and [#]. *)
Theorem extractVideoId_result (url id : jsstring) :
  extractVideoId url = Some id ->
  id <> []
  /\ Forall (fun c => isIdChar c = true) id
  /\ exists pre post, url = pre ++ id ++ post.
Proof.
  unfold extractVideoId. destruct (matchUrl url) as [group|] eqn:E.
  - intros [= <-]. now apply matchUrl_spec.
  - unfold matchBareId. destruct (Nat.eqb_spec (List.length url) 11) as [Hlen|];
      [|discriminate].
    cbn [andb]. destruct (forallb isBareIdChar url) eqn:Hall; [|discriminate].
    intros [= <-]. split; [destruct url; [discriminate|discriminate]|].
    split.
    + rewrite forallb_forall in Hall. apply Forall_forall. intros c Hc.
      apply bareIdChar_idChar, Hall. now apply list_elem_of_In.
    + exists [], []. now rewrite app_nil_r.
Qed.

Lemma takeWhile_app (id rest : jsstring) :
  Forall (fun c => isIdChar c = true) id -> endsId rest ->
  takeWhile isIdChar (id ++ rest) = id.
Proof.
  intros Hid Hrest. induction Hid as [|c id Hc _ IH]; cbn [takeWhile app].
  - destruct rest as [|c rest]; [reflexivity|]. cbn [endsId] in Hrest.
    cbn [takeWhile]. now rewrite Hrest.
  - now rewrite Hc, IH.
Qed.

Lemma matchUrl_here (s group : jsstring) :
  matchPrefixes urlPrefixes s = Some group -> matchUrl s = Some group.
Proof. intros H. destruct s; cbn [matchUrl]; now rewrite H. Qed.

Lemma matchUrl_next (c : N) (s : jsstring) :
  c <> 121%N -> matchUrl (c :: s) = matchUrl s.
Proof.
  intros Hc. cbn [matchUrl].
  replace (matchPrefixes urlPrefixes (c :: s)) with (@None jsstring); [reflexivity|].
  unfold urlPrefixes. cbn [matchPrefixes].
  change (js "youtube.com/watch?v=") with (121%N :: js "outube.com/watch?v=").
  change (js "youtu.be/") with (121%N :: js "outu.be/").
  change (js "youtube.com/embed/") with (121%N :: js "outube.com/embed/").
  cbn [stripPrefix]. destruct (N.eqb_spec 121 c); [congruence|reflexivity].
Qed.

Lemma matchUrl_skip (pre s : jsstring) :
  Forall (fun c => c <> 121%N) pre -> matchUrl (pre ++ s) = matchUrl s.
Proof.
  induction 1 as [|c pre Hc _ IH]; [reflexivity|].
  cbn [app]. now rewrite matchUrl_next.
Qed.

Lemma matchPrefixes_group (literal id rest : jsstring) (before after : list jsstring) :
  Forall (fun l => stripPrefix l (literal ++ id ++ rest) = None) before ->
  id <> [] -> Forall (fun c => isIdChar c = true) id -> endsId rest ->
  matchPrefixes (before ++ literal :: after) (literal ++ id ++ rest) = Some id.
Proof.
  intros Hbefore Hne Hid Hrest.
  induction Hbefore as [|l before Hl _ IH]; cbn [app matchPrefixes].
  - assert (stripPrefix literal (literal ++ id ++ rest) = Some (id ++ rest)) as ->.
    { clear. induction literal as [|p literal IH]; cbn; [reflexivity|].
      now rewrite N.eqb_refl. }
    rewrite takeWhile_app by assumption. destruct id; [congruence|reflexivity].
  - now rewrite Hl.
Qed.

Lemma matchPrefixes_no_slash (s : jsstring) :
  Forall (fun c => c <> 47%N) s -> matchPrefixes urlPrefixes s = None.
Proof.
  intros Hs.
  assert (forall literal, In 47%N literal -> stripPrefix literal s = None) as Hnone.
  { intros literal Hin. destruct (stripPrefix literal s) as [tail|] eqn:E;
      [|reflexivity].
    apply stripPrefix_spec in E. subst s. apply Forall_app in Hs as [Hs _].
    rewrite List.Forall_forall in Hs. now destruct (Hs _ Hin). }
  unfold urlPrefixes. cbn [matchPrefixes].
  rewrite !Hnone; [reflexivity|vm_compute; tauto..].
Qed.

(** X29. [extractVideoId] gives back the id of the three documented URL
    forms and of a bare id: from [https://www.youtube.com/watch?v=ID],
    [https://youtu.be/ID] and [https://www.youtube.com/embed/ID], followed
    by nothing or by one of [&], line feed, [?], [#], it returns [ID] for
    every [ID] that is not empty and holds none of these characters; and
    a string of eleven characters of [[A-Za-z0-9_-]] is returned as it
    is. *)
Theorem extractVideoId_round_trip :
  (forall id rest : jsstring,
     id <> [] -> Forall (fun c => isIdChar c = true) id -> endsId rest ->
     extractVideoId (watchUrl ++ id ++ rest) = Some id
     /\ extractVideoId (shortUrl ++ id ++ rest) = Some id
     /\ extractVideoId (embedUrl ++ id ++ rest) = Some id)
  /\ (forall id : jsstring,
        List.length id = 11%nat -> Forall (fun c => isBareIdChar c = true) id ->
        extractVideoId id = Some id).
Proof.
  split.
  - intros id rest Hne Hid Hrest. unfold extractVideoId.
    assert (forall literal before after,
               urlPrefixes = before ++ literal :: after ->
               Forall (fun l => stripPrefix l (literal ++ id ++ rest) = None) before ->
               matchUrl (literal ++ id ++ rest) = Some id) as Hhere.
    { intros literal before after Hp Hb. apply matchUrl_here. rewrite Hp.
      now apply matchPrefixes_group. }
    repeat split.
    + change watchUrl with (js "https://www." ++ js "youtube.com/watch?v=").
      rewrite <- app_assoc.
      rewrite matchUrl_skip by (vm_compute; repeat (constructor; [discriminate|]); constructor).
      rewrite (Hhere (js "youtube.com/watch?v=") []
                     [js "youtu.be/"; js "youtube.com/embed/"]);
        [reflexivity|reflexivity|constructor].
    + change shortUrl with (js "https://" ++ js "youtu.be/").
      rewrite <- app_assoc.
      rewrite matchUrl_skip by (vm_compute; repeat (constructor; [discriminate|]); constructor).
      rewrite (Hhere (js "youtu.be/") [js "youtube.com/watch?v="]
                     [js "youtube.com/embed/"]);
        [reflexivity|reflexivity|].
      repeat constructor.
    + change embedUrl with (js "https://www." ++ js "youtube.com/embed/").
      rewrite <- app_assoc.
      rewrite matchUrl_skip by (vm_compute; repeat (constructor; [discriminate|]); constructor).
      rewrite (Hhere (js "youtube.com/embed/")
                     [js "youtube.com/watch?v="; js "youtu.be/"] []);
        [reflexivity|reflexivity|].
      repeat constructor.
  - intros id Hlen Hid. unfold extractVideoId.
    assert (forall s, Forall (fun c => isBareIdChar c = true) s -> matchUrl s = None)
      as Hnone.
    { intros s Hs.
      assert (Forall (fun c => c <> 47%N) s) as Hslash.
      { eapply Forall_impl; [exact Hs|]. cbn. intros c Hc ->. discriminate. }
      clear Hs. induction Hslash as [|c s Hc Hs IH]; [reflexivity|].
      cbn [matchUrl]. rewrite (matchPrefixes_no_slash (c :: s)); [exact IH|].
      now constructor. }
    rewrite (Hnone id Hid). unfold matchBareId. rewrite Hlen. cbn [Nat.eqb andb].
    replace (forallb isBareIdChar id) with true; [reflexivity|].
    symmetry. apply forallb_forall. intros c Hc.
    rewrite List.Forall_forall in Hid. now apply Hid.
Qed.

End VideoIds.

Section VideoIdExamples.
Import YouTube.

Lemma extractVideoId_result_witness :
  extractVideoId (js "see https://youtu.be/dQw4w9WgXcQ?t=42") = Some (js "dQw4w9WgXcQ")
  /\ js "dQw4w9WgXcQ" <> []
  /\ Forall (fun c => isIdChar c = true) (js "dQw4w9WgXcQ")
  /\ exists pre post,
       js "see https://youtu.be/dQw4w9WgXcQ?t=42" = pre ++ js "dQw4w9WgXcQ" ++ post.
Proof.
  split; [reflexivity|].
  apply (extractVideoId_result (js "see https://youtu.be/dQw4w9WgXcQ?t=42")
                               (js "dQw4w9WgXcQ")).
  reflexivity.
Defined.

Lemma extractVideoId_round_trip_witness :
  extractVideoId (watchUrl ++ js "dQw4w9WgXcQ" ++ js "&list=PL1") = Some (js "dQw4w9WgXcQ")
  /\ extractVideoId (js "dQw4w9WgXcQ") = Some (js "dQw4w9WgXcQ").
Proof.
  destruct extractVideoId_round_trip as [Hurl Hbare]. split.
  - apply (Hurl (js "dQw4w9WgXcQ") (js "&list=PL1")).
    + discriminate.
    + repeat constructor.
    + reflexivity.
  - apply (Hbare (js "dQw4w9WgXcQ")); [reflexivity|repeat constructor].
Defined.

End VideoIdExamples.

(* ================================================================= *)
(** ** Token estimates *)

Section TokenFacts.
Import AskTokens.

Lemma streamed_from (answerStream : list jsstring) :
  forall st : jsstring * nat,
    fold_left (fun (st : jsstring * nat) chunk =>
                 (st.1 ++ chunk, (st.2 + estimateTokens (List.length chunk))%nat))
              answerStream st
    = (st.1 ++ concat answerStream,
       (st.2 + list_sum (List.map (fun c => estimateTokens (List.length c))
                                  answerStream))%nat).
Proof.
  induction answerStream as [|c l IH]; intros [text n]; cbn [fold_left].
  - cbn. now rewrite app_nil_r, Nat.add_0_r.
  - rewrite IH. cbn. now rewrite <- app_assoc, Nat.add_assoc.
Qed.

(** X30. The output token count of a streamed answer depends on how the
    answer arrives: the text is the chunks put together, and the count is
    never below the estimate for that text as a whole and exceeds it by
    at most one token for each chunk. *)
Theorem streamed_token_estimate (answerStream : list jsstring) :
  (streamed answerStream).1 = concat answerStream
  /\ ((whole (concat answerStream)).2 <= (streamed answerStream).2
      <= (whole (concat answerStream)).2 + List.length answerStream)%nat.
Proof.
  unfold streamed, whole. rewrite streamed_from. cbn [fst snd app Nat.add].
  split; [reflexivity|].
  induction answerStream as [|c l IH]; cbn [concat List.map list_sum List.length].
  - unfold estimateTokens. cbn. lia.
  - rewrite List.length_app. unfold estimateTokens in *.
    pose proof (Nat.div_mod_eq (List.length c + 3) 4).
    pose proof (Nat.div_mod_eq (List.length (concat l) + 3) 4).
    pose proof (Nat.div_mod_eq (List.length c + List.length (concat l) + 3) 4).
    pose proof (Nat.mod_upper_bound (List.length c + 3) 4 ltac:(lia)).
    pose proof (Nat.mod_upper_bound (List.length (concat l) + 3) 4 ltac:(lia)).
    pose proof (Nat.mod_upper_bound (List.length c + List.length (concat l) + 3) 4
                  ltac:(lia)).
    change (list_sum (?x :: ?r)) with (x + list_sum r)%nat. lia.
Qed.

End TokenFacts.

